(** * Searching an array for a value: scalar, vectorised and multithreaded

    A shallow embedding of [find.c].  The three entry points are [find]
    (element by element), [vect_find] (eight lanes at a time through AVX
    comparisons) and [thread_find] (eight worker threads and an optional
    watchdog thread that raises [stop_threads]).  Around them come the
    table of [count_ones], the generator of the array and [main], which
    runs the three searches on one array; [get_time_ns] reads the clock
    and is left out.

    C [int] is a 32-bit two's complement integer: arithmetic is carried out
    in [Z] and wrapped.  An array is a [list Z]; a read outside of it, a
    division by zero and the overflowing division stop the program
    ([Crash]).  The buffer [*ind_val] is the list of the cells written so
    far; a write outside of the cells last asked of [realloc] is undefined
    ([Overrun]).  Loops that C does not bound take fuel, and the threads
    of [thread_find] are interleaved by a schedule. *)

From Stdlib Require Import ZArith List Bool Lia.
From stdpp Require Import base tactics option list list_numbers sorting.
Import ListNotations.
Local Open Scope Z_scope.

(** * The program *)

(** ** Machine integers *)

Module Int.

Definition min_signed : Z := - 2 ^ 31.
Definition max_signed : Z := 2 ^ 31 - 1.

Definition wrap (z : Z) : Z := (z + 2 ^ 31) mod 2 ^ 32 - 2 ^ 31.

Definition in_range (z : Z) : Prop := min_signed <= z <= max_signed.

Definition add (a b : Z) : Z := wrap (a + b).
Definition sub (a b : Z) : Z := wrap (a - b).
Definition mul (a b : Z) : Z := wrap (a * b).

(** [a / b] truncates towards zero; the processor traps on a zero divisor
    and on [INT_MIN / -1]. *)
Definition div (a b : Z) : option Z :=
  if (b =? 0) || ((a =? min_signed) && (b =? -1)) then None
  else Some (Z.quot a b).

(** [a % b], used with the constant divisor 8 only. *)
Definition rem (a b : Z) : Z := Z.rem a b.

(** [a % b] with any divisor: it traps where [a / b] does. *)
Definition modulo (a b : Z) : option Z :=
  if (b =? 0) || ((a =? min_signed) && (b =? -1)) then None
  else Some (Z.rem a b).

(** The unsigned 32-bit pattern of an [int]. *)
Definition bits (z : Z) : Z := z mod 2 ^ 32.

End Int.

Abbreviation INT_MIN := Int.min_signed.
Abbreviation INT_MAX := Int.max_signed.

(** ** Outcomes of a C call *)

Inductive outcome (A : Type) : Type :=
| Returned (a : A)   (* the call returned *)
| Crash              (* SIGSEGV or SIGFPE *)
| Overrun            (* a write outside of the cells asked of [realloc] *)
| OutOfFuel.         (* still running when the fuel or the schedule ran out *)
Arguments Returned {A} a.
Arguments Crash {A}.
Arguments Overrun {A}.
Arguments OutOfFuel {A}.

(** ** The array *)

(** [U[i]]: the read faults outside of the array. *)
Definition load (U : list Z) (i : Z) : option Z :=
  if i <? 0 then None else U !! Z.to_nat i.

(** ** count_ones_table *)

(** The loop of [count_ones]: it ends when the shifts have emptied [n].
    [>>] on a negative [int] is the arithmetic shift, so a negative [n]
    is never emptied. *)
Fixpoint count_ones_loop (fuel : nat) (n count : Z) : outcome Z :=
  match fuel with
  | O => OutOfFuel
  | S fuel' =>
      if n =? 0 then Returned count
      else count_ones_loop fuel' (Z.shiftr n 1)
             (if Z.land n 1 =? 0 then count else Int.add count 1)
  end.

Definition count_ones (fuel : nat) (n : Z) : outcome Z :=
  count_ones_loop fuel n 0.

(** [int count_ones_table[256]] has static storage: all cells are 0 until
    [initialize_count_ones_table] has run. *)
Definition count_ones_table : list Z := replicate 256 0.

(** [for (int i = 0; i < 256; i++) count_ones_table[i] = count_ones(i);] *)
Fixpoint initialize_loop (fuel : nat) (i : Z) (table : list Z)
  : outcome (list Z) :=
  match fuel with
  | O => OutOfFuel
  | S fuel' =>
      if i <? 256 then
        match count_ones fuel' i with
        | Returned c =>
            initialize_loop fuel' (Int.add i 1) (<[Z.to_nat i := c]> table)
        | Crash => Crash
        | Overrun => Overrun
        | OutOfFuel => OutOfFuel
        end
      else Returned table
  end.

Definition initialize_count_ones_table (fuel : nat) : outcome (list Z) :=
  initialize_loop fuel 0 count_ones_table.

(** The cells the vectorised loops ask of [realloc] ahead of the inner
    loop: [nb_find + count_ones_table[mask]], with the table as the call
    finds it. *)
Definition block_room (table : list Z) (nb_find mask : Z) : option Z :=
  c ← load table mask;
  Some (Int.add nb_find c).

(** [( *ind_val)[p]] is one of the [room] cells last asked of [realloc]. *)
Definition in_room (room p : Z) : bool := (0 <=? p) && (p <? room).

(** ** generate_U *)

(** [rand()] is taken as the sequence of the values it returns, call after
    call; [calls] counts the calls made so far.  [aligned_alloc] is taken
    to succeed; cell [i] is written in the round [i], so the array grows
    by one cell per round. *)
Fixpoint generate_U_loop (fuel : nat) (rand : nat -> Z) (calls : nat)
    (nb_items min_val max_val : Z) (i : Z) (U : list Z)
  : outcome (list Z * nat) :=
  match fuel with
  | O => OutOfFuel
  | S fuel' =>
      if i <? nb_items then
        match Int.modulo (rand calls) (Int.add (Int.sub max_val min_val) 1) with
        | None => Crash
        | Some r =>
            generate_U_loop fuel' rand (S calls) nb_items min_val max_val
              (Int.add i 1) (U ++ [Int.add r min_val])
        end
      else Returned (U, calls)
  end.

(** [generate_U] returns the array and leaves [rand] advanced. *)
Definition generate_U (fuel : nat) (rand : nat -> Z) (calls : nat)
    (nb_items min_val max_val : Z) : outcome (list Z * nat) :=
  generate_U_loop fuel rand calls nb_items min_val max_val 0 [].

(** ** Scalar implementation *)

(** The [for] loop of [find], entered at index [i] with [nb_find] matches
    stored in [ind_val].  The [realloc] to [nb_find] cells followed by the
    write of cell [nb_find - 1] appends [i]. *)
Fixpoint find_loop (fuel : nat) (U : list Z) (i_end i_step val : Z)
    (i nb_find : Z) (ind_val : list Z) : outcome (Z * list Z) :=
  match fuel with
  | O => OutOfFuel
  | S fuel' =>
      if i <=? i_end then
        match load U i with
        | None => Crash
        | Some u =>
            if u =? val then
              find_loop fuel' U i_end i_step val
                (Int.add i i_step) (Int.add nb_find 1) (ind_val ++ [i])
            else
              find_loop fuel' U i_end i_step val
                (Int.add i i_step) nb_find ind_val
        end
      else Returned (nb_find, ind_val)
  end.

(** [find] returns [nb_find] and leaves the indices in [*ind_val]. *)
Definition find (fuel : nat) (U : list Z) (i_start i_end i_step val : Z)
  : outcome (Z * list Z) :=
  find_loop fuel U i_end i_step val i_start 0 [].

(** ** Vector computing implementation *)

(** [_CMP_EQ_OS] on two single-precision bit patterns (default MXCSR, so
    denormals are not flushed): false as soon as one side is a NaN, true
    on equal patterns and on the two zeros [0x00000000] and [0x80000000]. *)
Definition is_nan (p : Z) : bool :=
  (Z.land p 2139095040 =? 2139095040) && negb (Z.land p 8388607 =? 0).

Definition is_zero (p : Z) : bool := Z.land p 2147483647 =? 0.

Definition cmp_eq_os (a b : Z) : bool :=
  negb (is_nan a) && negb (is_nan b) && ((a =? b) || (is_zero a && is_zero b)).

(** [n] consecutive cells from [U + i] on. *)
Fixpoint load_lanes (n : nat) (U : list Z) (i : Z) : option (list Z) :=
  match n with
  | O => Some []
  | S n' =>
      u ← load U i;
      us ← load_lanes n' U (i + 1);
      Some (u :: us)
  end.

(** [_mm256_loadu_ps((float* ) (U + i))]: the eight cells [U[i..i+7]]. *)
Definition loadu_ps (U : list Z) (i : Z) : option (list Z) :=
  load_lanes 8 U i.

(** [_mm256_movemask_ps]: lane [l] gives bit [l]. *)
Definition movemask_ps (lanes : list bool) : Z :=
  fold_right (fun b m => Z.b2z b + 2 * m) 0 lanes.

(** The mask of the block at [i]: bit [l] is set when [U[i + l]] compares
    equal to [val]. *)
Definition block_mask (U : list Z) (i val : Z) : option Z :=
  lanes ← loadu_ps U i;
  Some (movemask_ps (map (fun u => cmp_eq_os (Int.bits u) (Int.bits val)) lanes)).

(** The inner loop [for (j = i; mask != 0; j++)] in a buffer of [room]
    cells; a mask has eight bits, so eight rounds exhaust it.  The write
    of [( *ind_val)[nb_find]] needs that cell to be in the room: there is no
    result when it is not. *)
Fixpoint lanes_loop (n : nat) (room j mask nb_find : Z) (ind_val : list Z)
  : option (Z * list Z) :=
  match n with
  | O => Some (nb_find, ind_val)
  | S n' =>
      if mask =? 0 then Some (nb_find, ind_val)
      else if Z.land mask 1 =? 0 then
        lanes_loop n' room (Int.add j 1) (Z.shiftr mask 1) nb_find ind_val
      else if in_room room nb_find then
        lanes_loop n' room (Int.add j 1) (Z.shiftr mask 1)
          (Int.add nb_find 1) (ind_val ++ [j])
      else None
  end.
Arguments lanes_loop : simpl never.

(** The first loop of [vect_find]; it hands [i] over to the second one.
    [table] is [count_ones_table] as the call finds it: under [if (mask)]
    it gives the room asked of [realloc], in which the inner loop
    writes.  (The table has 256 cells and a mask is below 256; a shorter
    [table] is read outside.) *)
Fixpoint vect_loop (fuel : nat) (table U : list Z) (i_end i_step val : Z)
    (i nb_find : Z) (ind_val : list Z) : outcome (Z * Z * list Z) :=
  match fuel with
  | O => OutOfFuel
  | S fuel' =>
      if Int.add i 8 <? i_end then
        match block_mask U i val with
        | None => Crash
        | Some mask =>
            if mask =? 0 then
              vect_loop fuel' table U i_end i_step val
                (Int.add i i_step) nb_find ind_val
            else
              match block_room table nb_find mask with
              | None => Crash
              | Some room =>
                  match lanes_loop 8 room i mask nb_find ind_val with
                  | None => Overrun
                  | Some (nb_find', ind_val') =>
                      vect_loop fuel' table U i_end i_step val
                        (Int.add i i_step) nb_find' ind_val'
                  end
              end
        end
      else Returned (i, nb_find, ind_val)
  end.

(** [vect_find] returns [-1] and leaves [*ind_val] alone ([None]) when the
    step is refused.  Its second loop is the loop of [find] with [i++]. *)
Definition vect_find (fuel : nat) (table U : list Z)
    (i_start i_end i_step val : Z) : outcome (Z * option (list Z)) :=
  if negb (Int.rem i_step 8 =? 0) then Returned (-1, None)
  else
    match vect_loop fuel table U i_end i_step val i_start 0 [] with
    | Returned (i, nb_find, ind_val) =>
        match find_loop fuel U i_end 1 val i nb_find ind_val with
        | Returned (nb_find', ind_val') => Returned (nb_find', Some ind_val')
        | Crash => Crash
        | Overrun => Overrun
        | OutOfFuel => OutOfFuel
        end
    | Crash => Crash
    | Overrun => Overrun
    | OutOfFuel => OutOfFuel
    end.

(** ** Multithreaded implementation *)

Definition NB_THREADS : Z := 8.

(** The global variables shared by the threads. *)
Record globals : Type := Globals {
  stop_threads : bool;
  nb_find_thread : list Z;
  U_threads : list Z;
  val_threads : Z;
}.

(** Their values when the program starts. *)
Definition initial_globals : globals :=
  {| stop_threads := false;
     nb_find_thread := replicate (Z.to_nat NB_THREADS) 0;
     U_threads := [];
     val_threads := 0 |}.

(** [struct thread_data]: [nb_find] points to the cell [nb_find_thread[t]]
    and is kept as the index [t]; the cell [ind_val] points to is the
    [ind_val] of the thread below. *)
Module thread_data.
Record t : Type := make {
  i_start : Z;
  i_end : Z;
  i_step : Z;
  nb_find : nat;
}.
End thread_data.

(** Where a thread stands in its function. *)
Inductive pc : Type :=
| ScalarTest (i : Z)         (* [i <= i_end], then [if (stop_threads)] *)
| ScalarBody (i : Z)         (* [if (U_threads[i] == val_threads)] and [i += i_step] *)
| VectTest (i : Z)           (* [i + 8 < i_end], then [if (stop_threads)] *)
| VectBlock (i : Z)          (* the load, the comparison and the mask *)
| VectLane (i j mask : Z)    (* [for (j = i; mask != 0; j++)] *)
| VectTail (i : Z)           (* [for (; i <= i_end; i++)] *)
| Exited                     (* [pthread_exit] *)
| Faulted.                   (* read outside of the array *)

Record thread : Type := Thread {
  data : thread_data.t;
  ind_val : list Z;
  at_pc : pc;
}.

Definition goto (w : thread) (p : pc) : thread :=
  {| data := data w; ind_val := ind_val w; at_pc := p |}.

(** [( *nb_find)++], the [realloc] and the write of the last cell, taken as
    one step.  The counter is written by this thread only; between the
    two writes [scalar_thread_function] has the counter one ahead of the
    cells written, and [vect_thread_function] one behind. *)
Definition record_hit (g : globals) (w : thread) (i : Z) (p : pc)
  : globals * thread :=
  ({| stop_threads := stop_threads g;
      nb_find_thread :=
        alter (fun n => Int.add n 1) (thread_data.nb_find (data w))
          (nb_find_thread g);
      U_threads := U_threads g;
      val_threads := val_threads g |},
   {| data := data w; ind_val := ind_val w ++ [i]; at_pc := p |}).

(** One step of [scalar_thread_function]. *)
Definition scalar_thread_function (g : globals) (w : thread)
  : globals * thread :=
  match at_pc w with
  | ScalarTest i =>
      if i <=? thread_data.i_end (data w) then
        if stop_threads g then (g, goto w Exited)
        else (g, goto w (ScalarBody i))
      else (g, goto w Exited)
  | ScalarBody i =>
      let next := ScalarTest (Int.add i (thread_data.i_step (data w))) in
      match load (U_threads g) i with
      | None => (g, goto w Faulted)
      | Some u =>
          if u =? val_threads g then record_hit g w i next
          else (g, goto w next)
      end
  | _ => (g, w)
  end.

(** One step of [vect_thread_function].  The steps are those of a process
    in which [initialize_count_ones_table] has run, as it has in [main]:
    the room asked of [realloc] ahead of the inner loop, [block_room], then
    holds the writes of that loop exactly, and the steps do not keep it. *)
Definition vect_thread_function (g : globals) (w : thread)
  : globals * thread :=
  match at_pc w with
  | VectTest i =>
      if Int.add i 8 <? thread_data.i_end (data w) then
        if stop_threads g then (g, goto w Exited)
        else (g, goto w (VectBlock i))
      else (g, goto w (VectTail i))
  | VectBlock i =>
      match block_mask (U_threads g) i (val_threads g) with
      | None => (g, goto w Faulted)
      | Some mask => (g, goto w (VectLane i i mask))
      end
  | VectLane i j mask =>
      if mask =? 0 then
        (g, goto w (VectTest (Int.add i (thread_data.i_step (data w)))))
      else
        let next := VectLane i (Int.add j 1) (Z.shiftr mask 1) in
        if Z.land mask 1 =? 0 then (g, goto w next)
        else record_hit g w j next
  | VectTail i =>
      if i <=? thread_data.i_end (data w) then
        let next := VectTail (Int.add i 1) in
        match load (U_threads g) i with
        | None => (g, goto w Faulted)
        | Some u =>
            if u =? val_threads g then record_hit g w i next
            else (g, goto w next)
        end
      else (g, goto w Exited)
  | _ => (g, w)
  end.

Definition thread_step (g : globals) (w : thread) : globals * thread :=
  match at_pc w with
  | ScalarTest _ | ScalarBody _ => scalar_thread_function g w
  | VectTest _ | VectBlock _ | VectLane _ _ _ | VectTail _ =>
      vect_thread_function g w
  | Exited | Faulted => (g, w)
  end.

(** Where the watchdog stands in [watch_nb_find]. *)
Inductive watch_pc : Type :=
| WatchSleep                   (* [usleep(1000)], then [if (stop_threads)] *)
| WatchSum (t nb_find : Z)     (* [for (t = 0; t < NB_THREADS; t++)] *)
| WatchExited.

(** One step of [watch_nb_find]; [k] is read through its argument. *)
Definition watch_nb_find (k : Z) (g : globals) (p : watch_pc)
  : globals * watch_pc :=
  match p with
  | WatchSleep =>
      if stop_threads g then (g, WatchExited) else (g, WatchSum 0 0)
  | WatchSum t nb_find =>
      if t <? NB_THREADS then
        (g, WatchSum (Int.add t 1)
              (Int.add nb_find (default 0 (nb_find_thread g !! Z.to_nat t))))
      else if k <? nb_find then
        ({| stop_threads := true;
            nb_find_thread := nb_find_thread g;
            U_threads := U_threads g;
            val_threads := val_threads g |}, WatchExited)
      else (g, WatchSleep)
  | WatchExited => (g, WatchExited)
  end.

(** The threads of one call: the workers and, when [k >= 0], the watchdog. *)
Record system : Type := System {
  shared : globals;
  workers : list thread;
  watch : option watch_pc;
}.

(** Who takes the next step. *)
Inductive tid : Type :=
| Worker (t : nat)
| Watchdog.

Definition step (k : Z) (s : system) (who : tid) : system :=
  match who with
  | Worker t =>
      match workers s !! t with
      | Some w =>
          let '(g, w') := thread_step (shared s) w in
          {| shared := g; workers := <[t := w']> (workers s); watch := watch s |}
      | None => s
      end
  | Watchdog =>
      match watch s with
      | Some p =>
          let '(g, p') := watch_nb_find k (shared s) p in
          {| shared := g; workers := workers s; watch := Some p' |}
      | None => s
      end
  end.

Definition run (k : Z) (sched : list tid) (s : system) : system :=
  fold_left (step k) sched s.

(** [thread_data_array[t].i_start] and [.i_end] for [nb] threads:
    [t * M / nb * i_step + i_start] and
    [(t + 1) * M / nb * i_step + i_start - 1], with
    [M = (i_end - i_start) / i_step + 1], all in [int]. *)
Definition segment (nb i_start i_end i_step t : Z) : option (Z * Z) :=
  q ← Int.div (Int.sub i_end i_start) i_step;
  let M := Int.add q 1 in
  lo ← Int.div (Int.mul t M) nb;
  hi ← Int.div (Int.mul (Int.add t 1) M) nb;
  Some (Int.add (Int.mul lo i_step) i_start,
        Int.sub (Int.add (Int.mul hi i_step) i_start) 1).

Definition segments (nb i_start i_end i_step : Z) : option (list (Z * Z)) :=
  mapM (segment nb i_start i_end i_step) (seqZ 0 nb).

(** The [switch] on [ver]: the entry point of the selected function, or
    nothing when the call is refused. *)
Definition thread_function (ver i_step : Z) : option (Z -> pc) :=
  if ver =? 0 then Some ScalarTest
  else if ver =? 1 then
    if negb (Int.rem i_step 8 =? 0) then None else Some VectTest
  else None.

(** [pthread_create] for thread [t]: it starts with [*ind_val = malloc(0)]. *)
Definition spawn (entry : Z -> pc) (i_step : Z) (t : nat) (seg : Z * Z)
  : thread :=
  {| data := thread_data.make seg.1 seg.2 i_step t;
     ind_val := [];
     at_pc := entry seg.1 |}.

Definition exited (w : thread) : bool :=
  match at_pc w with Exited => true | _ => false end.

Definition faulted (w : thread) : bool :=
  match at_pc w with Faulted => true | _ => false end.

(** [pthread_join] on the watchdog: it runs alone until it exits, which takes
    ten steps at most once [stop_threads] is set. *)
Definition join_watchdog (k : Z) (g : globals) (p : watch_pc)
  : globals * watch_pc :=
  Nat.iter 10 (fun '(g, p) => watch_nb_find k g p) (g, p).

(** What [thread_find] hands back: the returned [int], [*ind_val] when it
    was assigned, and the threads and globals it leaves behind. *)
Record call : Type := Call {
  ret : Z;
  out : option (list Z);
  final : system;
}.

(** The end of [thread_find], once every worker has been joined: the sum of
    the counters, [stop_threads = true], the [memcpy] of [nb_find_thread[t]]
    cells of each thread, the cut to [k] cells and the join of the
    watchdog. *)
Definition aggregate (k : Z) (s : system) : call :=
  let counters := nb_find_thread (shared s) in
  let nb_find := fold_left Int.add counters 0 in
  let g := {| stop_threads := true;
              nb_find_thread := counters;
              U_threads := U_threads (shared s);
              val_threads := val_threads (shared s) |} in
  let all := concat (zip_with (fun w n => take (Z.to_nat n) (ind_val w))
                       (workers s) counters) in
  let '(g', wd) :=
    match watch s with
    | Some p => let '(g', p') := join_watchdog k g p in (g', Some p')
    | None => (g, None)
    end in
  let s' := {| shared := g'; workers := workers s; watch := wd |} in
  if (0 <=? k) && (k <? nb_find)
  then {| ret := k; out := Some (take (Z.to_nat k) all); final := s' |}
  else {| ret := nb_find; out := Some all; final := s' |}.

(** The threads of a call, just created: the counters are reset, the
    array and the target are published, [stop_threads] is left as it is. *)
Definition launch (g : globals) (U : list Z) (val k : Z) (entry : Z -> pc)
    (i_step : Z) (segs : list (Z * Z)) : system :=
  {| shared := {| stop_threads := stop_threads g;
                  nb_find_thread := replicate (Z.to_nat NB_THREADS) 0;
                  U_threads := U;
                  val_threads := val |};
     workers := imap (spawn entry i_step) segs;
     watch := if 0 <=? k then Some WatchSleep else None |}.

(** [thread_find], called with the globals [g], under the schedule
    [sched].  A refused call returns [-1] at once.  The segments are
    computed here ahead of the threads; [thread_find] computes each as it
    creates its worker, after it has created the watchdog when [k >= 0].
    The divisor [i_step] is the same for every segment, so the division
    traps for the first worker or for none, and the trap kills the
    process, watchdog included.  A fault in a worker kills the process; a
    schedule that ends before the workers do leaves the call
    unfinished. *)
Definition thread_find (sched : list tid) (g : globals) (U : list Z)
    (i_start i_end i_step val k ver : Z) : outcome call :=
  match thread_function ver i_step with
  | None =>
      Returned {| ret := -1; out := None;
                  final := {| shared := g; workers := []; watch := None |} |}
  | Some entry =>
      match segments NB_THREADS i_start i_end i_step with
      | None => Crash
      | Some segs =>
          let s := run k sched (launch g U val k entry i_step segs) in
          if existsb faulted (workers s) then Crash
          else if forallb exited (workers s) then Returned (aggregate k s)
          else OutOfFuel
      end
  end.

(** A schedule that lets every thread step in turn, [n] times over. *)
Definition round_robin (n : nat) : list tid :=
  mjoin (replicate n (map Worker (seq 0 (Z.to_nat NB_THREADS)) ++ [Watchdog])).

(** ** main *)

(** What [main] prints, the execution times left aside. *)
Inductive line : Type :=
| Creating (size min max : Z)   (* "Creating a random input array with ..." *)
| Seeking (val : Z)             (* "Value to seek: %i." *)
| Found (nb_find : Z)           (* "Found %i valid indices." *)
| Indices (l : list Z).         (* "Valid indices: ..." *)

(** The command line: [args] holds [atoi(argv[1])], [atoi(argv[2])], ... *)
Definition argc (args : list Z) : Z := 1 + Z.of_nat (length args).

Definition argv (args : list Z) (n : nat) : Z := default 0 (args !! (n - 1)%nat).

Definition main_print_ind (args : list Z) : bool :=
  if 2 <=? argc args then negb (argv args 1 =? 0) else false.

Definition main_size (args : list Z) : Z :=
  if 3 <=? argc args then argv args 2 else 1000000000.

Definition main_min (args : list Z) : Z :=
  if 5 <=? argc args then argv args 3 else 0.

Definition main_max (args : list Z) : Z :=
  if 5 <=? argc args then argv args 4 else 100.

(** [val]: the sixth word of the command line, or the first value drawn.
    It comes with the number of calls of [rand] made so far. *)
Definition main_val (rand : nat -> Z) (args : list Z) : option (Z * nat) :=
  if 6 <=? argc args then Some (argv args 5, 0%nat)
  else
    r ← Int.modulo (rand 0%nat)
          (Int.add (Int.sub (main_max args) (main_min args)) 1);
    Some (Int.add r (main_min args), 1%nat).

(** The loop that prints [( *ind_val)[0 .. nb_find - 1]]. *)
Definition print_indices (print_ind : bool) (nb_find : Z) (ind_val : list Z)
  : list line :=
  if print_ind then [Indices (take (Z.to_nat nb_find) ind_val)] else [].

(** [main]: the table is filled, the array is drawn, then searched three
    times, by [vect_find] with the table as it was filled.  [ind_val] is
    one cell for the three searches; a search that does not assign it
    leaves the list of the search before. *)
Definition main (fuel : nat) (sched : list tid) (rand : nat -> Z)
    (args : list Z) : outcome (list line) :=
  let print_ind := main_print_ind args in
  let size := main_size args in
  let min := main_min args in
  let max := main_max args in
  match initialize_count_ones_table fuel, main_val rand args with
  | Crash, _ | Returned _, None => Crash
  | Overrun, _ => Overrun
  | OutOfFuel, _ => OutOfFuel
  | Returned table, Some (val, calls) =>
      match generate_U fuel rand calls size min max with
      | Returned (U, _) =>
          match find fuel U 0 (Int.sub size 1) 1 val with
          | Returned (n1, l1) =>
              match vect_find fuel table U 0 (Int.sub size 1) 8 val with
              | Returned (n2, o2) =>
                  let l2 := default l1 o2 in
                  match thread_find sched initial_globals U 0 (Int.sub size 1)
                          8 val (-1) 1 with
                  | Returned c =>
                      let l3 := default l2 (out c) in
                      Returned
                        ([Creating size min max; Seeking val; Found n1] ++
                         print_indices print_ind n1 l1 ++
                         [Found n2] ++ print_indices print_ind n2 l2 ++
                         [Found (ret c)] ++ print_indices print_ind (ret c) l3)
                  | Crash => Crash
                  | Overrun => Overrun
                  | OutOfFuel => OutOfFuel
                  end
              | Crash => Crash
              | Overrun => Overrun
              | OutOfFuel => OutOfFuel
              end
          | Crash => Crash
          | Overrun => Overrun
          | OutOfFuel => OutOfFuel
          end
      | Crash => Crash
      | Overrun => Overrun
      | OutOfFuel => OutOfFuel
      end
  end.

(** * Specification vocabulary *)

(** ** The indices a stepped scan visits *)

Fixpoint stepped_from (n : nat) (i i_step : Z) : list Z :=
  match n with
  | O => []
  | S n' => i :: stepped_from n' (i + i_step) i_step
  end.

(** Number of strides of [[i_start, i_end]]: the [M] of the planner. *)
Definition strides (i_start i_end i_step : Z) : Z :=
  (i_end - i_start) / i_step + 1.

(** [{i_start, i_start + i_step, ...}] intersected with [[i_start, i_end]]. *)
Definition stepped (i_start i_end i_step : Z) : list Z :=
  stepped_from (Z.to_nat (strides i_start i_end i_step)) i_start i_step.

(** The indices of [l] at which the array holds [val]. *)
Definition hits (U : list Z) (val : Z) (l : list Z) : list Z :=
  filter (fun i => load U i = Some val) l.

(** ** The cells a vectorised scan compares *)

(** Lane [j] compares equal to the target in the AVX comparison. *)
Definition lane_eq (U : list Z) (val j : Z) : bool :=
  match load U j with
  | Some u => cmp_eq_os (Int.bits u) (Int.bits val)
  | None => false
  end.

Definition lane_hits (U : list Z) (val : Z) (l : list Z) : list Z :=
  filter (fun j => lane_eq U val j = true) l.

(** The cells of [m] blocks of eight, [i_step] apart. *)
Fixpoint block_cells (m : nat) (i i_step : Z) : list Z :=
  match m with
  | O => []
  | S m' => stepped_from 8 i 1 ++ block_cells m' (i + i_step) i_step
  end.

(** How many blocks the first loop of [vect_find] compares: the [k] with
    [i_start + k * i_step + 8 < i_end]. *)
Definition blocks (i_start i_end i_step : Z) : Z :=
  strides (i_start + 9) i_end i_step.

(** The indices a mask stands for, lane by lane. *)
Fixpoint lane_indices (j : Z) (lanes : list bool) : list Z :=
  match lanes with
  | [] => []
  | b :: lanes' => (if b then [j] else []) ++ lane_indices (j + 1) lanes'
  end.

(** The lanes of [U] compare equal to [val] exactly when they are [val]. *)
Definition lanes_agree (U : list Z) (val : Z) : Prop :=
  Forall (fun u => cmp_eq_os (Int.bits u) (Int.bits val) = (u =? val)) U.

(** [val] is a NaN or a zero when read as a single-precision number. *)
Definition special (val : Z) : bool :=
  is_nan (Int.bits val) || is_zero (Int.bits val).

(** ** The segments of the planner, without overflow *)

(** First stride of the segment of thread [t]. *)
Definition cut (nb i_start i_end i_step t : Z) : Z :=
  t * strides i_start i_end i_step / nb.

Definition exact_segment (nb i_start i_end i_step t : Z) : Z * Z :=
  (i_start + cut nb i_start i_end i_step t * i_step,
   i_start + cut nb i_start i_end i_step (t + 1) * i_step - 1).

Definition segment_indices (i_step : Z) (seg : Z * Z) : list Z :=
  stepped seg.1 seg.2 i_step.

Definition empty_segment (seg : Z * Z) : Prop := seg.2 < seg.1.

(** ** Invariants of a worker thread *)

(** [i] is the first index of a stride of the segment. *)
Definition aligned (d : thread_data.t) (i : Z) : Prop :=
  exists q, 0 <= q /\ i = thread_data.i_start d + q * thread_data.i_step d.

(** A segment the planner hands out when nothing overflows: a whole number
    of strides, and room for the test [i + 8 < i_end] past its end. *)
Definition segment_ok (d : thread_data.t) : Prop :=
  0 <= thread_data.i_start d /\
  0 < thread_data.i_step d /\
  (exists m, 0 <= m /\
     thread_data.i_end d + 1 - thread_data.i_start d = m * thread_data.i_step d) /\
  thread_data.i_end d + 9 <= INT_MAX.

(** The index the thread has reached: every cell before it is dealt with. *)
Definition reach (d : thread_data.t) (p : pc) : Z :=
  match p with
  | ScalarTest i | ScalarBody i | VectTest i | VectBlock i | VectTail i => i
  | VectLane _ j _ => j
  | Exited | Faulted => thread_data.i_end d + 1
  end.

Definition pc_ok (d : thread_data.t) (p : pc) : Prop :=
  match p with
  | ScalarTest i => aligned d i /\ i <= thread_data.i_end d + 1
  | ScalarBody i => aligned d i /\ i <= thread_data.i_end d
  | VectTest i =>
      8 <= thread_data.i_step d /\ aligned d i /\ i <= thread_data.i_end d + 1
  | VectBlock i =>
      8 <= thread_data.i_step d /\ aligned d i /\ i + 8 < thread_data.i_end d
  | VectLane i j mask =>
      8 <= thread_data.i_step d /\ aligned d i /\ i + 8 < thread_data.i_end d /\
      i <= j <= i + 8 /\ 0 <= mask < 2 ^ (i + 8 - j)
  | VectTail i => thread_data.i_start d <= i <= thread_data.i_end d + 1
  | Exited | Faulted => True
  end.

(** The thread [w] and the value [n] of its counter [nb_find_thread[t]]. *)
Definition worker_ok (w : thread) (n : Z) : Prop :=
  n = Z.of_nat (length (ind_val w)) /\
  n <= reach (data w) (at_pc w) - thread_data.i_start (data w) /\
  reach (data w) (at_pc w) <= thread_data.i_end (data w) + 1 /\
  pc_ok (data w) (at_pc w).

(** A step leaves the array, the target and the flag alone; it either
    keeps the counter and the indices or records one more index. *)
Definition step_effect (g g' : globals) (w w' : thread) : Prop :=
  data w' = data w /\
  stop_threads g' = stop_threads g /\
  U_threads g' = U_threads g /\
  val_threads g' = val_threads g /\
  ((nb_find_thread g' = nb_find_thread g /\ ind_val w' = ind_val w) \/
   (exists x,
      nb_find_thread g' =
        alter (fun n => Int.add n 1) (thread_data.nb_find (data w))
          (nb_find_thread g) /\
      ind_val w' = ind_val w ++ [x])).


(** ** Invariants of a call of [thread_find] *)

(** [stale] below is the value of [stop_threads] when the call starts. *)

(** The sum of the counters, in [Z]. *)
Definition total (counters : list Z) : Z := foldr Z.add 0 counters.

(** The number of cells of a segment and of all segments. *)
Definition width (seg : Z * Z) : Z := seg.2 + 1 - seg.1.

Definition room (segs : list (Z * Z)) : Z :=
  foldr (fun seg acc => width seg + acc) 0 segs.

(** The watchdog has summed the first [t] counters, each read no later
    than now. *)
Definition watch_ok (counters : list Z) (p : watch_pc) : Prop :=
  match p with
  | WatchSum t nb_find =>
      0 <= t <= NB_THREADS /\
      0 <= nb_find <= total (take (Z.to_nat t) counters)
  | WatchSleep | WatchExited => True
  end.

(** A thread stepping with [stop_threads] clear. *)
Definition idle_globals (U : list Z) (val : Z) : globals :=
  {| stop_threads := false; nb_find_thread := [];
     U_threads := U; val_threads := val |}.

Definition idle_step (U : list Z) (val : Z) (w : thread) : thread :=
  (thread_step (idle_globals U val) w).2.

(** [w] is where [w0] gets to when it is never told to stop. *)
Definition on_track (U : list Z) (val : Z) (w0 w : thread) : Prop :=
  exists n, w = Nat.iter n (idle_step U val) w0.

(** [w] is on its track, or was told to stop somewhere on it. *)
Definition tracked (U : list Z) (val : Z) (w0 w : thread) : Prop :=
  on_track U val w0 w \/
  exists w', on_track U val w0 w' /\ w = goto w' Exited.

Record invariant (stale : bool) (U : list Z) (val k i_step : Z)
    (entry : Z -> pc) (segs : list (Z * Z)) (s : system) : Prop := {
  inv_workers : length (workers s) = length segs;
  inv_counters : length (nb_find_thread (shared s)) = length segs;
  inv_array : U_threads (shared s) = U /\ val_threads (shared s) = val;
  inv_each : forall t w, workers s !! t = Some w ->
      exists seg n,
        segs !! t = Some seg /\
        nb_find_thread (shared s) !! t = Some n /\
        data w = thread_data.make seg.1 seg.2 i_step t /\
        worker_ok w n;
  inv_track : forall t w seg,
      workers s !! t = Some w -> segs !! t = Some seg ->
      tracked U val (spawn entry i_step t seg) w /\
      (stop_threads (shared s) = false ->
       on_track U val (spawn entry i_step t seg) w);
  inv_watch : match watch s with
              | Some p => 0 <= k /\ watch_ok (nb_find_thread (shared s)) p
              | None => k < 0
              end;
  inv_flag : stop_threads (shared s) = true ->
             stale = true \/ 0 <= k < total (nb_find_thread (shared s));
}.

(** The indices of all threads, in the order of the threads. *)
Definition all_indices (s : system) : list Z := concat (ind_val <$> workers s).

Definition all_exited (s : system) : Prop :=
  forall t w, workers s !! t = Some w -> at_pc w = Exited.

(** The inputs of [thread_find] for which nothing overflows: a range, a
    positive step, the products of the planner and the last tests of the
    loops within [int]. *)
Definition fits (i_start i_end i_step : Z) : Prop :=
  0 <= i_start <= i_end /\
  0 < i_step /\
  i_end + i_step + 8 <= INT_MAX /\
  NB_THREADS * strides i_start i_end i_step <= INT_MAX.

(** What the caller sees of a call: the returned [int] and [*ind_val]. *)
Definition answer (o : outcome call) : outcome (Z * option (list Z)) :=
  match o with
  | Returned c => Returned (ret c, out c)
  | Crash => Crash
  | Overrun => Overrun
  | OutOfFuel => OutOfFuel
  end.

(** The globals a call leaves behind. *)
Definition globals_after (o : outcome call) (g : globals) : globals :=
  match o with
  | Returned c => shared (final c)
  | Crash | Overrun | OutOfFuel => g
  end.

(** The array of the boundary scenarios. *)
Definition U6 : list Z := [5; 2; 5; 5; 1; 5].

(** A schedule under which the threads of the cells 0, 3 and 5 of [U6]
    finish first, the watchdog then sums the counters, and the other
    threads come last. *)
Definition late_threads : list tid :=
  replicate 3 (Worker 1) ++ replicate 3 (Worker 5) ++ replicate 3 (Worker 7) ++
  replicate 10 Watchdog ++ round_robin 3.

(** The schedule that lets each worker in turn take [n] steps. *)
Definition one_by_one (n : nat) : list tid :=
  mjoin (map (fun t => replicate n (Worker t)) (seq 0 (Z.to_nat NB_THREADS))).

(** ** What a thread has stored *)

(** The cell [x] was found to match: it holds [val], or, in a vectorised
    thread, its lane compared equal. *)
Definition found (vect : bool) (U : list Z) (val x : Z) : Prop :=
  load U x = Some val \/ (vect = true /\ lane_eq U val x = true).

Definition vector_pc (p : pc) : bool :=
  match p with
  | VectTest _ | VectBlock _ | VectLane _ _ _ | VectTail _ => true
  | ScalarTest _ | ScalarBody _ | Exited | Faulted => false
  end.

(** The mask left to decode stands for the lanes from [j] on. *)
Definition mask_ok (U : list Z) (val : Z) (p : pc) : Prop :=
  match p with
  | VectLane i j mask =>
      mask = movemask_ps
               (map (lane_eq U val) (stepped_from (Z.to_nat (i + 8 - j)) j 1))
  | _ => True
  end.

(** The indices of a thread are ascending, lie between the start of its
    segment and the cell it has reached, and were found to match. *)
Definition buffer_ok (vect : bool) (U : list Z) (val : Z) (w : thread) : Prop :=
  StronglySorted Z.lt (ind_val w) /\
  Forall (fun x => thread_data.i_start (data w) <= x < reach (data w) (at_pc w) /\
                   found vect U val x) (ind_val w) /\
  mask_ok U val (at_pc w) /\
  (vect = false -> vector_pc (at_pc w) = false).

Definition buffers_ok (vect : bool) (U : list Z) (val : Z) (s : system) : Prop :=
  forall t w, workers s !! t = Some w -> buffer_ok vect U val w.

(** ** The bits of a mask *)

(** How many of the [w] low bits of [n] are set. *)
Definition set_bits (w : nat) (n : Z) : nat :=
  length (filter (fun b => Z.testbit n (Z.of_nat b) = true) (seq 0 w)).

(** The number of ones of a non-negative [int]. *)
Definition ones (n : Z) : Z := Z.of_nat (set_bits 31 n).

(** ** Counts and lists *)

(** [nb_find] counts the indices of [ind_val], as an [int] does. *)
Definition counted (nb_find : Z) (ind_val : list Z) : Prop :=
  nb_find = Int.wrap (Z.of_nat (length ind_val)).

(** ** A thread left alone *)

(** [w] gets to [w'] in [n] steps at most when it is never told to stop. *)
Definition arrives (U : list Z) (val : Z) (n : nat) (w w' : thread) : Prop :=
  exists steps, (steps <= n)%nat /\ Nat.iter steps (idle_step U val) w = w'.

(** What a vectorised scan of the segment stores: the lanes that compare
    equal in the blocks, then the cells of the tail that hold [val]. *)
Definition vect_scan (U : list Z) (val i_step : Z) (seg : Z * Z) : list Z :=
  let m := Z.to_nat (blocks seg.1 seg.2 i_step) in
  let i := seg.1 + Z.of_nat m * i_step in
  lane_hits U val (block_cells m seg.1 i_step) ++
  hits U val (stepped_from (Z.to_nat (seg.2 - i + 1)) i 1).

(** ** A call entered with the flag set *)

(** The flag is set, nothing has been counted or stored, and every
    scalar worker is at its first test or has exited: none has got to the
    read of the array. *)
Definition silenced (s : system) : Prop :=
  stop_threads (shared s) = true /\
  Forall (fun n => n = 0) (nb_find_thread (shared s)) /\
  Forall (fun w => ind_val w = [] /\
                   (at_pc w = Exited \/
                    at_pc w = ScalarTest (thread_data.i_start (data w))))
    (workers s).

(** [stop_threads = true;] *)
Definition raise_flag (g : globals) : globals :=
  {| stop_threads := true;
     nb_find_thread := nb_find_thread g;
     U_threads := U_threads g;
     val_threads := val_threads g |}.

(** * Properties *)

(** ** Machine integers *)

Module IntFacts.

Lemma wrap_small z : Int.in_range z -> Int.wrap z = z.
Proof.
  unfold Int.in_range, Int.wrap, Int.min_signed, Int.max_signed. intros H.
  rewrite Z.mod_small; lia.
Qed.

Lemma wrap_range z : Int.in_range (Int.wrap z).
Proof.
  unfold Int.in_range, Int.wrap, Int.min_signed, Int.max_signed.
  pose proof (Z.mod_pos_bound (z + 2 ^ 31) (2 ^ 32)). lia.
Qed.

Lemma add_small a b : Int.in_range (a + b) -> Int.add a b = a + b.
Proof. apply wrap_small. Qed.

Lemma sub_small a b : Int.in_range (a - b) -> Int.sub a b = a - b.
Proof. apply wrap_small. Qed.

Lemma mul_small a b : Int.in_range (a * b) -> Int.mul a b = a * b.
Proof. apply wrap_small. Qed.

Lemma div_pos a b : 0 <= a -> 0 < b -> Int.div a b = Some (a / b).
Proof.
  intros Ha Hb. unfold Int.div.
  destruct (b =? 0) eqn:E0; [lia|].
  destruct (b =? -1) eqn:E1; [lia|].
  rewrite andb_false_r. simpl. f_equal. apply Z.quot_div_nonneg; lia.
Qed.

Lemma bits_inj a b :
  Int.in_range a -> Int.in_range b -> Int.bits a = Int.bits b -> a = b.
Proof.
  unfold Int.in_range, Int.bits, Int.min_signed, Int.max_signed. intros Ha Hb H.
  assert (Hd : (a - b) mod 2 ^ 32 = 0).
  { rewrite Zminus_mod, H, Z.sub_diag. reflexivity. }
  apply Z.mod_divide in Hd; [|lia]. destruct Hd as [q Hq]. lia.
Qed.

End IntFacts.

(** Linear arithmetic once the bounds of [int] are unfolded. *)
Ltac int_lia :=
  unfold Int.in_range, Int.min_signed, Int.max_signed in *; lia.
Ltac int_nia :=
  unfold Int.in_range, Int.min_signed, Int.max_signed in *; nia.

(** ** The array *)

Lemma load_Some U i u :
  load U i = Some u -> 0 <= i < Z.of_nat (length U).
Proof.
  unfold load. destruct (i <? 0) eqn:E; [discriminate|].
  intros H. apply lookup_lt_Some in H. lia.
Qed.

Lemma load_in_bounds U i :
  0 <= i < Z.of_nat (length U) -> exists u, load U i = Some u.
Proof.
  intros H. unfold load. destruct (i <? 0) eqn:E; [lia|].
  destruct (lookup_lt_is_Some_2 U (Z.to_nat i)) as [u Hu]; [lia|].
  eauto.
Qed.

Lemma load_out_of_bounds U i : Z.of_nat (length U) <= i -> load U i = None.
Proof.
  intros H. unfold load. destruct (Z.ltb_spec i 0); [reflexivity|].
  apply lookup_ge_None. lia.
Qed.

Lemma load_elem_of U i u : load U i = Some u -> u ∈ U.
Proof.
  unfold load. destruct (i <? 0); [discriminate|].
  apply list_elem_of_lookup_2.
Qed.

Example find_boundary :
  find 10 [5; 2; 5; 5; 1; 5] 0 5 1 5 = Returned (4, [0; 2; 3; 5]).
Proof. reflexivity. Qed.

Example vect_find_boundary :
  vect_find 10 count_ones_table [5; 2; 5; 5; 1; 5] 0 5 8 5 =
  Returned (4, Some [0; 2; 3; 5]).
Proof. reflexivity. Qed.

Example segments_boundary :
  segments NB_THREADS 0 5 1 =
  Some [(0, -1); (0, 0); (1, 1); (2, 2); (3, 2); (3, 3); (4, 4); (5, 5)].
Proof. reflexivity. Qed.

(** ** The indices a stepped scan visits *)

Section Stepped.

Lemma length_stepped_from n i st : length (stepped_from n i st) = n.
Proof. revert i. induction n; intros; simpl; auto. Qed.

Lemma elem_of_stepped_from n i st x :
  x ∈ stepped_from n i st <->
  exists j : nat, (j < n)%nat /\ x = i + Z.of_nat j * st.
Proof.
  revert i. induction n as [|n IH]; intros i; simpl.
  - split; [intros H; inversion H | intros (j & Hj & _); lia].
  - rewrite elem_of_cons, IH. split.
    + intros [-> | (j & Hj & ->)].
      * exists 0%nat. split; lia.
      * exists (S j). split; lia.
    + intros (j & Hj & ->). destruct j as [|j].
      * left. lia.
      * right. exists j. split; lia.
Qed.

Lemma stepped_from_app n m i st :
  stepped_from (n + m) i st =
  stepped_from n i st ++ stepped_from m (i + Z.of_nat n * st) st.
Proof.
  revert i. induction n as [|n IH]; intros i; simpl.
  - f_equal. lia.
  - f_equal. rewrite IH. do 2 f_equal. lia.
Qed.

Lemma stepped_from_sorted n i st :
  0 < st -> StronglySorted Z.lt (stepped_from n i st).
Proof.
  intros Hst. revert i. induction n as [|n IH]; intros i; simpl.
  - constructor.
  - constructor; [apply IH|].
    apply Forall_forall. intros x Hx.
    apply elem_of_stepped_from in Hx as (j & _ & ->). nia.
Qed.

Lemma strides_bounds s e st :
  0 < st -> s <= e ->
  0 < strides s e st /\
  s + (strides s e st - 1) * st <= e < s + strides s e st * st.
Proof.
  intros Hst Hse. unfold strides.
  pose proof (Z.mul_div_le (e - s) st Hst).
  pose proof (Z.mul_succ_div_gt (e - s) st Hst).
  pose proof (Z.div_pos (e - s) st). nia.
Qed.

Lemma strides_empty s e st : 0 < st -> e < s -> strides s e st <= 0.
Proof.
  intros Hst Hse. unfold strides.
  assert ((e - s) / st < 0) by (apply Z.div_lt_upper_bound; lia). lia.
Qed.

Lemma elem_of_stepped s e st x :
  0 < st ->
  x ∈ stepped s e st <-> exists j, 0 <= j /\ x = s + j * st /\ x <= e.
Proof.
  intros Hst. unfold stepped. rewrite elem_of_stepped_from.
  destruct (Z_le_gt_dec s e) as [Hse|Hse].
  - pose proof (strides_bounds s e st Hst Hse) as (Hpos & Hlo & Hhi).
    split.
    + intros (j & Hj & ->). exists (Z.of_nat j). split; [lia|]. split; [lia|nia].
    + intros (j & Hj & -> & Hle). exists (Z.to_nat j).
      split; [|lia]. nia.
  - pose proof (strides_empty s e st Hst ltac:(lia)).
    split.
    + intros (j & Hj & _). lia.
    + intros (j & Hj & -> & Hle). nia.
Qed.

Lemma hits_sorted U val l :
  StronglySorted Z.lt l -> StronglySorted Z.lt (hits U val l).
Proof.
  unfold hits. induction 1 as [|x l Hl IH Hx]; [constructor|].
  rewrite filter_cons. destruct (decide _); [|assumption].
  constructor; [assumption|].
  apply Forall_forall. intros y Hy.
  apply list_elem_of_filter in Hy as [_ Hy].
  rewrite Forall_forall in Hx. auto.
Qed.

Lemma hits_app U val l1 l2 :
  hits U val (l1 ++ l2) = hits U val l1 ++ hits U val l2.
Proof. apply filter_app. Qed.

Lemma length_hits U val l : (length (hits U val l) <= length l)%nat.
Proof. apply length_filter. Qed.

End Stepped.

(** ** The scalar scan *)

Section Find.

Variables (U : list Z) (val : Z).

(** One run of the loop over [n] strides that stay inside the array and
    inside [int]. *)
Lemma find_loop_run i_end i_step n : forall fuel i nb_find ind_val,
  0 < i_step ->
  0 <= i ->
  i + Z.of_nat n * i_step <= INT_MAX ->
  i + (Z.of_nat n - 1) * i_step <= i_end < i + Z.of_nat n * i_step ->
  i_end < Z.of_nat (length U) ->
  0 <= nb_find -> nb_find + Z.of_nat n <= INT_MAX ->
  (n < fuel)%nat ->
  find_loop fuel U i_end i_step val i nb_find ind_val =
  Returned (nb_find + Z.of_nat (length (hits U val (stepped_from n i i_step))),
            ind_val ++ hits U val (stepped_from n i i_step)).
Proof.
  induction n as [|n IH]; intros fuel i nb_find ind_val Hst Hi Hmax Hn Hlen Hnb Hnbmax Hfuel;
    (destruct fuel as [|fuel]; [lia|]); simpl.
  - destruct (Z.leb_spec i i_end); [lia|].
    unfold hits. rewrite filter_nil, app_nil_r. simpl. f_equal. f_equal. lia.
  - destruct (Z.leb_spec i i_end); [|nia].
    destruct (load_in_bounds U i) as [u Hu]; [lia|]. rewrite Hu.
    assert (Hadd : Int.add i i_step = i + i_step).
    { apply IntFacts.add_small. int_nia. }
    rewrite Hadd. unfold hits. rewrite filter_cons. fold (hits U val).
    destruct (u =? val) eqn:Eu.
    + apply Z.eqb_eq in Eu. subst u.
      rewrite decide_True by assumption.
      rewrite IntFacts.add_small by int_lia.
      rewrite IH; try lia; try nia.
      unfold hits. rewrite <- app_assoc. cbn [app length].
      rewrite Nat2Z.inj_succ. do 2 f_equal. lia.
    + apply Z.eqb_neq in Eu.
      rewrite decide_False by congruence.
      rewrite IH; try lia; try nia. reflexivity.
Qed.

Lemma find_loop_done i_end i_step fuel i nb_find ind_val :
  i_end < i ->
  find_loop (S fuel) U i_end i_step val i nb_find ind_val =
  Returned (nb_find, ind_val).
Proof. intros H. simpl. destruct (Z.leb_spec i i_end); [lia|reflexivity]. Qed.

(** [find] on a range that lies in the array and whose last increment
    does not overflow. *)
Lemma find_run i_start i_end i_step fuel :
  0 <= i_start <= i_end -> i_end < Z.of_nat (length U) ->
  0 < i_step -> i_end + i_step <= INT_MAX ->
  (Z.to_nat (strides i_start i_end i_step) < fuel)%nat ->
  find fuel U i_start i_end i_step val =
  Returned (Z.of_nat (length (hits U val (stepped i_start i_end i_step))),
            hits U val (stepped i_start i_end i_step)).
Proof.
  intros Hse Hlen Hst Hmax Hfuel. unfold find, stepped.
  pose proof (strides_bounds i_start i_end i_step Hst ltac:(lia))
    as (Hpos & Hlo & Hhi).
  assert (Hle : strides i_start i_end i_step <= i_end - i_start + 1) by nia.
  rewrite (find_loop_run i_end i_step
             (Z.to_nat (strides i_start i_end i_step)))
    by (unfold INT_MAX in *; lia || nia).
  reflexivity.
Qed.

End Find.

(** Both loops keep their result when given more fuel. *)
Lemma find_loop_more_fuel U i_end i_step val k : forall fuel i nb_find ind_val r,
  find_loop fuel U i_end i_step val i nb_find ind_val = r ->
  r <> OutOfFuel ->
  find_loop (fuel + k) U i_end i_step val i nb_find ind_val = r.
Proof.
  induction fuel as [|fuel IH]; intros i nb_find ind_val r Hr Hne; simpl in *.
  - congruence.
  - destruct (i <=? i_end); [|assumption].
    destruct (load U i) as [u|]; [|assumption].
    destruct (u =? val); apply IH; assumption.
Qed.

Lemma vect_loop_more_fuel table U i_end i_step val k :
  forall fuel i nb_find ind_val r,
  vect_loop fuel table U i_end i_step val i nb_find ind_val = r ->
  r <> OutOfFuel ->
  vect_loop (fuel + k) table U i_end i_step val i nb_find ind_val = r.
Proof.
  induction fuel as [|fuel IH]; intros i nb_find ind_val r Hr Hne; simpl in *.
  - congruence.
  - destruct (Int.add i 8 <? i_end); [|assumption].
    destruct (block_mask U i val) as [mask|]; [|assumption].
    destruct (mask =? 0); [apply IH; assumption|].
    destruct (block_room table nb_find mask) as [room|]; [|assumption].
    destruct (lanes_loop 8 room i mask nb_find ind_val) as [[nb' iv']|];
      [|assumption].
    apply IH; assumption.
Qed.

Lemma vect_find_more_fuel table U i_start i_end i_step val fuel k r :
  vect_find fuel table U i_start i_end i_step val = r ->
  r <> OutOfFuel ->
  vect_find (fuel + k) table U i_start i_end i_step val = r.
Proof.
  unfold vect_find. destruct (negb (Int.rem i_step 8 =? 0)); [auto|].
  destruct (vect_loop fuel table U i_end i_step val i_start 0 [])
    as [[[i nb] iv]| | |] eqn:E1; intros Hr Hne; try congruence.
  - rewrite (vect_loop_more_fuel _ _ _ _ _ k _ _ _ _ _ E1) by discriminate.
    destruct (find_loop fuel U i_end 1 val i nb iv) as [[nb' iv']| | |] eqn:E2;
      try congruence;
      rewrite (find_loop_more_fuel _ _ _ _ k _ _ _ _ _ E2) by discriminate;
      assumption.
  - rewrite (vect_loop_more_fuel _ _ _ _ _ k _ _ _ _ _ E1) by discriminate.
    assumption.
  - rewrite (vect_loop_more_fuel _ _ _ _ _ k _ _ _ _ _ E1) by discriminate.
    assumption.
Qed.

(** ** The vectorised scan *)

Section Lanes.

Lemma movemask_nonneg lanes : 0 <= movemask_ps lanes.
Proof. induction lanes as [|[] lanes IH]; simpl; lia. Qed.

Lemma movemask_zero lanes j : movemask_ps lanes = 0 -> lane_indices j lanes = [].
Proof.
  revert j. induction lanes as [|b lanes IH]; intros j H; simpl in *; [reflexivity|].
  pose proof (movemask_nonneg lanes).
  destruct b; simpl in H; [lia|]. simpl. apply IH. lia.
Qed.

Lemma movemask_no_lane lanes j : lane_indices j lanes = [] -> movemask_ps lanes = 0.
Proof.
  revert j. induction lanes as [|b lanes IH]; intros j H; [reflexivity|].
  cbn [lane_indices] in H. apply app_eq_nil in H as [Hb Hl].
  destruct b; [discriminate|]. simpl. rewrite (IH _ Hl). reflexivity.
Qed.

Lemma land_1 a : Z.land a 1 = a mod 2.
Proof. change 1 with (Z.ones 1). rewrite Z.land_ones by lia. reflexivity. Qed.

Lemma movemask_shift b lanes :
  Z.shiftr (movemask_ps (b :: lanes)) 1 = movemask_ps lanes.
Proof.
  rewrite Z.shiftr_div_pow2 by lia. simpl movemask_ps.
  change (2 ^ 1) with 2. destruct b; simpl Z.b2z.
  - rewrite Z.mul_comm, Z.div_add by lia. reflexivity.
  - rewrite Z.add_0_l, Z.mul_comm, Z.div_mul by lia. reflexivity.
Qed.

Lemma movemask_bit b lanes :
  Z.land (movemask_ps (b :: lanes)) 1 = Z.b2z b.
Proof.
  rewrite land_1. simpl movemask_ps. rewrite Z.mul_comm, Z.mod_add by lia.
  destruct b; reflexivity.
Qed.

Lemma length_lane_indices j lanes :
  (length (lane_indices j lanes) <= length lanes)%nat.
Proof.
  revert j. induction lanes as [|b lanes IH]; intros j; simpl; [lia|].
  specialize (IH (j + 1)). rewrite length_app. destruct b; simpl; lia.
Qed.

(** The inner loop turns the mask back into its lanes, in a room that
    holds them. *)
Lemma lanes_loop_run lanes : forall n room j nb_find ind_val,
  (length lanes <= n)%nat ->
  Int.in_range j -> j + Z.of_nat (length lanes) <= INT_MAX ->
  0 <= nb_find -> nb_find + Z.of_nat (length lanes) <= INT_MAX ->
  nb_find + Z.of_nat (length (lane_indices j lanes)) <= room ->
  lanes_loop n room j (movemask_ps lanes) nb_find ind_val =
  Some (nb_find + Z.of_nat (length (lane_indices j lanes)),
        ind_val ++ lane_indices j lanes).
Proof.
  induction lanes as [|b lanes IH];
    intros n room j nb_find ind_val Hn Hj Hjmax Hnb Hnbmax Hroom.
  - destruct n; simpl; rewrite app_nil_r, Z.add_0_r; reflexivity.
  - destruct n as [|n]; [simpl in Hn; lia|].
    cbn [length] in *. unfold lanes_loop; fold lanes_loop.
    destruct (Z.eqb_spec (movemask_ps (b :: lanes)) 0) as [E|E].
    { rewrite (movemask_zero _ _ E). simpl. rewrite app_nil_r, Z.add_0_r. reflexivity. }
    rewrite movemask_shift, movemask_bit.
    assert (Hadd : Int.add j 1 = j + 1) by (apply IntFacts.add_small; int_lia).
    rewrite Hadd.
    assert (Hj' : Int.in_range (j + 1)) by int_lia.
    destruct b; simpl Z.b2z; simpl Z.eqb; cbn [lane_indices app] in *.
    + cbn [length] in Hroom. unfold in_room.
      destruct (Z.leb_spec 0 nb_find); [|lia].
      destruct (Z.ltb_spec nb_find room); [|lia]. cbn [andb].
      rewrite IntFacts.add_small by int_lia.
      rewrite IH by (assumption || int_lia). cbn [length]. rewrite <- app_assoc.
      rewrite Nat2Z.inj_succ. cbn [app]. do 2 f_equal. lia.
    + rewrite IH by (assumption || int_lia). reflexivity.
Qed.

(** In a room that is too small for them, the loop writes past it. *)
Lemma lanes_loop_overrun lanes : forall n room j nb_find ind_val,
  (length lanes <= n)%nat ->
  Int.in_range j -> j + Z.of_nat (length lanes) <= INT_MAX ->
  0 <= nb_find -> nb_find + Z.of_nat (length lanes) <= INT_MAX ->
  nb_find <= room < nb_find + Z.of_nat (length (lane_indices j lanes)) ->
  lanes_loop n room j (movemask_ps lanes) nb_find ind_val = None.
Proof.
  induction lanes as [|b lanes IH];
    intros n room j nb_find ind_val Hn Hj Hjmax Hnb Hnbmax Hroom.
  - simpl in Hroom. lia.
  - destruct n as [|n]; [simpl in Hn; lia|].
    cbn [length] in *. unfold lanes_loop; fold lanes_loop.
    destruct (Z.eqb_spec (movemask_ps (b :: lanes)) 0) as [E|E].
    { rewrite (movemask_zero _ _ E) in Hroom. simpl in Hroom. lia. }
    rewrite movemask_shift, movemask_bit.
    assert (Hadd : Int.add j 1 = j + 1) by (apply IntFacts.add_small; int_lia).
    rewrite Hadd.
    assert (Hj' : Int.in_range (j + 1)) by int_lia.
    destruct b; simpl Z.b2z; simpl Z.eqb; cbn [lane_indices app] in *.
    + cbn [length] in Hroom. unfold in_room.
      destruct (Z.leb_spec 0 nb_find); [|lia].
      destruct (Z.ltb_spec nb_find room); [|reflexivity]. cbn [andb].
      rewrite IntFacts.add_small by int_lia.
      apply IH; try assumption; int_lia.
    + apply IH; try assumption; int_lia.
Qed.

Lemma load_lanes_length n : forall U i lanes,
  load_lanes n U i = Some lanes -> length lanes = n.
Proof.
  induction n as [|n IH]; intros U i lanes H; simpl in H.
  - inversion H. reflexivity.
  - destruct (load U i) as [u|]; simpl in H; [|discriminate].
    destruct (load_lanes n U (i + 1)) as [us|] eqn:E; simpl in H; [|discriminate].
    inversion H. simpl. f_equal. eapply IH, E.
Qed.

Lemma movemask_bound lanes :
  0 <= movemask_ps lanes < 2 ^ Z.of_nat (length lanes).
Proof.
  induction lanes as [|b lanes IH]; [simpl; lia|].
  cbn [length movemask_ps fold_right]. fold (movemask_ps lanes).
  rewrite Nat2Z.inj_succ, Z.pow_succ_r by lia.
  destruct b; simpl Z.b2z; lia.
Qed.

Lemma block_mask_bound U i val mask :
  block_mask U i val = Some mask -> 0 <= mask < 2 ^ 8.
Proof.
  unfold block_mask, loadu_ps.
  destruct (load_lanes 8 U i) as [lanes|] eqn:E; simpl; [|discriminate].
  intros H. inversion H; subst mask.
  pose proof (movemask_bound
    (map (fun u => cmp_eq_os (Int.bits u) (Int.bits val)) lanes)) as Hb.
  rewrite length_map, (load_lanes_length _ _ _ _ E) in Hb. exact Hb.
Qed.

Lemma load_lanes_in_bounds n : forall U i,
  0 <= i -> i + Z.of_nat n <= Z.of_nat (length U) ->
  exists lanes, load_lanes n U i = Some lanes.
Proof.
  induction n as [|n IH]; intros U i Hi Hlen; simpl.
  - eauto.
  - destruct (load_in_bounds U i) as [u Hu]; [lia|]. rewrite Hu. simpl.
    destruct (IH U (i + 1)) as [us Hus]; [lia|lia|]. rewrite Hus. simpl. eauto.
Qed.

(** The lanes that compare equal are the [lane_hits] of the block. *)
Lemma load_lanes_hits U val n : forall i lanes,
  load_lanes n U i = Some lanes ->
  lane_indices i (map (fun u => cmp_eq_os (Int.bits u) (Int.bits val)) lanes) =
  lane_hits U val (stepped_from n i 1).
Proof.
  induction n as [|n IH]; intros i lanes H; simpl in H.
  - inversion H. reflexivity.
  - destruct (load U i) as [u|] eqn:Eu; simpl in H; [|discriminate].
    destruct (load_lanes n U (i + 1)) as [us|] eqn:E; simpl in H; [|discriminate].
    inversion H; subst lanes. cbn [map lane_indices stepped_from].
    unfold lane_hits. rewrite filter_cons. fold (lane_hits U val).
    rewrite (IH _ _ E).
    assert (Hl : lane_eq U val i = cmp_eq_os (Int.bits u) (Int.bits val)).
    { unfold lane_eq. rewrite Eu. reflexivity. }
    destruct (cmp_eq_os (Int.bits u) (Int.bits val)).
    + rewrite decide_True by assumption. reflexivity.
    + rewrite decide_False by congruence. reflexivity.
Qed.

Lemma block_mask_fault U i val : load U i = None -> block_mask U i val = None.
Proof. intros H. unfold block_mask, loadu_ps. simpl. rewrite H. reflexivity. Qed.

End Lanes.


(** * count_ones and its table *)

Section CountOnes.

Lemma set_bits_shift n w : forall s,
  length (filter (fun b => Z.testbit n (Z.of_nat b) = true) (seq (S s) w)) =
  length (filter (fun b => Z.testbit (Z.shiftr n 1) (Z.of_nat b) = true) (seq s w)).
Proof.
  induction w as [|w IH]; intros s; [reflexivity|].
  cbn [seq]. rewrite !filter_cons.
  assert (Hbit : Z.testbit (Z.shiftr n 1) (Z.of_nat s) = Z.testbit n (Z.of_nat (S s))).
  { rewrite Z.shiftr_spec by lia. f_equal. lia. }
  rewrite Hbit.
  destruct (Z.testbit n (Z.of_nat (S s))).
  - rewrite !decide_True by reflexivity. cbn [length]. f_equal. apply IH.
  - rewrite !decide_False by discriminate. apply IH.
Qed.

Lemma set_bits_S w n :
  set_bits (S w) n =
  ((if Z.testbit n 0 then 1 else 0) + set_bits w (Z.shiftr n 1))%nat.
Proof.
  unfold set_bits. cbn [seq]. rewrite filter_cons.
  change (Z.of_nat 0) with 0.
  destruct (Z.testbit n 0).
  - rewrite decide_True by reflexivity. cbn [length].
    rewrite set_bits_shift. reflexivity.
  - rewrite decide_False by discriminate. apply set_bits_shift.
Qed.

Lemma set_bits_0 w : set_bits w 0 = 0%nat.
Proof.
  induction w as [|w IH]; [reflexivity|].
  rewrite set_bits_S, Z.shiftr_0_l, IH. reflexivity.
Qed.

Lemma set_bits_le w n : (set_bits w n <= w)%nat.
Proof.
  revert n. induction w as [|w IH]; intros n; [reflexivity|].
  rewrite set_bits_S. specialize (IH (Z.shiftr n 1)).
  destruct (Z.testbit n 0); lia.
Qed.

(** Bits past the width of [n] add nothing. *)
Lemma set_bits_small w : forall w' n,
  0 <= n < 2 ^ Z.of_nat w -> (w <= w')%nat -> set_bits w' n = set_bits w n.
Proof.
  induction w as [|w IH]; intros w' n Hn Hw.
  - assert (n = 0) by (simpl in Hn; lia). subst n. rewrite !set_bits_0. reflexivity.
  - destruct w' as [|w']; [lia|]. rewrite !set_bits_S. f_equal.
    apply IH; [|lia].
    rewrite Z.shiftr_div_pow2 by lia. change (2 ^ 1) with 2.
    rewrite Nat2Z.inj_succ, Z.pow_succ_r in Hn by lia.
    split; [apply Z.div_pos; lia|apply Z.div_lt_upper_bound; lia].
Qed.

Lemma testbit_0_land n : Z.testbit n 0 = negb (Z.land n 1 =? 0).
Proof.
  rewrite land_1, Z.bit0_odd, Zmod_odd.
  destruct (Z.odd n); reflexivity.
Qed.

(** The loop on an [n] of [w] bits. *)
Lemma count_ones_loop_run w : forall fuel n count,
  0 <= n < 2 ^ Z.of_nat w -> (w < fuel)%nat ->
  0 <= count -> count + Z.of_nat w <= INT_MAX ->
  count_ones_loop fuel n count = Returned (count + Z.of_nat (set_bits w n)).
Proof.
  induction w as [|w IH]; intros fuel n count Hn Hfuel Hc Hmax;
    (destruct fuel as [|fuel]; [lia|]); cbn [count_ones_loop].
  - assert (n = 0) by (change (2 ^ Z.of_nat 0) with 1 in Hn; lia). subst n.
    cbn [Z.eqb]. unfold set_bits. cbn [seq filter length]. f_equal. simpl. lia.
  - destruct (Z.eqb_spec n 0) as [->|Hne].
    { rewrite set_bits_0. f_equal. lia. }
    rewrite set_bits_S, testbit_0_land.
    assert (Hhalf : 0 <= Z.shiftr n 1 < 2 ^ Z.of_nat w).
    { rewrite Z.shiftr_div_pow2 by lia. change (2 ^ 1) with 2.
      rewrite Nat2Z.inj_succ, Z.pow_succ_r in Hn by lia.
      split; [apply Z.div_pos; lia|apply Z.div_lt_upper_bound; lia]. }
    destruct (Z.land n 1 =? 0); cbn [negb].
    + rewrite IH by lia. f_equal.
    + rewrite IntFacts.add_small by int_lia.
      rewrite IH by lia. f_equal. lia.
Qed.

(** The shifts never empty a negative [n]. *)
Lemma count_ones_loop_negative fuel : forall n count,
  n < 0 -> count_ones_loop fuel n count = OutOfFuel.
Proof.
  induction fuel as [|fuel IH]; intros n count Hn; [reflexivity|].
  cbn [count_ones_loop]. destruct (Z.eqb_spec n 0); [lia|].
  apply IH. apply Z.shiftr_neg. exact Hn.
Qed.

Lemma count_ones_byte fuel i :
  0 <= i < 256 -> (8 < fuel)%nat -> count_ones fuel i = Returned (ones i).
Proof.
  intros Hi Hfuel. unfold count_ones, ones.
  rewrite (count_ones_loop_run 8) by (int_lia || (change (2 ^ Z.of_nat 8) with 256; lia)).
  rewrite (set_bits_small 8 31) by (lia || (change (2 ^ Z.of_nat 8) with 256; lia)).
  reflexivity.
Qed.

Lemma count_ones_loop_more_fuel k : forall fuel n count r,
  count_ones_loop fuel n count = r -> r <> OutOfFuel ->
  count_ones_loop (fuel + k) n count = r.
Proof.
  induction fuel as [|fuel IH]; intros n count r Hr Hne; simpl in *.
  - congruence.
  - destruct (n =? 0); [assumption|]. apply IH; assumption.
Qed.

Lemma initialize_loop_more_fuel k : forall fuel i table r,
  initialize_loop fuel i table = r -> r <> OutOfFuel ->
  initialize_loop (fuel + k) i table = r.
Proof.
  induction fuel as [|fuel IH]; intros i table r Hr Hne; simpl in *.
  - congruence.
  - destruct (i <? 256); [|assumption]. unfold count_ones in *.
    destruct (count_ones_loop fuel i 0) as [c| | |] eqn:E; try congruence;
      rewrite (count_ones_loop_more_fuel k _ _ _ _ E) by discriminate;
      [apply IH|..]; assumption.
Qed.

(** The loop from cell [i] on, with [m] cells to go. *)
Lemma initialize_loop_run m : forall fuel i table,
  Z.of_nat m = 256 - i -> 0 <= i -> length table = 256%nat ->
  (m + 9 < fuel)%nat ->
  initialize_loop fuel i table =
  Returned (take (Z.to_nat i) table ++ (ones <$> seqZ i (Z.of_nat m))).
Proof.
  induction m as [|m IH]; intros fuel i table Hm Hi Hlen Hfuel;
    (destruct fuel as [|fuel]; [lia|]); cbn [initialize_loop].
  - destruct (Z.ltb_spec i 256); [lia|].
    change (Z.of_nat 0) with 0. cbn [seqZ]. rewrite seqZ_nil by lia.
    rewrite fmap_nil, app_nil_r, take_ge by lia. reflexivity.
  - destruct (Z.ltb_spec i 256); [|lia].
    rewrite count_ones_byte by lia.
    rewrite IntFacts.add_small by int_lia.
    rewrite IH by (rewrite ?length_insert; lia).
    f_equal. rewrite (seqZ_cons i) by lia. rewrite fmap_cons.
    replace (Z.to_nat (i + 1)) with (S (Z.to_nat i)) by lia.
    rewrite (take_S_r _ _ (ones i))
      by (apply list_lookup_insert_eq; lia).
    rewrite take_insert_ge by lia. rewrite <- app_assoc. cbn [app].
    replace (Z.succ i) with (i + 1) by lia.
    replace (Z.pred (Z.of_nat (S m))) with (Z.of_nat m) by lia. reflexivity.
Qed.

Lemma initialize_run fuel :
  (265 < fuel)%nat ->
  initialize_count_ones_table fuel = Returned (ones <$> seqZ 0 256).
Proof.
  intros Hfuel. unfold initialize_count_ones_table.
  rewrite (initialize_loop_run 256) by (reflexivity || lia).
  reflexivity.
Qed.

(** Whatever the fuel, a table that is handed back is the table of the
    numbers of ones. *)
Lemma initialize_returned fuel table :
  initialize_count_ones_table fuel = Returned table ->
  table = ones <$> seqZ 0 256.
Proof.
  intros H. unfold initialize_count_ones_table in H.
  apply (initialize_loop_more_fuel 266) in H; [|discriminate].
  fold (initialize_count_ones_table (fuel + 266)) in H.
  rewrite initialize_run in H by lia. congruence.
Qed.

Lemma lookup_ones_table i :
  0 <= i < 256 -> load (ones <$> seqZ 0 256) i = Some (ones i).
Proof.
  intros Hi. unfold load. destruct (Z.ltb_spec i 0); [lia|].
  rewrite list_lookup_fmap.
  rewrite (proj2 (lookup_seqZ 0 256 (Z.to_nat i) i)) by lia.
  reflexivity.
Qed.

(** The ones of a mask are the lanes that are set. *)
Lemma set_bits_movemask lanes : forall w j,
  (length lanes <= w)%nat ->
  set_bits w (movemask_ps lanes) = length (lane_indices j lanes).
Proof.
  induction lanes as [|b lanes IH]; intros w j Hw.
  - apply set_bits_0.
  - destruct w as [|w]; [simpl in Hw; lia|].
    rewrite set_bits_S, testbit_0_land, movemask_bit, movemask_shift.
    cbn [lane_indices]. rewrite length_app.
    rewrite (IH w (j + 1)) by (simpl in Hw; lia).
    destruct b; reflexivity.
Qed.

(** With the table of the numbers of ones, the room asked for a block is
    the room its lanes fill. *)
Lemma block_room_ones lanes j nb_find :
  (length lanes <= 8)%nat -> 0 <= nb_find -> nb_find + 8 <= INT_MAX ->
  block_room (ones <$> seqZ 0 256) nb_find (movemask_ps lanes) =
  Some (nb_find + Z.of_nat (length (lane_indices j lanes))).
Proof.
  intros Hlen Hnb Hmax.
  pose proof (movemask_bound lanes) as Hb.
  assert (Hb8 : 0 <= movemask_ps lanes < 256).
  { split; [lia|]. eapply Z.lt_le_trans; [apply Hb|].
    change 256 with (2 ^ 8). apply Z.pow_le_mono_r; lia. }
  unfold block_room. rewrite lookup_ones_table by lia. cbn [mbind option_bind].
  unfold ones.
  rewrite (set_bits_small 8 31)
    by (lia || (change (2 ^ Z.of_nat 8) with 256; lia)).
  rewrite (set_bits_movemask lanes 8 j) by lia.
  pose proof (length_lane_indices j lanes).
  rewrite IntFacts.add_small by int_lia. reflexivity.
Qed.

End CountOnes.

Section VectFind.

Variables (U : list Z) (val : Z).

Lemma lane_hits_app l1 l2 :
  lane_hits U val (l1 ++ l2) = lane_hits U val l1 ++ lane_hits U val l2.
Proof. apply filter_app. Qed.

Lemma length_lane_hits l : (length (lane_hits U val l) <= length l)%nat.
Proof. apply length_filter. Qed.

Lemma length_block_cells m i st : length (block_cells m i st) = (8 * m)%nat.
Proof.
  revert i. induction m as [|m IH]; intros i; [reflexivity|].
  cbn [block_cells]. rewrite length_app, length_stepped_from, IH. lia.
Qed.

Lemma block_cells_contiguous m : forall i,
  block_cells m i 8 = stepped_from (8 * m) i 1.
Proof.
  induction m as [|m IH]; intros i; [reflexivity|].
  cbn [block_cells]. rewrite IH.
  replace (8 * S m)%nat with (8 + 8 * m)%nat by lia.
  rewrite stepped_from_app. do 2 f_equal.
Qed.

Variable table : list Z.
Hypothesis table_filled : table = ones <$> seqZ 0 256.

(** One block: the mask is computed, the room is asked for and the mask
    is decoded in it. *)
Lemma vect_loop_block fuel i_end i_step i nb_find ind_val :
  0 <= i -> i + 8 <= Z.of_nat (length U) -> i + 8 <= INT_MAX ->
  i + 8 < i_end ->
  0 <= nb_find -> nb_find + 8 <= INT_MAX ->
  vect_loop (S fuel) table U i_end i_step val i nb_find ind_val =
  vect_loop fuel table U i_end i_step val (Int.add i i_step)
    (nb_find + Z.of_nat (length (lane_hits U val (stepped_from 8 i 1))))
    (ind_val ++ lane_hits U val (stepped_from 8 i 1)).
Proof.
  intros Hi Hlen Hmax Hblk Hnb Hnbmax. cbn [vect_loop].
  rewrite IntFacts.add_small by int_lia.
  destruct (Z.ltb_spec (i + 8) i_end); [|lia].
  destruct (load_lanes_in_bounds 8 U i) as [lanes Hl]; [lia|lia|].
  pose proof (load_lanes_length _ _ _ _ Hl) as Hlen8.
  unfold block_mask, loadu_ps. rewrite Hl. cbn [mbind option_bind].
  set (bs := map (fun u => cmp_eq_os (Int.bits u) (Int.bits val)) lanes).
  assert (Hbs : length bs = 8%nat) by (subst bs; rewrite length_map; exact Hlen8).
  rewrite <- (load_lanes_hits U val 8 i lanes Hl). fold bs.
  destruct (Z.eqb_spec (movemask_ps bs) 0) as [E|E].
  - rewrite (movemask_zero _ i E). cbn [length]. rewrite app_nil_r, Z.add_0_r.
    reflexivity.
  - rewrite table_filled, (block_room_ones bs i) by (rewrite ?Hbs; lia).
    rewrite lanes_loop_run; rewrite ?Hbs; try int_lia. reflexivity.
Qed.

(** The first loop over [m] blocks. *)
Lemma vect_loop_run i_end i_step m : forall fuel i nb_find ind_val,
  0 < i_step -> 0 <= i ->
  ((0 < m)%nat -> i + (Z.of_nat m - 1) * i_step + 8 < i_end) ->
  i_end <= i + Z.of_nat m * i_step + 8 ->
  i + Z.of_nat m * i_step + 8 <= INT_MAX ->
  i_end < Z.of_nat (length U) ->
  0 <= nb_find -> nb_find + 8 * Z.of_nat m <= INT_MAX ->
  (m < fuel)%nat ->
  vect_loop fuel table U i_end i_step val i nb_find ind_val =
  Returned (i + Z.of_nat m * i_step,
            nb_find + Z.of_nat (length (lane_hits U val (block_cells m i i_step))),
            ind_val ++ lane_hits U val (block_cells m i i_step)).
Proof.
  induction m as [|m IH];
    intros fuel i nb_find ind_val Hst Hi Hlo Hhi Hmax Hlen Hnb Hnbmax Hfuel;
    (destruct fuel as [|fuel]; [lia|]).
  - cbn [vect_loop]. rewrite IntFacts.add_small by int_lia.
    destruct (Z.ltb_spec (i + 8) i_end); [lia|].
    cbn [block_cells]. unfold lane_hits. rewrite filter_nil, app_nil_r.
    do 3 f_equal; simpl; lia.
  - assert (Hblk : i + 8 < i_end) by (specialize (Hlo ltac:(lia)); nia).
    rewrite vect_loop_block by int_lia.
    pose proof (length_lane_hits (stepped_from 8 i 1)) as Hle.
    rewrite length_stepped_from in Hle.
    rewrite IntFacts.add_small by int_nia.
    rewrite IH; try lia; try int_nia.
    cbn [block_cells]. rewrite lane_hits_app, length_app, app_assoc.
    do 3 f_equal; lia.
Qed.

(** [vect_find] with a step it accepts: the lanes that compare equal in
    the blocks, then the cells of the remainder that hold [val]. *)
Lemma vect_find_run i_start i_end i_step fuel :
  0 <= i_start -> i_end < Z.of_nat (length U) ->
  0 < i_step -> Int.rem i_step 8 = 0 ->
  i_end + i_step <= INT_MAX -> i_start + 8 <= INT_MAX ->
  let m := Z.to_nat (blocks i_start i_end i_step) in
  let i := i_start + Z.of_nat m * i_step in
  let l := lane_hits U val (block_cells m i_start i_step) ++
           hits U val (stepped_from (Z.to_nat (i_end - i + 1)) i 1) in
  (m < fuel)%nat -> (Z.to_nat (i_end - i + 1) < fuel)%nat ->
  vect_find fuel table U i_start i_end i_step val =
  Returned (Z.of_nat (length l), Some l).
Proof.
  intros Hs Hlen Hst Hrem Hmax Hs8 m i l Hfm Hft.
  assert (Hst8 : 8 <= i_step).
  { unfold Int.rem in Hrem. apply Z.rem_divide in Hrem; [|lia].
    destruct Hrem as [q Hq]. lia. }
  unfold vect_find. rewrite Hrem. cbn [Z.eqb negb].
  assert (Hm : (0 < m)%nat ->
               i_start + (Z.of_nat m - 1) * i_step + 8 < i_end /\
               i_end <= i_start + Z.of_nat m * i_step + 8).
  { intros Hpos. subst m. unfold blocks in *.
    destruct (Z_le_gt_dec (i_start + 9) i_end) as [Hle|Hgt].
    - pose proof (strides_bounds (i_start + 9) i_end i_step Hst Hle).
      rewrite Z2Nat.id by lia. lia.
    - pose proof (strides_empty (i_start + 9) i_end i_step Hst ltac:(lia)). lia. }
  assert (Hm0 : m = 0%nat -> i_end <= i_start + 8).
  { intros H0. subst m. unfold blocks in *.
    destruct (Z_le_gt_dec (i_start + 9) i_end) as [Hle|Hgt]; [|lia].
    pose proof (strides_bounds (i_start + 9) i_end i_step Hst Hle). lia. }
  assert (Hhi : i_end <= i_start + Z.of_nat m * i_step + 8).
  { destruct m as [|m']; [specialize (Hm0 eq_refl); lia|].
    apply Hm. lia. }
  assert (Hmmax : i_start + Z.of_nat m * i_step + 8 <= INT_MAX).
  { destruct m as [|m']; [int_lia|].
    destruct (Hm ltac:(lia)) as [Hlo _]. int_nia. }
  rewrite (vect_loop_run i_end i_step m); try lia; try int_nia.
  fold i. cbn [Z.add].
  pose proof (length_lane_hits (block_cells m i_start i_step)) as Hblk.
  rewrite length_block_cells in Hblk.
  assert (Hcells : 0 < Z.of_nat m ->
                   8 * Z.of_nat m + i_end - i + 1 <= i_end - i_start + 1)
    by (subst i; nia).
  destruct (Z_le_gt_dec i i_end) as [Hie|Hie].
  - rewrite (find_loop_run U val i_end 1 (Z.to_nat (i_end - i + 1)));
      try lia; try int_nia.
    subst l. rewrite length_app, Nat2Z.inj_add. reflexivity.
  - destruct fuel as [|fuel]; [lia|].
    rewrite find_loop_done by lia.
    subst l. replace (Z.to_nat (i_end - i + 1)) with 0%nat by lia.
    cbn [stepped_from]. unfold hits. rewrite filter_nil, app_nil_r.
    rewrite Z.add_0_l. reflexivity.
Qed.

End VectFind.

(** ** When the AVX comparison is the comparison of integers *)

Section Agreement.

Lemma bits_eqb u val :
  Int.in_range u -> Int.in_range val ->
  (Int.bits u =? Int.bits val) = (u =? val).
Proof.
  intros Hu Hv. destruct (Z.eqb_spec u val) as [->|Hne].
  - apply Z.eqb_refl.
  - apply Z.eqb_neq. intros H. apply Hne, IntFacts.bits_inj; assumption.
Qed.

Lemma ordinary_agree U val :
  Forall Int.in_range U -> Int.in_range val -> special val = false ->
  lanes_agree U val.
Proof.
  intros HU Hv Hs. unfold lanes_agree. eapply Forall_impl; [exact HU|].
  intros u Hu. simpl. unfold special in Hs.
  apply orb_false_iff in Hs as [Hnan Hzero].
  unfold cmp_eq_os. rewrite Hnan, Hzero, andb_false_r, orb_false_r, andb_true_r.
  rewrite bits_eqb by assumption.
  destruct (Z.eqb_spec u val) as [->|Hne].
  - rewrite Hnan. reflexivity.
  - apply andb_false_r.
Qed.

Lemma is_zero_bits u :
  Int.in_range u -> is_zero (Int.bits u) = true -> u = 0 \/ u = INT_MIN.
Proof.
  unfold is_zero, Int.bits. intros Hu H. apply Z.eqb_eq in H.
  change 2147483647 with (Z.ones 31) in H.
  rewrite Z.land_ones in H by lia.
  rewrite Z.mod_mod_divide in H by (exists 2; reflexivity).
  apply Z.mod_divide in H; [|lia]. destruct H as [q Hq]. int_lia.
Qed.

Lemma zero_agree U :
  Forall (fun u => Int.in_range u /\ u <> INT_MIN) U -> lanes_agree U 0.
Proof.
  intros HU. unfold lanes_agree. eapply Forall_impl; [exact HU|].
  intros u [Hu Hmin]. simpl.
  destruct (Z.eqb_spec u 0) as [->|Hne]; [reflexivity|].
  unfold cmp_eq_os.
  destruct (is_zero (Int.bits u)) eqn:Ez.
  { apply is_zero_bits in Ez; [tauto|assumption]. }
  rewrite (bits_eqb u 0) by (assumption || int_lia).
  destruct (Z.eqb_spec u 0); [contradiction|].
  simpl. apply andb_false_r.
Qed.

Lemma lane_eq_agree U val j :
  lanes_agree U val -> lane_eq U val j = true <-> load U j = Some val.
Proof.
  intros Hag. unfold lane_eq.
  destruct (load U j) as [u|] eqn:E; [|split; discriminate].
  apply load_elem_of in E.
  unfold lanes_agree in Hag. rewrite Forall_forall in Hag.
  rewrite (Hag u E). split.
  - intros H. apply Z.eqb_eq in H. congruence.
  - intros H. inversion H. apply Z.eqb_refl.
Qed.

Lemma lane_hits_agree U val l :
  lanes_agree U val -> lane_hits U val l = hits U val l.
Proof.
  intros Hag. unfold lane_hits, hits. apply list_filter_iff. intros j.
  apply lane_eq_agree, Hag.
Qed.

End Agreement.

(** ** Reads stay inside the array *)

Section Bounds.

Variables (U : list Z) (val : Z).
Variables (i_start i_end i_step : Z).
Hypothesis start_nonneg : 0 <= i_start.
Hypothesis end_in_array : i_end < Z.of_nat (length U).
Hypothesis step_pos : 0 < i_step.
Hypothesis step_fits : i_end + i_step <= INT_MAX.

Lemma strides_le :
  (Z.to_nat (strides i_start i_end i_step) <= Z.to_nat (i_end - i_start + 1))%nat.
Proof.
  destruct (Z_le_gt_dec i_start i_end) as [Hle|Hgt].
  - pose proof (strides_bounds i_start i_end i_step step_pos Hle). nia.
  - pose proof (strides_empty i_start i_end i_step step_pos ltac:(lia)). lia.
Qed.

Lemma find_returns fuel :
  (Z.to_nat (i_end - i_start + 1) < fuel)%nat ->
  exists r, find fuel U i_start i_end i_step val = Returned r.
Proof.
  intros Hfuel. pose proof strides_le as Hle.
  destruct (Z_le_gt_dec i_start i_end) as [Hse|Hse].
  - eexists. apply find_run; try assumption; lia.
  - destruct fuel as [|fuel]; [lia|]. eexists.
    unfold find. apply find_loop_done. lia.
Qed.

Lemma vect_find_returns table fuel :
  table = ones <$> seqZ 0 256 ->
  i_start <= i_end \/ i_start + 8 <= INT_MAX ->
  (Z.to_nat (i_end - i_start + 1) < fuel)%nat ->
  exists r, vect_find fuel table U i_start i_end i_step val = Returned r.
Proof.
  intros Htable Hor Hfuel.
  destruct (Z.eq_dec (Int.rem i_step 8) 0) as [Hrem|Hrem].
  - assert (Hst8 : 8 <= i_step).
    { unfold Int.rem in Hrem. apply Z.rem_divide in Hrem; [|lia].
      destruct Hrem as [q Hq]. lia. }
    assert (Hm : Z.of_nat (Z.to_nat (blocks i_start i_end i_step))
                 <= Z.max 0 (i_end - i_start)).
    { unfold blocks.
      destruct (Z_le_gt_dec (i_start + 9) i_end) as [Hle|Hgt].
      - pose proof (strides_bounds (i_start + 9) i_end i_step step_pos Hle). nia.
      - pose proof (strides_empty (i_start + 9) i_end i_step step_pos ltac:(lia)).
        replace (Z.to_nat (strides (i_start + 9) i_end i_step)) with 0%nat by lia.
        lia. }
    eexists. apply vect_find_run; try assumption; try int_lia; try nia.
  - eexists. unfold vect_find.
    destruct (Z.eqb_spec (Int.rem i_step 8) 0); [contradiction|]. reflexivity.
Qed.

Lemma find_no_fault fuel : find fuel U i_start i_end i_step val <> Crash.
Proof.
  intros H.
  apply (find_loop_more_fuel _ _ _ _ (S (Z.to_nat (i_end - i_start + 1)))) in H;
    [|discriminate].
  destruct (find_returns (fuel + S (Z.to_nat (i_end - i_start + 1)))) as [r Hr];
    [lia|].
  unfold find in Hr. congruence.
Qed.

(** With the table filled, [vect_find] neither reads outside of the array
    nor writes outside of its buffer. *)
Lemma vect_find_no_fault table fuel :
  table = ones <$> seqZ 0 256 ->
  i_start <= i_end \/ i_start + 8 <= INT_MAX ->
  vect_find fuel table U i_start i_end i_step val <> Crash /\
  vect_find fuel table U i_start i_end i_step val <> Overrun.
Proof.
  intros Htable Hor.
  destruct (vect_find_returns table
              (fuel + S (Z.to_nat (i_end - i_start + 1))) Htable Hor)
    as [r Hr]; [lia|].
  split; intros H;
    apply (vect_find_more_fuel _ _ _ _ _ _ _ (S (Z.to_nat (i_end - i_start + 1))))
      in H; try discriminate; congruence.
Qed.

(** Whatever the table holds in its 256 cells, no read is outside of the
    array. *)
Lemma find_loop_no_read_fault fuel : forall step i nb_find ind_val,
  0 < step -> i_end + step <= INT_MAX -> 0 <= i ->
  find_loop fuel U i_end step val i nb_find ind_val <> Crash.
Proof.
  induction fuel as [|fuel IH]; intros step i nb_find ind_val Hst Hmax Hi;
    cbn [find_loop]; [discriminate|].
  destruct (Z.leb_spec i i_end); [|discriminate].
  destruct (load_in_bounds U i) as [u Hu]; [lia|]. rewrite Hu.
  rewrite IntFacts.add_small by int_lia.
  destruct (u =? val); apply IH; lia.
Qed.

Lemma vect_loop_no_read_fault table fuel : forall i nb_find ind_val,
  length table = 256%nat -> 8 <= i_step ->
  0 <= i -> i + 8 <= INT_MAX ->
  match vect_loop fuel table U i_end i_step val i nb_find ind_val with
  | Crash => False
  | Returned (i', _, _) => 0 <= i'
  | _ => True
  end.
Proof.
  intros i nb_find ind_val Htable Hst8. revert i nb_find ind_val.
  induction fuel as [|fuel IH]; intros i nb_find ind_val Hi Hmax;
    cbn [vect_loop]; [exact I|].
  rewrite IntFacts.add_small by int_lia.
  destruct (Z.ltb_spec (i + 8) i_end); [|exact Hi].
  destruct (load_lanes_in_bounds 8 U i) as [lanes Hl]; [lia|lia|].
  destruct (block_mask U i val) as [mask|] eqn:Hm;
    [|unfold block_mask, loadu_ps in Hm; rewrite Hl in Hm; discriminate].
  pose proof (block_mask_bound _ _ _ _ Hm) as Hb. change (2 ^ 8) with 256 in Hb.
  assert (Hnext : Int.add i i_step = i + i_step)
    by (apply IntFacts.add_small; int_lia).
  rewrite Hnext.
  destruct (mask =? 0); [apply IH; int_lia|].
  destruct (block_room table nb_find mask) as [room|] eqn:Hroom.
  - destruct (lanes_loop 8 room i mask nb_find ind_val) as [[nb' iv']|];
      [apply IH; int_lia|exact I].
  - unfold block_room, load in Hroom.
    destruct (Z.ltb_spec mask 0); [lia|].
    destruct (lookup_lt_is_Some_2 table (Z.to_nat mask)) as [c Hc]; [lia|].
    rewrite Hc in Hroom. discriminate.
Qed.

Lemma vect_find_no_read_fault table fuel :
  length table = 256%nat ->
  i_start <= i_end \/ i_start + 8 <= INT_MAX ->
  vect_find fuel table U i_start i_end i_step val <> Crash.
Proof.
  intros Htable Hor. unfold vect_find.
  destruct (Z.eqb_spec (Int.rem i_step 8) 0) as [Hrem|Hrem]; [|discriminate].
  cbn [negb].
  assert (Hst8 : 8 <= i_step).
  { unfold Int.rem in Hrem. apply Z.rem_divide in Hrem; [|lia].
    destruct Hrem as [q Hq]. lia. }
  pose proof (vect_loop_no_read_fault table fuel i_start 0 [] Htable Hst8
                start_nonneg ltac:(int_lia)) as Hloop.
  destruct (vect_loop fuel table U i_end i_step val i_start 0 [])
    as [[[i nb] iv]| | |]; try discriminate; [|contradiction].
  pose proof (find_loop_no_read_fault fuel 1 i nb iv ltac:(lia) ltac:(int_lia) Hloop).
  destruct (find_loop fuel U i_end 1 val i nb iv) as [[nb' iv']| | |];
    congruence.
Qed.

End Bounds.

(** ** The segments handed to the threads *)

Section Planner.

Variables (nb i_start i_end i_step : Z).
Hypothesis nb_pos : 0 < nb.
Hypothesis range_ok : 0 <= i_start <= i_end.
Hypothesis step_pos : 0 < i_step.
Hypothesis step_fits : i_end + i_step <= INT_MAX.
Hypothesis product_fits : nb * strides i_start i_end i_step <= INT_MAX.

Local Abbreviation M := (strides i_start i_end i_step).
Local Abbreviation cut_at := (cut nb i_start i_end i_step).
Local Abbreviation seg_of := (exact_segment nb i_start i_end i_step).

Lemma M_bounds :
  0 < M /\ i_start + (M - 1) * i_step <= i_end < i_start + M * i_step.
Proof. apply strides_bounds; lia. Qed.

Lemma cut_0 : cut_at 0 = 0.
Proof. unfold cut. rewrite Z.mul_0_l. apply Z.div_0_l. lia. Qed.

Lemma cut_nb : cut_at nb = M.
Proof. unfold cut. rewrite Z.mul_comm. apply Z.div_mul. lia. Qed.

Lemma cut_mono t t' : 0 <= t <= t' -> cut_at t <= cut_at t'.
Proof.
  intros H. unfold cut. pose proof M_bounds.
  apply Z.div_le_mono; [lia|nia].
Qed.

Lemma cut_range t : 0 <= t <= nb -> 0 <= cut_at t <= M.
Proof.
  intros H. rewrite <- cut_0 at 1. rewrite <- cut_nb.
  split; apply cut_mono; lia.
Qed.

(** While the products fit in an [int] the segment is the mathematical
    one. *)
Lemma segment_exact t :
  0 <= t < nb -> segment nb i_start i_end i_step t = Some (seg_of t).
Proof.
  intros Ht. pose proof M_bounds as (HM & Hlo & Hhi).
  pose proof (cut_range t ltac:(lia)) as Hc.
  pose proof (cut_range (t + 1) ltac:(lia)) as Hc'.
  pose proof (cut_mono t (t + 1) ltac:(lia)) as Hcc.
  unfold exact_segment, cut in *. unfold segment.
  rewrite IntFacts.sub_small by int_lia.
  rewrite IntFacts.div_pos by lia. simpl mbind.
  assert (HMle : M <= INT_MAX) by int_nia.
  rewrite (IntFacts.add_small t 1) by int_nia.
  rewrite (IntFacts.add_small _ 1) by (unfold strides in *; int_lia).
  change ((i_end - i_start) / i_step + 1) with M.
  rewrite !IntFacts.mul_small by int_nia.
  rewrite !IntFacts.div_pos by nia. simpl mbind.
  rewrite !IntFacts.mul_small by int_nia.
  rewrite !IntFacts.add_small by int_nia.
  rewrite IntFacts.sub_small by int_nia.
  do 2 f_equal; lia.
Qed.

Lemma mapM_exact {A B} (f : A -> option B) (g : A -> B) (l : list A) :
  (forall x, x ∈ l -> f x = Some (g x)) -> mapM f l = Some (g <$> l).
Proof.
  induction l as [|x l IH]; intros H; [reflexivity|].
  simpl. rewrite (H x) by (left; reflexivity). simpl.
  rewrite IH by (intros y Hy; apply H; right; exact Hy). reflexivity.
Qed.

Lemma segments_exact :
  segments nb i_start i_end i_step = Some (seg_of <$> seqZ 0 nb).
Proof.
  unfold segments. apply mapM_exact. intros t Ht.
  apply elem_of_seqZ in Ht. apply segment_exact. lia.
Qed.

(** The stepped indices of segment [t] are the strides
    [cut t .. cut (t + 1) - 1]. *)
Lemma stepped_segment t :
  0 <= t < nb ->
  segment_indices i_step (seg_of t) =
  stepped_from (Z.to_nat (cut_at (t + 1) - cut_at t))
    (i_start + cut_at t * i_step) i_step.
Proof.
  intros Ht. pose proof (cut_mono t (t + 1) ltac:(lia)) as Hcc.
  unfold segment_indices, exact_segment, stepped. cbn [fst snd].
  f_equal. f_equal. unfold strides at 1.
  replace (i_start + cut_at (t + 1) * i_step - 1 - (i_start + cut_at t * i_step))
    with ((cut_at (t + 1) - cut_at t - 1) * i_step + (i_step - 1)) by lia.
  rewrite Z.div_add_l by lia. rewrite Z.div_small by lia. lia.
Qed.

Lemma elem_of_segment t i :
  0 <= t < nb ->
  i ∈ segment_indices i_step (seg_of t) <->
  exists j, cut_at t <= j < cut_at (t + 1) /\ i = i_start + j * i_step.
Proof.
  intros Ht. rewrite stepped_segment by assumption.
  rewrite elem_of_stepped_from.
  pose proof (cut_mono t (t + 1) ltac:(lia)) as Hcc. split.
  - intros (j & Hj & ->). exists (cut_at t + Z.of_nat j). split; lia.
  - intros (j & Hj & ->). exists (Z.to_nat (j - cut_at t)). split; [lia|].
    rewrite Z2Nat.id by lia. lia.
Qed.

(** The segments of the first [n] threads cover the first [cut n]
    strides, in order. *)
Lemma concat_segments (n : nat) :
  Z.of_nat n <= nb ->
  concat (segment_indices i_step <$> (seg_of <$> seqZ 0 (Z.of_nat n))) =
  stepped_from (Z.to_nat (cut_at (Z.of_nat n))) i_start i_step.
Proof.
  induction n as [|n IH]; intros Hn.
  - change (Z.of_nat 0) with 0. rewrite cut_0. reflexivity.
  - rewrite seqZ_S, !fmap_app, concat_app, IH by lia.
    simpl. rewrite app_nil_r. rewrite Z.add_0_l.
    rewrite stepped_segment by lia.
    pose proof (cut_range (Z.of_nat n) ltac:(lia)) as Hc.
    pose proof (cut_mono (Z.of_nat n) (Z.of_nat n + 1) ltac:(lia)) as Hcc.
    replace (Z.of_nat (S n)) with (Z.of_nat n + 1) by lia.
    replace (Z.to_nat (cut_at (Z.of_nat n + 1)))
      with (Z.to_nat (cut_at (Z.of_nat n)) +
            Z.to_nat (cut_at (Z.of_nat n + 1) - cut_at (Z.of_nat n)))%nat by lia.
    rewrite stepped_from_app. do 2 f_equal. lia.
Qed.

Lemma segments_cover :
  concat (segment_indices i_step <$> (seg_of <$> seqZ 0 nb)) =
  stepped i_start i_end i_step.
Proof.
  pose proof (concat_segments (Z.to_nat nb)) as H.
  rewrite !Z2Nat.id in H by lia. rewrite H by lia.
  rewrite cut_nb. reflexivity.
Qed.

Lemma segments_disjoint t t' i :
  0 <= t < nb -> 0 <= t' < nb -> t <> t' ->
  i ∈ segment_indices i_step (seg_of t) ->
  i ∉ segment_indices i_step (seg_of t').
Proof.
  intros Ht Ht' Hne Hi Hi'.
  apply elem_of_segment in Hi as (j & Hj & ->); [|assumption].
  apply elem_of_segment in Hi' as (j' & Hj' & Heq); [|assumption].
  assert (j = j') by nia. subst j'.
  destruct (Z_lt_ge_dec t t') as [Hlt|Hge].
  - pose proof (cut_mono (t + 1) t' ltac:(lia)). lia.
  - pose proof (cut_mono (t' + 1) t ltac:(lia)). lia.
Qed.

(** With no more strides than threads a segment holds one stride or
    none. *)
Lemma cut_step t : M <= nb -> 0 <= t -> cut_at (t + 1) <= cut_at t + 1.
Proof.
  intros HM Ht. unfold cut. pose proof M_bounds as [HM0 _].
  set (m := M) in *.
  replace ((t + 1) * m) with (t * m + m) by lia.
  transitivity ((t * m + 1 * nb) / nb).
  - apply Z.div_le_mono; [lia|]. lia.
  - rewrite Z.div_add by lia. lia.
Qed.

Lemma empty_exact_segment t :
  0 <= t < nb ->
  empty_segment (seg_of t) <-> cut_at (t + 1) = cut_at t.
Proof.
  intros Ht. unfold empty_segment, exact_segment. cbn [fst snd].
  pose proof (cut_mono t (t + 1) ltac:(lia)). split; [nia|]. intros ->. lia.
Qed.

Lemma count_empty_segments (n : nat) :
  M <= nb -> Z.of_nat n <= nb ->
  Z.of_nat (length (filter empty_segment (seg_of <$> seqZ 0 (Z.of_nat n)))) =
  Z.of_nat n - cut_at (Z.of_nat n).
Proof.
  intros HM. induction n as [|n IH]; intros Hn.
  - change (Z.of_nat 0) with 0. rewrite cut_0. reflexivity.
  - rewrite seqZ_S, fmap_app, filter_app, length_app, Nat2Z.inj_add, IH by lia.
    simpl fmap. rewrite Z.add_0_l.
    pose proof (cut_step (Z.of_nat n) HM ltac:(lia)) as Hstep.
    pose proof (cut_mono (Z.of_nat n) (Z.of_nat n + 1) ltac:(lia)) as Hcc.
    pose proof (empty_exact_segment (Z.of_nat n) ltac:(lia)) as Hemp.
    replace (Z.of_nat (S n)) with (Z.of_nat n + 1) by lia.
    rewrite filter_cons, filter_nil. destruct (decide _) as [He|He]; simpl length.
    + apply Hemp in He. lia.
    + assert (cut_at (Z.of_nat n + 1) <> cut_at (Z.of_nat n)) by tauto. lia.
Qed.

Lemma surplus_segments_empty :
  M <= nb ->
  Z.of_nat (length (filter empty_segment (seg_of <$> seqZ 0 nb))) = nb - M.
Proof.
  intros HM. pose proof (count_empty_segments (Z.to_nat nb) HM) as H.
  rewrite !Z2Nat.id in H by lia. rewrite H by lia. rewrite cut_nb. reflexivity.
Qed.

End Planner.

(** ** One step of a worker thread *)

Section WorkerStep.

Lemma thread_step_effect g w g' w' :
  thread_step g w = (g', w') -> step_effect g g' w w'.
Proof.
  unfold thread_step, scalar_thread_function, vect_thread_function,
    record_hit, goto, step_effect.
  intros H.
  destruct (at_pc w); repeat case_match; inversion H; subst; simpl;
    repeat split; eauto.
Qed.

Lemma aligned_next d i :
  segment_ok d -> aligned d i -> i <= thread_data.i_end d ->
  aligned d (i + thread_data.i_step d) /\
  i + thread_data.i_step d <= thread_data.i_end d + 1.
Proof.
  intros (Hlo & Hst & (m & Hm & Hlen) & Hmax) (q & Hq & ->) Hi. split.
  - exists (q + 1). split; lia.
  - assert (q < m) by nia. nia.
Qed.

Lemma aligned_ge d i : segment_ok d -> aligned d i -> thread_data.i_start d <= i.
Proof. intros (_ & Hst & _) (q & Hq & ->). nia. Qed.

Ltac worker_ok_done :=
  cbn [data ind_val at_pc reach pc_ok length] in *;
  repeat split; try assumption; try tauto; try lia.

(** A step keeps the invariant of the thread; the counter does not
    overflow when a hit is recorded. *)
Lemma thread_step_ok g w g' w' n :
  segment_ok (data w) -> worker_ok w n -> thread_step g w = (g', w') ->
  (ind_val w' = ind_val w /\ nb_find_thread g' = nb_find_thread g /\
   worker_ok w' n) \/
  (exists x, ind_val w' = ind_val w ++ [x] /\
     nb_find_thread g' =
       alter (fun n => Int.add n 1) (thread_data.nb_find (data w))
         (nb_find_thread g) /\
     Int.add n 1 = n + 1 /\ worker_ok w' (n + 1)).
Proof.
  intros Hseg (Hn & Hle & Hreach & Hpc) Hstep.
  pose proof Hseg as (Hlo & Hst & (m & Hm & Hlen) & Hmax).
  destruct w as [d buf p]. cbn [data ind_val at_pc] in *.
  unfold thread_step, scalar_thread_function, vect_thread_function,
    record_hit, goto in Hstep. cbn [data ind_val at_pc] in Hstep.
  assert (Hadd : Int.add n 1 = n + 1 \/ thread_data.i_end d + 1 <= reach d p).
  { destruct (Z_le_gt_dec (thread_data.i_end d + 1) (reach d p)); [auto|].
    left. apply IntFacts.add_small. int_lia. }
  unfold worker_ok. cbn [data ind_val at_pc].
  destruct p as [i|i|i|i|i j mask|i| |]; cbn [reach pc_ok] in *.
  - (* ScalarTest *)
    destruct (Z.leb_spec i (thread_data.i_end d));
      [destruct (stop_threads g)|]; inversion Hstep; subst; left;
      worker_ok_done.
  - (* ScalarBody *)
    destruct Hpc as [Hal Hi].
    destruct (aligned_next d i Hseg Hal Hi) as [Hal' Hi'].
    assert (Hx1 : Int.add i (thread_data.i_step d) = i + thread_data.i_step d)
      by (apply IntFacts.add_small; int_lia).
    rewrite Hx1 in Hstep.
    destruct (load (U_threads g) i) as [u|]; [destruct (u =? val_threads g)|];
      inversion Hstep; subst.
    + right. exists i. cbn [data ind_val at_pc]. rewrite length_app.
      destruct Hadd as [Hadd|]; [|lia]. worker_ok_done.
    + left. worker_ok_done.
    + left. worker_ok_done.
  - (* VectTest *)
    destruct Hpc as (Hst8 & Hal & Hi).
    pose proof (aligned_ge d i Hseg Hal).
    assert (Hx2 : Int.add i 8 = i + 8)
      by (apply IntFacts.add_small; int_lia).
    rewrite Hx2 in Hstep.
    destruct (Z.ltb_spec (i + 8) (thread_data.i_end d));
      [destruct (stop_threads g)|]; inversion Hstep; subst; left;
      worker_ok_done.
  - (* VectBlock *)
    destruct Hpc as (Hst8 & Hal & Hi).
    destruct (block_mask (U_threads g) i (val_threads g)) as [mask|] eqn:E;
      inversion Hstep; subst; left.
    + apply block_mask_bound in E. worker_ok_done.
      replace (i + 8 - i) with 8 by lia. lia.
    + worker_ok_done.
  - (* VectLane *)
    destruct Hpc as (Hst8 & Hal & Hi & Hj & Hmask).
    destruct (aligned_next d i Hseg Hal ltac:(lia)) as [Hal' Hi'].
    destruct (Z.eqb_spec mask 0) as [->|Hne].
    { assert (Hx3 : Int.add i (thread_data.i_step d) = i + thread_data.i_step d)
      by (apply IntFacts.add_small; int_lia).
    rewrite Hx3 in Hstep.
      inversion Hstep; subst. left. worker_ok_done. }
    assert (Hlt : j < i + 8).
    { destruct (Z_lt_ge_dec j (i + 8)); [assumption|].
      replace (i + 8 - j) with 0 in Hmask by lia. simpl in Hmask. lia. }
    assert (Hshift : 0 <= Z.shiftr mask 1 < 2 ^ (i + 8 - (j + 1))).
    { rewrite Z.shiftr_div_pow2 by lia. change (2 ^ 1) with 2.
      replace (i + 8 - j) with (Z.succ (i + 8 - (j + 1))) in Hmask by lia.
      rewrite Z.pow_succ_r in Hmask by lia.
      split; [apply Z.div_pos; lia|].
      apply Z.div_lt_upper_bound; lia. }
    assert (Hx4 : Int.add j 1 = j + 1)
      by (apply IntFacts.add_small; int_lia).
    rewrite Hx4 in Hstep.
    destruct (Z.land mask 1 =? 0); inversion Hstep; subst.
    + left. worker_ok_done.
    + right. exists j. cbn [data ind_val at_pc]. rewrite length_app.
      destruct Hadd as [Hadd|]; [|lia]. worker_ok_done.
  - (* VectTail *)
    assert (Hx5 : Int.add i 1 = i + 1)
      by (apply IntFacts.add_small; int_lia).
    rewrite Hx5 in Hstep.
    destruct (Z.leb_spec i (thread_data.i_end d)).
    + destruct (load (U_threads g) i) as [u|]; [destruct (u =? val_threads g)|];
        inversion Hstep; subst.
      * right. exists i. cbn [data ind_val at_pc]. rewrite length_app.
        destruct Hadd as [Hadd|]; [|lia]. worker_ok_done.
      * left. worker_ok_done.
      * left. worker_ok_done.
    + inversion Hstep; subst. left. worker_ok_done.
  - inversion Hstep; subst. left. worker_ok_done.
  - inversion Hstep; subst. left. worker_ok_done.
Qed.

End WorkerStep.

(** ** Sums of counters *)

Section Counters.

Lemma total_app l1 l2 : total (l1 ++ l2) = total l1 + total l2.
Proof. induction l1 as [|x l1 IH]; simpl; [reflexivity|]. unfold total in *. simpl. lia. Qed.

Lemma total_nonneg l : Forall (fun n => 0 <= n) l -> 0 <= total l.
Proof. induction 1; unfold total in *; simpl; lia. Qed.

Lemma total_replicate n : total (replicate n 0) = 0.
Proof. induction n as [|n IH]; unfold total in *; simpl; lia. Qed.

Lemma total_take_le l n : Forall (fun n => 0 <= n) l -> total (take n l) <= total l.
Proof.
  intros H. rewrite <- (take_drop n l) at 2. rewrite total_app.
  pose proof (total_nonneg (drop n l) (Forall_drop _ _ _ H)). lia.
Qed.

Lemma total_take_S l t n :
  l !! t = Some n -> total (take (S t) l) = total (take t l) + n.
Proof.
  intros H. rewrite (take_S_r _ _ _ H), total_app. unfold total. simpl. lia.
Qed.

(** A change of cell [t] shows in every sum that covers it and in no
    other. *)
Lemma total_take_alter f l t n m :
  l !! t = Some n ->
  total (take m (alter f t l)) =
  total (take m l) + (if decide (t < m)%nat then f n - n else 0).
Proof.
  revert t m. induction l as [|x l IH]; intros t m H; [discriminate|].
  destruct m as [|m].
  { destruct (decide (t < 0)%nat); [lia|reflexivity]. }
  destruct t as [|t]; simpl in *.
  - inversion H; subst. destruct (decide (0 < S m)%nat); [|lia].
    unfold total. simpl. lia.
  - unfold total in *. simpl.
    change (list_alter f t l) with (alter f t l). rewrite (IH t m H).
    destruct (decide (t < m)%nat), (decide (S t < S m)%nat); lia.
Qed.

Lemma total_alter f l t n :
  l !! t = Some n -> total (alter f t l) = total l + (f n - n).
Proof.
  intros H. pose proof (total_take_alter f l t n (length l) H) as Ht.
  rewrite firstn_all2 in Ht by (rewrite length_alter; lia).
  rewrite firstn_all in Ht. rewrite Ht.
  apply lookup_lt_Some in H. destruct (decide (t < length l)%nat); lia.
Qed.

Lemma alter_same (l : list Z) t n : l !! t = Some n -> alter (fun _ => n) t l = l.
Proof.
  intros H. apply list_eq. intros i. destruct (decide (t = i)) as [<-|Hne].
  - rewrite list_lookup_alter_eq, H. reflexivity.
  - apply list_lookup_alter_ne. assumption.
Qed.

Lemma total_le_room counters segs :
  Forall2 (fun n seg => n <= width seg) counters segs ->
  total counters <= room segs.
Proof. induction 1; unfold total, room in *; simpl; lia. Qed.

(** The sum computed in [int] is the sum in [Z] while it fits. *)
Lemma fold_left_add_total l : forall acc,
  Forall (fun n => 0 <= n) l -> 0 <= acc -> acc + total l <= INT_MAX ->
  fold_left Int.add l acc = acc + total l.
Proof.
  induction l as [|x l IH]; intros acc Hl Hacc Hmax; simpl.
  - unfold total. simpl. lia.
  - inversion Hl; subst.
    pose proof (total_nonneg l ltac:(assumption)).
    unfold total in *. simpl in *.
    rewrite IntFacts.add_small by int_lia.
    rewrite IH by (assumption || lia). lia.
Qed.

End Counters.

(** ** Tracks of a worker *)

Section Tracks.

Variables (U : list Z) (val : Z).

Lemma thread_step_idle g w :
  stop_threads g = false -> U_threads g = U -> val_threads g = val ->
  (thread_step g w).2 = idle_step U val w.
Proof.
  intros Hs HU Hv. unfold idle_step, idle_globals, thread_step,
    scalar_thread_function, vect_thread_function, record_hit, goto.
  cbn [stop_threads U_threads val_threads]. rewrite Hs, HU, Hv.
  destruct (at_pc w); repeat case_match; reflexivity.
Qed.

Lemma thread_step_stop g w :
  U_threads g = U -> val_threads g = val ->
  (thread_step g w).2 = idle_step U val w \/
  (thread_step g w).2 = goto w Exited.
Proof.
  intros HU Hv. unfold idle_step, idle_globals, thread_step,
    scalar_thread_function, vect_thread_function, record_hit, goto.
  cbn [stop_threads U_threads val_threads]. rewrite HU, Hv.
  destruct (at_pc w); repeat case_match; auto.
Qed.

Lemma idle_step_exited w : at_pc w = Exited -> idle_step U val w = w.
Proof. intros H. unfold idle_step, thread_step. rewrite H. reflexivity. Qed.

Lemma iter_exited n w : at_pc w = Exited -> Nat.iter n (idle_step U val) w = w.
Proof.
  intros H. induction n as [|n IH]; [reflexivity|].
  simpl. rewrite IH. apply idle_step_exited, H.
Qed.

Lemma iter_add {A} (f : A -> A) n m x :
  Nat.iter (n + m) f x = Nat.iter n f (Nat.iter m f x).
Proof. induction n as [|n IH]; simpl; [reflexivity|]. rewrite IH. reflexivity. Qed.

Lemma idle_step_prefix w : ind_val w `prefix_of` ind_val (idle_step U val w).
Proof.
  unfold idle_step.
  destruct (thread_step (idle_globals U val) w) as [g' w'] eqn:E.
  cbn [snd].
  apply thread_step_effect in E as (_ & _ & _ & _ & [[_ ->]|(x & _ & ->)]).
  - reflexivity.
  - apply prefix_app_r. reflexivity.
Qed.

Lemma iter_prefix n w :
  ind_val w `prefix_of` ind_val (Nat.iter n (idle_step U val) w).
Proof.
  induction n as [|n IH]; simpl; [reflexivity|].
  etransitivity; [exact IH|]. apply idle_step_prefix.
Qed.

(** Two threads on one track, the first of which has exited. *)
Lemma on_track_exited w0 w1 w2 :
  on_track U val w0 w1 -> at_pc w1 = Exited -> on_track U val w0 w2 ->
  ind_val w2 `prefix_of` ind_val w1 /\ (at_pc w2 = Exited -> w2 = w1).
Proof.
  intros [n1 ->] Hex [n2 ->].
  destruct (Nat.le_gt_cases n2 n1) as [Hle|Hgt].
  - replace n1 with ((n1 - n2) + n2)%nat in * by lia.
    rewrite iter_add in *. split.
    + apply iter_prefix.
    + intros H2. rewrite (iter_exited _ _ H2). reflexivity.
  - replace n2 with ((n2 - n1) + n1)%nat by lia.
    rewrite iter_add, (iter_exited _ _ Hex). split; [reflexivity|auto].
Qed.

Lemma tracked_exited w0 w1 w2 :
  on_track U val w0 w1 -> at_pc w1 = Exited -> tracked U val w0 w2 ->
  ind_val w2 `prefix_of` ind_val w1.
Proof.
  intros H1 Hex [H2|(w' & H2 & ->)].
  - apply (on_track_exited w0 w1 w2 H1 Hex H2).
  - simpl. apply (on_track_exited w0 w1 w' H1 Hex H2).
Qed.

End Tracks.

(** ** The invariant of a call *)

Section Call.

Variable stale : bool.
Variables (U : list Z) (val k i_step : Z) (entry : Z -> pc).
Variable segs : list (Z * Z).
Hypothesis segs_ok : forall t seg,
  segs !! t = Some seg -> segment_ok (thread_data.make seg.1 seg.2 i_step t).
Hypothesis segs_count : length segs = Z.to_nat NB_THREADS.
Hypothesis room_fits : room segs <= INT_MAX.

Local Abbreviation Inv := (invariant stale U val k i_step entry segs).

Lemma counters_bounded s :
  Inv s ->
  Forall (fun n => 0 <= n) (nb_find_thread (shared s)) /\
  total (nb_find_thread (shared s)) <= room segs.
Proof.
  intros [Hw Hc Ha He Ht Hwd Hf].
  assert (H2 : Forall2 (fun n seg => 0 <= n /\ n <= width seg)
                 (nb_find_thread (shared s)) segs).
  { apply Forall2_same_length_lookup_2; [congruence|].
    intros t n seg Hn Hseg.
    destruct (lookup_lt_is_Some_2 (workers s) t) as [w Hwt].
    { rewrite Hw. eapply lookup_lt_Some, Hseg. }
    destruct (He t w Hwt) as (seg' & n' & Hseg' & Hn' & Hd & Hok).
    assert (seg' = seg) by congruence. assert (n' = n) by congruence. subst.
    destruct Hok as (Hlen & Hle & Hreach & _). rewrite Hd in *.
    cbn [thread_data.i_start thread_data.i_end] in *.
    unfold width. lia. }
  split.
  - eapply Forall2_Forall_l; [exact H2|].
    apply Forall_forall. intros seg _ n [H0 _]. exact H0.
  - apply total_le_room. eapply Forall2_impl; [exact H2|].
    intros n seg [_ H]. exact H.
Qed.

(** A worker takes a step. *)
Lemma worker_step_invariant s t : Inv s -> Inv (step k s (Worker t)).
Proof.
  intros Hinv. pose proof (counters_bounded s Hinv) as [Hnonneg Hroom].
  destruct Hinv as [Hw Hc Ha He Ht Hwd Hf].
  unfold step. destruct (workers s !! t) as [w|] eqn:Hwt;
    [|constructor; assumption].
  destruct (thread_step (shared s) w) as [g' w'] eqn:Hstep.
  destruct (He t w Hwt) as (seg & n & Hseg & Hn & Hd & Hok).
  pose proof (thread_step_effect _ _ _ _ Hstep) as (Hd' & Hs' & HU' & Hv' & _).
  assert (Hsegok : segment_ok (data w)) by (rewrite Hd; eapply segs_ok, Hseg).
  assert (Hslot : thread_data.nb_find (data w) = t) by (rewrite Hd; reflexivity).
  destruct Ha as [HaU Hav].
  assert (Hcases :
    exists n', nb_find_thread g' = alter (fun _ => n') t (nb_find_thread (shared s)) /\
      n <= n' /\ worker_ok w' n').
  { destruct (thread_step_ok _ _ _ _ n Hsegok Hok Hstep)
      as [(_ & Hsame & Hok')|(x & _ & Halt & Hadd & Hok')].
    - exists n. rewrite Hsame. split; [|split; [lia|assumption]].
      symmetry. apply alter_same, Hn.
    - exists (n + 1). rewrite Halt, Hslot. split; [|split; [lia|assumption]].
      apply list_alter_ext; [|reflexivity]. intros y Hy.
      assert (y = n) by congruence. subst. exact Hadd. }
  destruct Hcases as (n' & Hcnt & Hnn' & Hok').
  assert (Htake : forall m,
    total (take m (nb_find_thread (shared s))) <= total (take m (nb_find_thread g'))).
  { intros m. rewrite Hcnt, (total_take_alter _ _ _ _ _ Hn).
    destruct (decide (t < m)%nat); lia. }
  assert (Htot : total (nb_find_thread (shared s)) <= total (nb_find_thread g')).
  { rewrite Hcnt, (total_alter _ _ _ _ Hn). lia. }
  constructor; cbn [shared workers watch].
  - rewrite length_insert. assumption.
  - rewrite Hcnt, length_alter. assumption.
  - split; congruence.
  - intros t' w'' Hw''.
    destruct (decide (t = t')) as [<-|Hne].
    + rewrite list_lookup_insert_eq in Hw'' by (eapply lookup_lt_Some, Hwt).
      inversion Hw''; subst w''. exists seg, n'.
      split; [assumption|]. split; [|split; [congruence|assumption]].
      rewrite Hcnt, list_lookup_alter_eq, Hn. reflexivity.
    + rewrite list_lookup_insert_ne in Hw'' by assumption.
      destruct (He t' w'' Hw'') as (seg' & m & ? & Hm & ? & ?).
      exists seg', m. split; [assumption|]. split; [|split; assumption].
      rewrite Hcnt, list_lookup_alter_ne by assumption. exact Hm.
  - intros t' w'' seg' Hw'' Hseg'.
    destruct (decide (t = t')) as [<-|Hne].
    + rewrite list_lookup_insert_eq in Hw'' by (eapply lookup_lt_Some, Hwt).
      inversion Hw''; subst w''.
      destruct (Ht t w seg' Hwt Hseg') as [Htr Hon].
      assert (Hw' : w' = (thread_step (shared s) w).2) by (rewrite Hstep; reflexivity).
      split.
      * destruct Htr as [[m Hm]|(w0 & Hw0 & Hcut)].
        -- destruct (thread_step_stop U val (shared s) w HaU Hav) as [Hi|Hx].
           ++ left. exists (S m). simpl. rewrite <- Hm. congruence.
           ++ right. exists w. split; [exists m; exact Hm|congruence].
        -- right. exists w0. split; [assumption|].
           rewrite Hw'. unfold thread_step. rewrite Hcut. reflexivity.
      * rewrite Hs'. intros Hfalse. destruct (Hon Hfalse) as [m Hm].
        exists (S m). simpl. rewrite <- Hm, Hw'.
        apply thread_step_idle; assumption.
    + rewrite list_lookup_insert_ne in Hw'' by assumption.
      rewrite Hs'. apply Ht; assumption.
  - destruct (watch s) as [p|]; [|assumption].
    destruct Hwd as [Hk Hp]. split; [assumption|].
    destruct p as [|tw acc|]; cbn [watch_ok] in *; try exact I.
    destruct Hp as (Htw & Hacc). split; [assumption|].
    specialize (Htake (Z.to_nat tw)). lia.
  - rewrite Hs'. intros Hflag. destruct (Hf Hflag); [left; assumption|right; lia].
Qed.

(** The watchdog takes a step. *)
Lemma watchdog_step_invariant s : Inv s -> Inv (step k s Watchdog).
Proof.
  intros Hinv. pose proof (counters_bounded s Hinv) as [Hnonneg Hroom].
  destruct Hinv as [Hw Hc Ha He Ht Hwd Hf].
  unfold step. destruct (watch s) as [p|] eqn:Hp; [|constructor; try assumption;
    rewrite Hp; assumption].
  destruct Hwd as [Hk Hok].
  destruct p as [|t acc|]; cbn [watch_nb_find].
  - (* WatchSleep *)
    destruct (stop_threads (shared s)) eqn:Hstop;
      constructor; cbn [shared workers watch watch_ok]; rewrite ?Hstop;
      try assumption; try (split; [assumption|exact I]).
    split; [assumption|]. unfold NB_THREADS.
    change (Z.to_nat 0) with 0%nat. rewrite take_0. unfold total. simpl. lia.
  - (* WatchSum *)
    destruct Hok as (Ht8 & Hacc).
    pose proof (total_take_le (nb_find_thread (shared s)) (Z.to_nat t) Hnonneg) as Hle.
    destruct (Z.ltb_spec t NB_THREADS) as [Hlt|Hge].
    + destruct (lookup_lt_is_Some_2 (nb_find_thread (shared s)) (Z.to_nat t))
        as [c Hc']. { rewrite Hc, segs_count. lia. }
      rewrite Hc'. cbn [default from_option id].
      pose proof (total_take_S _ _ _ Hc') as HS.
      pose proof (total_take_le (nb_find_thread (shared s)) (S (Z.to_nat t)) Hnonneg)
        as Hle'.
      assert (0 <= c) by (rewrite Forall_forall in Hnonneg;
                          eapply Hnonneg, list_elem_of_lookup_2, Hc').
      rewrite !IntFacts.add_small by (unfold NB_THREADS in *; int_lia).
      constructor; cbn [shared workers watch watch_ok]; try assumption.
      split; [assumption|]. split; [lia|].
      replace (Z.to_nat (t + 1)) with (S (Z.to_nat t)) by lia. lia.
    + destruct (Z.ltb_spec k acc) as [Hkacc|Hkacc].
      * constructor; cbn [shared workers watch watch_ok stop_threads
                          nb_find_thread U_threads val_threads];
          try assumption; try (split; [assumption|exact I]).
        -- intros t' w seg Hw' Hseg'. destruct (Ht t' w seg Hw' Hseg') as [Htr _].
           split; [assumption|discriminate].
        -- intros _. right. lia.
      * constructor; cbn [shared workers watch watch_ok]; try assumption.
        split; [assumption|exact I].
  - constructor; cbn [shared workers watch watch_ok]; try assumption.
    split; [assumption|exact I].
Qed.

Lemma step_invariant s who : Inv s -> Inv (step k s who).
Proof.
  destruct who as [t|]; [apply worker_step_invariant|apply watchdog_step_invariant].
Qed.

Lemma run_invariant sched : forall s, Inv s -> Inv (run k sched s).
Proof.
  unfold run. induction sched as [|who sched IH]; intros s Hs; [exact Hs|].
  simpl. apply IH, step_invariant, Hs.
Qed.

(** The threads of a call that starts with [stop_threads] clear. *)
Lemma launch_invariant g :
  stop_threads g = stale ->
  (entry = ScalarTest \/ entry = VectTest /\ 8 <= i_step) ->
  Inv (launch g U val k entry i_step segs).
Proof.
  intros Hstop Hentry. unfold launch.
  constructor; cbn [shared workers watch stop_threads nb_find_thread
                    U_threads val_threads].
  - apply length_imap.
  - rewrite length_replicate. symmetry. exact segs_count.
  - split; reflexivity.
  - intros t w Hw. rewrite list_lookup_imap in Hw.
    destruct (segs !! t) as [seg|] eqn:Hseg; [|discriminate].
    inversion Hw; subst w. exists seg, 0.
    split; [reflexivity|]. split.
    { apply lookup_replicate_2. rewrite <- segs_count.
      eapply lookup_lt_Some, Hseg. }
    split; [reflexivity|].
    pose proof (segs_ok t seg Hseg) as Hok.
    pose proof Hok as (Hlo & Hst & (m & Hm & Hlen) & Hmax).
    cbn [thread_data.i_start thread_data.i_end thread_data.i_step] in *.
    assert (Hal : aligned (thread_data.make seg.1 seg.2 i_step t) seg.1).
    { exists 0. cbn [thread_data.i_start]. split; lia. }
    unfold worker_ok, spawn. cbn [data ind_val at_pc length].
    destruct Hentry as [->|[-> H8]]; cbn [reach pc_ok thread_data.i_start
      thread_data.i_end thread_data.i_step];
      repeat split; try assumption; try nia.
  - intros t w seg Hw Hseg. rewrite list_lookup_imap, Hseg in Hw.
    inversion Hw; subst w.
    assert (on_track U val (spawn entry i_step t seg) (spawn entry i_step t seg))
      by (exists 0%nat; reflexivity).
    split; [left|]; auto.
  - destruct (Z.leb_spec 0 k); [|lia]. split; [assumption|exact I].
  - rewrite Hstop. auto.
Qed.

(** *** What [aggregate] returns *)

Lemma counters_are_lengths s :
  Inv s ->
  Forall2 (fun w n => n = Z.of_nat (length (ind_val w)))
    (workers s) (nb_find_thread (shared s)).
Proof.
  intros [Hw Hc Ha He Ht Hwd Hf].
  apply Forall2_same_length_lookup_2; [congruence|].
  intros t w n Hwt Hn.
  destruct (He t w Hwt) as (seg & n' & _ & Hn' & _ & Hok).
  assert (n' = n) by congruence. subst. apply Hok.
Qed.

Lemma memcpy_all ws counters :
  Forall2 (fun w n => n = Z.of_nat (length (ind_val w))) ws counters ->
  concat (zip_with (fun w n => take (Z.to_nat n) (ind_val w)) ws counters) =
  concat (ind_val <$> ws) /\
  total counters = Z.of_nat (length (concat (ind_val <$> ws))).
Proof.
  induction 1 as [|w n ws counters Hn _ [IH1 IH2]]; [split; reflexivity|].
  subst n. cbn [zip_with fmap list_fmap concat].
  rewrite Nat2Z.id, firstn_all, IH1, length_app, Nat2Z.inj_add.
  split; [reflexivity|]. unfold total in *. simpl. lia.
Qed.

Lemma aggregate_spec s :
  Inv s ->
  let T := Z.of_nat (length (all_indices s)) in
  T = total (nb_find_thread (shared s)) /\
  ret (aggregate k s) = (if (0 <=? k) && (k <? T) then k else T) /\
  out (aggregate k s) =
    Some (if (0 <=? k) && (k <? T) then take (Z.to_nat k) (all_indices s)
          else all_indices s).
Proof.
  intros Hinv T. pose proof (counters_bounded s Hinv) as [Hnonneg Hroom].
  destruct (memcpy_all _ _ (counters_are_lengths s Hinv)) as [Hall Htot].
  fold (all_indices s) in Hall, Htot. fold T in Htot.
  split; [congruence|].
  unfold aggregate. rewrite Hall.
  rewrite (fold_left_add_total _ 0 Hnonneg) by lia.
  rewrite Z.add_0_l, Htot.
  destruct (watch s) as [p|];
    [destruct (join_watchdog _ _ p) as [g' p']|];
    destruct ((0 <=? k) && (k <? T)); split; reflexivity.
Qed.

(** *** Two runs of one call *)

Lemma length_concat_prefix (l1 l2 : list (list Z)) :
  Forall2 prefix l1 l2 -> (length (concat l1) <= length (concat l2))%nat.
Proof.
  induction 1 as [|x y l1 l2 Hxy _ IH]; [reflexivity|].
  simpl. rewrite !length_app. apply prefix_length in Hxy. lia.
Qed.

(** When [stop_threads] is still clear at the end of a run, every thread
    has done all of its work: the threads of any other run hold prefixes
    of its indices, and the same indices if they were not told to stop
    either. *)
Lemma unstopped_run_is_longest s1 s2 :
  Inv s1 -> Inv s2 -> all_exited s1 -> all_exited s2 ->
  stop_threads (shared s1) = false ->
  (length (all_indices s2) <= length (all_indices s1))%nat /\
  (stop_threads (shared s2) = false -> all_indices s2 = all_indices s1).
Proof.
  intros Hinv1 Hinv2 Hex1 Hex2 Hstop1.
  assert (Hpre : Forall2 (fun w2 w1 =>
            ind_val w2 `prefix_of` ind_val w1 /\
            (stop_threads (shared s2) = false -> w2 = w1))
          (workers s2) (workers s1)).
  { apply Forall2_same_length_lookup_2.
    { rewrite (inv_workers _ _ _ _ _ _ _ _ Hinv1), (inv_workers _ _ _ _ _ _ _ _ Hinv2).
      reflexivity. }
    intros t w2 w1 Hw2 Hw1.
    destruct (inv_each _ _ _ _ _ _ _ _ Hinv1 t w1 Hw1) as (seg & _ & Hseg & _).
    destruct (inv_track _ _ _ _ _ _ _ _ Hinv1 t w1 seg Hw1 Hseg) as [_ Hon1].
    destruct (inv_track _ _ _ _ _ _ _ _ Hinv2 t w2 seg Hw2 Hseg) as [Htr2 Hon2].
    specialize (Hon1 Hstop1). split.
    - eapply tracked_exited; eauto.
    - intros Hstop2.
      eapply (on_track_exited U val _ w1 w2); eauto. }
  split.
  - unfold all_indices. apply length_concat_prefix.
    apply Forall2_fmap. eapply Forall2_impl; [exact Hpre|].
    intros w2 w1 [H _]. exact H.
  - intros Hstop2. unfold all_indices. f_equal. f_equal.
    apply list_eq_Forall2. eapply Forall2_impl; [exact Hpre|].
    intros w2 w1 [_ H]. auto.
Qed.

(** The count does not depend on the run; the indices do not either when
    there is no threshold or when it is not reached. *)
Lemma two_runs s1 s2 :
  stale = false ->
  Inv s1 -> Inv s2 -> all_exited s1 -> all_exited s2 ->
  ret (aggregate k s1) = ret (aggregate k s2) /\
  (k < 0 \/ ret (aggregate k s1) < k ->
   out (aggregate k s1) = out (aggregate k s2)).
Proof.
  intros Hfresh Hinv1 Hinv2 Hex1 Hex2.
  destruct (aggregate_spec s1 Hinv1) as (HT1 & Hret1 & Hout1).
  destruct (aggregate_spec s2 Hinv2) as (HT2 & Hret2 & Hout2).
  assert (Hf1 : stop_threads (shared s1) = true ->
                0 <= k < total (nb_find_thread (shared s1))).
  { intros H. destruct (inv_flag _ _ _ _ _ _ _ _ Hinv1 H); [congruence|assumption]. }
  assert (Hf2 : stop_threads (shared s2) = true ->
                0 <= k < total (nb_find_thread (shared s2))).
  { intros H. destruct (inv_flag _ _ _ _ _ _ _ _ Hinv2 H); [congruence|assumption]. }
  rewrite Hret1, Hret2, Hout1, Hout2.
  destruct (stop_threads (shared s1)) eqn:Hs1;
    destruct (stop_threads (shared s2)) eqn:Hs2.
  - specialize (Hf1 eq_refl). specialize (Hf2 eq_refl).
    destruct (Z.leb_spec 0 k); [|lia].
    destruct (Z.ltb_spec k (Z.of_nat (length (all_indices s1)))); [|lia].
    destruct (Z.ltb_spec k (Z.of_nat (length (all_indices s2)))); [|lia].
    simpl. split; [reflexivity|lia].
  - specialize (Hf1 eq_refl).
    destruct (unstopped_run_is_longest s2 s1 Hinv2 Hinv1 Hex2 Hex1 Hs2) as [Hle _].
    destruct (Z.leb_spec 0 k); [|lia].
    destruct (Z.ltb_spec k (Z.of_nat (length (all_indices s1)))); [|lia].
    destruct (Z.ltb_spec k (Z.of_nat (length (all_indices s2)))); [|lia].
    simpl. split; [reflexivity|lia].
  - specialize (Hf2 eq_refl).
    destruct (unstopped_run_is_longest s1 s2 Hinv1 Hinv2 Hex1 Hex2 Hs1) as [Hle _].
    destruct (Z.leb_spec 0 k); [|lia].
    destruct (Z.ltb_spec k (Z.of_nat (length (all_indices s1)))); [|lia].
    destruct (Z.ltb_spec k (Z.of_nat (length (all_indices s2)))); [|lia].
    simpl. split; [reflexivity|lia].
  - destruct (unstopped_run_is_longest s1 s2 Hinv1 Hinv2 Hex1 Hex2 Hs1) as [_ Heq].
    rewrite (Heq Hs2). split; reflexivity.
Qed.

(** A run that ends with [stop_threads] clear decides what every other run
    of the call returns. *)
Lemma against_full_run s1 s2 :
  stale = false ->
  Inv s1 -> Inv s2 -> all_exited s1 -> all_exited s2 ->
  stop_threads (shared s1) = false ->
  let T := Z.of_nat (length (all_indices s1)) in
  ret (aggregate k s2) = (if (0 <=? k) && (k <? T) then k else T) /\
  (k < 0 \/ T <= k -> out (aggregate k s2) = Some (all_indices s1)) /\
  (exists l, out (aggregate k s2) = Some l /\ Z.of_nat (length l) = ret (aggregate k s2)).
Proof.
  intros Hfresh Hinv1 Hinv2 Hex1 Hex2 Hs1 T.
  destruct (aggregate_spec s2 Hinv2) as (HT2 & Hret2 & Hout2).
  destruct (unstopped_run_is_longest s1 s2 Hinv1 Hinv2 Hex1 Hex2 Hs1) as [Hle Heq].
  assert (Hf2 : stop_threads (shared s2) = true ->
                0 <= k < Z.of_nat (length (all_indices s2))).
  { intros H. rewrite HT2.
    destruct (inv_flag _ _ _ _ _ _ _ _ Hinv2 H); [congruence|assumption]. }
  rewrite Hret2, Hout2. subst T.
  destruct (stop_threads (shared s2)) eqn:Hs2.
  - specialize (Hf2 eq_refl).
    destruct (Z.leb_spec 0 k); [|lia].
    destruct (Z.ltb_spec k (Z.of_nat (length (all_indices s2)))); [|lia].
    destruct (Z.ltb_spec k (Z.of_nat (length (all_indices s1)))); [|lia].
    cbn [andb]. split; [reflexivity|]. split; [lia|].
    eexists. split; [reflexivity|]. rewrite length_take. lia.
  - rewrite (Heq eq_refl). split; [reflexivity|]. split.
    + intros Hk.
      destruct (Z.leb_spec 0 k);
        destruct (Z.ltb_spec k (Z.of_nat (length (all_indices s1))));
        cbn [andb]; try reflexivity; lia.
    + eexists. split; [reflexivity|].
      destruct (Z.leb_spec 0 k);
        destruct (Z.ltb_spec k (Z.of_nat (length (all_indices s1))));
        cbn [andb]; try reflexivity.
      rewrite length_take. lia.
Qed.

End Call.

(** ** Calls of [thread_find] *)

Lemma watch_nb_find_keeps_flag k g p :
  stop_threads g = true -> stop_threads (watch_nb_find k g p).1 = true.
Proof.
  intros H. unfold watch_nb_find. destruct p as [|t nb|].
  - rewrite H. exact H.
  - destruct (t <? NB_THREADS); [exact H|].
    destruct (k <? nb); [reflexivity|exact H].
  - exact H.
Qed.

Lemma join_watchdog_keeps_flag k g p :
  stop_threads g = true -> stop_threads (join_watchdog k g p).1 = true.
Proof.
  intros H. unfold join_watchdog. generalize 10%nat. intros n.
  induction n as [|n IH]; simpl; [exact H|].
  destruct (Nat.iter n _ (g, p)) as [g' p'].
  apply watch_nb_find_keeps_flag, IH.
Qed.

(** Once [stop_threads] is set the watchdog exits within ten steps: the
    join at the end of [thread_find] does not block. *)
Lemma watch_exited_stays k n g :
  Nat.iter n (fun '(g, p) => watch_nb_find k g p) (g, WatchExited) =
  (g, WatchExited).
Proof. induction n as [|n IH]; simpl; [reflexivity|]. rewrite IH. reflexivity. Qed.

Lemma watch_sleep_exits k n g :
  stop_threads g = true ->
  Nat.iter (S n) (fun '(g, p) => watch_nb_find k g p) (g, WatchSleep) =
  (g, WatchExited).
Proof.
  intros H. rewrite Nat.iter_succ_r. cbn [watch_nb_find]. rewrite H.
  apply watch_exited_stays.
Qed.

Lemma watch_sum_exits k g (m : nat) : forall t nb n,
  stop_threads g = true ->
  0 <= t <= NB_THREADS -> m = Z.to_nat (NB_THREADS - t) ->
  (m + 2 <= n)%nat ->
  (Nat.iter n (fun '(g, p) => watch_nb_find k g p) (g, WatchSum t nb)).2 =
  WatchExited.
Proof.
  induction m as [|m IH]; intros t nb n H Ht Hm Hn;
    (destruct n as [|n]; [lia|]); rewrite Nat.iter_succ_r; cbn [watch_nb_find].
  - destruct (Z.ltb_spec t NB_THREADS); [lia|].
    destruct (k <? nb).
    + rewrite watch_exited_stays. reflexivity.
    + destruct n as [|n]; [lia|]. rewrite watch_sleep_exits by assumption.
      reflexivity.
  - destruct (Z.ltb_spec t NB_THREADS); [|lia].
    rewrite (IntFacts.add_small t 1) by (unfold NB_THREADS in *; int_lia).
    apply IH; try assumption; lia.
Qed.

Lemma join_watchdog_exits k g p :
  stop_threads g = true -> watch_ok (nb_find_thread g) p ->
  (join_watchdog k g p).2 = WatchExited.
Proof.
  intros H Hok. unfold join_watchdog. destruct p as [|t nb|].
  - rewrite watch_sleep_exits by assumption. reflexivity.
  - destruct Hok as [Ht _].
    apply (watch_sum_exits k g (Z.to_nat (NB_THREADS - t))); try assumption;
      try reflexivity.
    unfold NB_THREADS in *. lia.
  - rewrite watch_exited_stays. reflexivity.
Qed.

Lemma aggregate_assigns k s : out (aggregate k s) <> None.
Proof.
  unfold aggregate.
  destruct (watch s) as [p|]; [destruct (join_watchdog _ _ p)|];
    destruct (_ && _); discriminate.
Qed.

Section ValidCall.

Variables (i_start i_end i_step : Z).
Hypothesis inputs_fit : fits i_start i_end i_step.

Local Abbreviation seg_of := (exact_segment NB_THREADS i_start i_end i_step).
Local Abbreviation cut_at := (cut NB_THREADS i_start i_end i_step).
Local Abbreviation plan := (seg_of <$> seqZ 0 NB_THREADS).

Lemma plan_exact : segments NB_THREADS i_start i_end i_step = Some plan.
Proof.
  destruct inputs_fit as (Hr & Hst & Hmax & Hprod).
  apply segments_exact; unfold NB_THREADS in *; try lia; int_lia.
Qed.

Lemma length_plan : length plan = Z.to_nat NB_THREADS.
Proof. rewrite length_fmap, length_seqZ. reflexivity. Qed.

Lemma plan_lookup t seg :
  plan !! t = Some seg -> seg = seg_of (Z.of_nat t) /\ 0 <= Z.of_nat t < NB_THREADS.
Proof.
  rewrite list_lookup_fmap. intros H.
  destruct (seqZ 0 NB_THREADS !! t) as [x|] eqn:E; [|discriminate].
  apply lookup_seqZ in E as [-> Hlt]. inversion H. split; [f_equal; lia|lia].
Qed.

Lemma plan_ok t seg :
  plan !! t = Some seg -> segment_ok (thread_data.make seg.1 seg.2 i_step t).
Proof.
  intros H. apply plan_lookup in H as [-> Ht].
  destruct inputs_fit as (Hr & Hst & Hmax & Hprod).
  assert (Hnb : 0 < NB_THREADS) by (unfold NB_THREADS; lia).
  pose proof (M_bounds i_start i_end i_step Hr Hst) as (HM & Hlo & Hhi).
  pose proof (cut_range NB_THREADS i_start i_end i_step Hnb Hr Hst
                (Z.of_nat t) ltac:(lia)) as Hc.
  pose proof (cut_range NB_THREADS i_start i_end i_step Hnb Hr Hst
                (Z.of_nat t + 1) ltac:(lia)) as Hc'.
  pose proof (cut_mono NB_THREADS i_start i_end i_step Hnb Hr Hst
                (Z.of_nat t) (Z.of_nat t + 1) ltac:(lia)) as Hcc.
  unfold segment_ok, exact_segment.
  cbn [fst snd thread_data.i_start thread_data.i_end thread_data.i_step].
  split; [nia|]. split; [assumption|]. split.
  - exists (cut_at (Z.of_nat t + 1) - cut_at (Z.of_nat t)). split; lia.
  - int_nia.
Qed.

Lemma room_app l1 l2 : room (l1 ++ l2) = room l1 + room l2.
Proof. induction l1 as [|x l1 IH]; unfold room in *; simpl; lia. Qed.

Lemma room_plan_prefix (n : nat) :
  room (seg_of <$> seqZ 0 (Z.of_nat n)) = cut_at (Z.of_nat n) * i_step.
Proof.
  destruct inputs_fit as (Hr & Hst & Hmax & Hprod).
  assert (Hnb : 0 < NB_THREADS) by (unfold NB_THREADS; lia).
  induction n as [|n IH].
  - change (Z.of_nat 0) with 0. rewrite (cut_0 NB_THREADS) by assumption.
    reflexivity.
  - rewrite seqZ_S, fmap_app, room_app, IH. simpl fmap. rewrite Z.add_0_l.
    replace (Z.of_nat (S n)) with (Z.of_nat n + 1) by lia.
    unfold room, width, exact_segment. simpl. lia.
Qed.

Lemma room_plan : room plan <= INT_MAX.
Proof.
  pose proof (room_plan_prefix (Z.to_nat NB_THREADS)) as H.
  rewrite Z2Nat.id in H by (unfold NB_THREADS; lia). rewrite H.
  destruct inputs_fit as (Hr & Hst & Hmax & Hprod).
  rewrite (cut_nb NB_THREADS) by (unfold NB_THREADS; lia).
  pose proof (M_bounds i_start i_end i_step Hr Hst) as (HM & Hlo & Hhi).
  int_nia.
Qed.

Lemma thread_function_cases ver entry :
  thread_function ver i_step = Some entry ->
  (ver = 0 /\ entry = ScalarTest) \/
  (ver = 1 /\ Int.rem i_step 8 = 0 /\ entry = VectTest).
Proof.
  unfold thread_function.
  destruct (Z.eqb_spec ver 0); [intros H; inversion H; auto|].
  destruct (Z.eqb_spec ver 1); [|discriminate].
  destruct (Z.eqb_spec (Int.rem i_step 8) 0); simpl; [|discriminate].
  intros H; inversion H; auto.
Qed.

Lemma entry_ok ver entry :
  thread_function ver i_step = Some entry ->
  entry = ScalarTest \/ entry = VectTest /\ 8 <= i_step.
Proof.
  intros H. destruct (thread_function_cases ver entry H) as [[_ ->]|(_ & Hrem & ->)];
    [auto|right; split; [reflexivity|]].
  destruct inputs_fit as (_ & Hst & _).
  unfold Int.rem in Hrem. apply Z.rem_divide in Hrem; [|lia].
  destruct Hrem as [q Hq]. lia.
Qed.

(** A call that returns went through a run that ended with every worker
    exited, and handed back what [aggregate] made of it. *)
Lemma thread_find_returned sched g U val k ver c :
  thread_find sched g U i_start i_end i_step val k ver = Returned c ->
  (thread_function ver i_step = None /\
   c = {| ret := -1; out := None;
          final := {| shared := g; workers := []; watch := None |} |}) \/
  (exists entry,
     thread_function ver i_step = Some entry /\
     let s := run k sched (launch g U val k entry i_step plan) in
     all_exited s /\ c = aggregate k s).
Proof.
  unfold thread_find. destruct (thread_function ver i_step) as [entry|] eqn:E.
  - rewrite plan_exact. cbv zeta.
    destruct (existsb faulted _); [discriminate|].
    destruct (forallb exited _) eqn:Hall; [|discriminate].
    intros H. inversion H; subst c. right. exists entry.
    split; [reflexivity|]. split; [|reflexivity].
    intros t w Hw. rewrite forallb_forall in Hall.
    specialize (Hall w ltac:(apply list_elem_of_In; eapply list_elem_of_lookup_2, Hw)).
    unfold exited in Hall. destruct (at_pc w); congruence.
  - intros H. inversion H. left. split; reflexivity.
Qed.

Lemma thread_find_invariant sched g U val k ver entry :
  thread_function ver i_step = Some entry ->
  invariant (stop_threads g) U val k i_step entry plan
    (run k sched (launch g U val k entry i_step plan)).
Proof.
  intros Hentry.
  apply run_invariant; [apply plan_ok|apply length_plan|apply room_plan|].
  apply launch_invariant;
    [apply plan_ok|apply length_plan|reflexivity|eapply entry_ok, Hentry].
Qed.

Lemma call_aggregate sched g U val k ver entry :
  thread_function ver i_step = Some entry ->
  let s := run k sched (launch g U val k entry i_step plan) in
  let T := Z.of_nat (length (all_indices s)) in
  T = total (nb_find_thread (shared s)) /\
  ret (aggregate k s) = (if (0 <=? k) && (k <? T) then k else T) /\
  out (aggregate k s) =
    Some (if (0 <=? k) && (k <? T) then take (Z.to_nat k) (all_indices s)
          else all_indices s).
Proof.
  intros Hentry.
  eapply aggregate_spec;
    [apply length_plan|apply room_plan|
     eapply thread_find_invariant; eassumption].
Qed.

Lemma call_two_runs sched1 sched2 g1 g2 U val k ver entry :
  stop_threads g1 = false -> stop_threads g2 = false ->
  thread_function ver i_step = Some entry ->
  let s1 := run k sched1 (launch g1 U val k entry i_step plan) in
  let s2 := run k sched2 (launch g2 U val k entry i_step plan) in
  all_exited s1 -> all_exited s2 ->
  ret (aggregate k s1) = ret (aggregate k s2) /\
  (k < 0 \/ ret (aggregate k s1) < k ->
   out (aggregate k s1) = out (aggregate k s2)).
Proof.
  intros H1 H2 Hentry s1 s2 Hex1 Hex2.
  pose proof (thread_find_invariant sched1 g1 U val k ver entry Hentry) as Hinv1.
  pose proof (thread_find_invariant sched2 g2 U val k ver entry Hentry) as Hinv2.
  rewrite H1 in Hinv1. rewrite H2 in Hinv2.
  eapply two_runs;
    [apply length_plan|apply room_plan|reflexivity|
     exact Hinv1|exact Hinv2|assumption|assumption].
Qed.

End ValidCall.

(** ** The scalar threads, run to their end *)

Section ScalarTrack.

Variables (U : list Z) (val : Z).

Lemma idle_step_scalar_test d buf i :
  idle_step U val {| data := d; ind_val := buf; at_pc := ScalarTest i |} =
  {| data := d; ind_val := buf;
     at_pc := if i <=? thread_data.i_end d then ScalarBody i else Exited |}.
Proof.
  unfold idle_step, thread_step, scalar_thread_function, goto, idle_globals.
  cbn [at_pc data ind_val stop_threads].
  destruct (i <=? thread_data.i_end d); reflexivity.
Qed.

Lemma idle_step_scalar_body d buf i u :
  load U i = Some u ->
  idle_step U val {| data := d; ind_val := buf; at_pc := ScalarBody i |} =
  {| data := d;
     ind_val := if u =? val then buf ++ [i] else buf;
     at_pc := ScalarTest (Int.add i (thread_data.i_step d)) |}.
Proof.
  intros Hu.
  unfold idle_step, thread_step, scalar_thread_function, record_hit, goto,
    idle_globals.
  cbn [at_pc data ind_val stop_threads U_threads val_threads]. rewrite Hu.
  destruct (u =? val); reflexivity.
Qed.

(** A scalar thread that is never told to stop scans its [n] strides and
    exits. *)
Lemma scalar_track d n : forall i buf,
  0 < thread_data.i_step d -> 0 <= i ->
  i + Z.of_nat n * thread_data.i_step d <= INT_MAX ->
  ((0 < n)%nat ->
   i + (Z.of_nat n - 1) * thread_data.i_step d <= thread_data.i_end d /\
   i + (Z.of_nat n - 1) * thread_data.i_step d < Z.of_nat (length U)) ->
  thread_data.i_end d < i + Z.of_nat n * thread_data.i_step d ->
  Nat.iter (2 * n + 1) (idle_step U val)
    {| data := d; ind_val := buf; at_pc := ScalarTest i |} =
  {| data := d;
     ind_val := buf ++ hits U val (stepped_from n i (thread_data.i_step d));
     at_pc := Exited |}.
Proof.
  induction n as [|n IH]; intros i buf Hst Hi Hmax Hlast Hend.
  { change (2 * 0 + 1)%nat with 1%nat.
    rewrite Nat.iter_succ_r, idle_step_scalar_test.
    cbn [Nat.iter nat_rect stepped_from].
    destruct (Z.leb_spec i (thread_data.i_end d)); [lia|].
    unfold hits. rewrite filter_nil, app_nil_r. reflexivity. }
  replace (2 * S n + 1)%nat with (S (S (2 * n + 1))) by lia.
  rewrite !Nat.iter_succ_r, idle_step_scalar_test.
  destruct (Hlast ltac:(lia)) as [Hle Hlt].
  destruct (Z.leb_spec i (thread_data.i_end d)); [|nia].
  destruct (load_in_bounds U i) as [u Hu]; [nia|].
  rewrite (idle_step_scalar_body _ _ _ _ Hu).
  rewrite IntFacts.add_small by int_nia.
  rewrite IH; try assumption; try lia; try nia.
  f_equal. cbn [stepped_from]. unfold hits. rewrite filter_cons.
  destruct (Z.eqb_spec u val) as [->|Hne].
  - rewrite decide_True by assumption. rewrite <- app_assoc. reflexivity.
  - rewrite decide_False by congruence. reflexivity.
Qed.

End ScalarTrack.

(** ** One worker after the other *)

Section OneByOne.

Variable k : Z.

(** A worker that steps alone while [stop_threads] is clear follows its
    track; the others do not move. *)
Lemma run_worker_alone t n : forall s w,
  workers s !! t = Some w -> stop_threads (shared s) = false ->
  workers (run k (replicate n (Worker t)) s) =
    <[t := Nat.iter n (idle_step (U_threads (shared s)) (val_threads (shared s))) w]>
      (workers s) /\
  stop_threads (shared (run k (replicate n (Worker t)) s)) = false /\
  U_threads (shared (run k (replicate n (Worker t)) s)) = U_threads (shared s) /\
  val_threads (shared (run k (replicate n (Worker t)) s)) = val_threads (shared s).
Proof.
  induction n as [|n IH]; intros s w Hw Hstop.
  - cbn [replicate run fold_left Nat.iter nat_rect].
    rewrite list_insert_id by assumption. auto.
  - cbn [replicate]. unfold run in *. cbn [fold_left].
    set (s1 := step k s (Worker t)).
    assert (Hs1 : workers s1 = <[t := idle_step (U_threads (shared s))
                                   (val_threads (shared s)) w]> (workers s) /\
                  stop_threads (shared s1) = false /\
                  U_threads (shared s1) = U_threads (shared s) /\
                  val_threads (shared s1) = val_threads (shared s)).
    { subst s1. unfold step. rewrite Hw.
      pose proof (thread_step_idle _ _ (shared s) w Hstop eq_refl eq_refl) as Hidle.
      destruct (thread_step (shared s) w) as [g' w'] eqn:E.
      apply thread_step_effect in E as (_ & Hs & HU & Hv & _).
      cbn [shared workers snd] in *. rewrite Hidle.
      split; [reflexivity|]. split; [congruence|]. split; assumption. }
    destruct Hs1 as (Hws1 & Hstop1 & HU1 & Hv1).
    destruct (IH s1 (idle_step (U_threads (shared s)) (val_threads (shared s)) w))
      as (Hws & Hstop' & HU' & Hv').
    { rewrite Hws1. apply list_lookup_insert_eq. eapply lookup_lt_Some, Hw. }
    { assumption. }
    rewrite Hws, Hws1, HU1, Hv1, list_insert_insert_eq, Nat.iter_succ_r.
    split; [reflexivity|]. split; [assumption|]. split; congruence.
Qed.

Lemma run_app sched1 sched2 s :
  run k (sched1 ++ sched2) s = run k sched2 (run k sched1 s).
Proof. unfold run. apply fold_left_app. Qed.

(** After [one_by_one n], restricted to the first [j] workers, these have
    taken [n] steps on their tracks. *)
Lemma run_first_workers n s (j : nat) :
  stop_threads (shared s) = false -> (j <= length (workers s))%nat ->
  let s' := run k (mjoin (map (fun t => replicate n (Worker t)) (seq 0 j))) s in
  (forall i, workers s' !! i =
     if decide (i < j)%nat
     then Nat.iter n (idle_step (U_threads (shared s)) (val_threads (shared s)))
            <$> workers s !! i
     else workers s !! i) /\
  stop_threads (shared s') = false /\
  U_threads (shared s') = U_threads (shared s) /\
  val_threads (shared s') = val_threads (shared s).
Proof.
  intros Hstop. induction j as [|j IH]; intros Hj s'.
  - subst s'. cbn. split; [|auto]. intros i.
    destruct (decide (i < 0)%nat); [lia|reflexivity].
  - subst s'. rewrite seq_S, map_app, join_app, run_app. cbn [map Nat.add].
    change (mjoin [replicate n (Worker j)]) with (replicate n (Worker j) ++ []).
    rewrite app_nil_r.
    destruct (IH ltac:(lia)) as (Hws & Hstop' & HU' & Hv').
    set (s1 := run k (mjoin (map (fun t => replicate n (Worker t)) (seq 0 j))) s) in *.
    destruct (lookup_lt_is_Some_2 (workers s) j ltac:(lia)) as [w Hw].
    assert (Hw1 : workers s1 !! j = Some w).
    { rewrite Hws. destruct (decide (j < j)%nat); [lia|assumption]. }
    destruct (run_worker_alone j n s1 w Hw1 Hstop') as (Hws2 & Hstop2 & HU2 & Hv2).
    rewrite Hws2, Hstop2, HU2, Hv2, HU', Hv'.
    split; [|auto]. intros i.
    destruct (decide (i = j)) as [->|Hne].
    + rewrite list_lookup_insert_eq by (eapply lookup_lt_Some, Hw1).
      destruct (decide (j < S j)%nat); [|lia]. rewrite Hw. reflexivity.
    + rewrite list_lookup_insert_ne by auto. rewrite Hws.
      destruct (decide (i < j)%nat), (decide (i < S j)%nat); try lia; reflexivity.
Qed.

Lemma run_one_by_one n s :
  stop_threads (shared s) = false ->
  length (workers s) = Z.to_nat NB_THREADS ->
  workers (run k (one_by_one n) s) =
    Nat.iter n (idle_step (U_threads (shared s)) (val_threads (shared s)))
      <$> workers s /\
  stop_threads (shared (run k (one_by_one n) s)) = false.
Proof.
  intros Hstop Hlen.
  destruct (run_first_workers n s (Z.to_nat NB_THREADS) Hstop ltac:(lia))
    as (Hws & Hstop' & _).
  split; [|exact Hstop'].
  apply list_eq. intros i. unfold one_by_one. rewrite Hws, list_lookup_fmap.
  destruct (decide (i < Z.to_nat NB_THREADS)%nat) as [|Hge]; [reflexivity|].
  rewrite lookup_ge_None_2 by lia. reflexivity.
Qed.

End OneByOne.

(** ** A search entered with the flag clear, scalar strategy *)

Section FirstSearch.

Variables (i_start i_end i_step : Z).
Hypothesis inputs_fit : fits i_start i_end i_step.
Variables (U : list Z) (val : Z).
Hypothesis end_in_array : i_end < Z.of_nat (length U).

Local Abbreviation seg_of := (exact_segment NB_THREADS i_start i_end i_step).
Local Abbreviation cut_at := (cut NB_THREADS i_start i_end i_step).
Local Abbreviation plan := (seg_of <$> seqZ 0 NB_THREADS).
Local Abbreviation enough :=
  (2 * Z.to_nat (strides i_start i_end i_step) + 1)%nat.

Lemma hits_concat (ls : list (list Z)) :
  hits U val (concat ls) = concat (hits U val <$> ls).
Proof.
  induction ls as [|l ls IH]; [reflexivity|].
  cbn [concat fmap list_fmap]. rewrite hits_app, IH. reflexivity.
Qed.

(** Where a scalar worker ends when it is never told to stop. *)
Lemma scalar_worker_finishes t seg :
  plan !! t = Some seg ->
  Nat.iter enough (idle_step U val) (spawn ScalarTest i_step t seg) =
  {| data := thread_data.make seg.1 seg.2 i_step t;
     ind_val := hits U val (segment_indices i_step seg);
     at_pc := Exited |}.
Proof.
  intros Hseg. apply plan_lookup in Hseg as [-> Ht].
  destruct inputs_fit as (Hr & Hst & Hmax & Hprod).
  assert (Hnb : 0 < NB_THREADS) by (unfold NB_THREADS; lia).
  pose proof (M_bounds i_start i_end i_step Hr Hst) as (HM & Hlo & Hhi).
  pose proof (cut_range NB_THREADS i_start i_end i_step Hnb Hr Hst
                (Z.of_nat t) ltac:(lia)) as Hc.
  pose proof (cut_range NB_THREADS i_start i_end i_step Hnb Hr Hst
                (Z.of_nat t + 1) ltac:(lia)) as Hc'.
  pose proof (cut_mono NB_THREADS i_start i_end i_step Hnb Hr Hst
                (Z.of_nat t) (Z.of_nat t + 1) ltac:(lia)) as Hcc.
  set (n := Z.to_nat (cut_at (Z.of_nat t + 1) - cut_at (Z.of_nat t))).
  replace enough with ((enough - (2 * n + 1)) + (2 * n + 1))%nat by lia.
  rewrite iter_add. unfold spawn.
  rewrite (scalar_track U val _ n);
    cbn [thread_data.i_start thread_data.i_end thread_data.i_step
         exact_segment fst snd]; try lia; try int_nia.
  rewrite iter_exited by reflexivity.
  rewrite (stepped_segment NB_THREADS i_start i_end i_step Hnb Hr Hst)
    by lia.
  reflexivity.
Qed.

(** The run in which the workers go one after the other. *)
Lemma scalar_full_run g k :
  stop_threads g = false ->
  let s := run k (one_by_one enough) (launch g U val k ScalarTest i_step plan) in
  all_exited s /\
  stop_threads (shared s) = false /\
  existsb faulted (workers s) = false /\
  forallb exited (workers s) = true /\
  all_indices s = hits U val (stepped i_start i_end i_step).
Proof.
  intros Hstop s.
  destruct (run_one_by_one k enough (launch g U val k ScalarTest i_step plan))
    as [Hws Hstop'].
  { exact Hstop. }
  { cbn [launch workers]. rewrite length_imap. apply length_plan. }
  fold s in Hws, Hstop'. cbn [launch shared U_threads val_threads workers] in Hws.
  assert (Hfinal : workers s =
    imap (fun t seg => {| data := thread_data.make seg.1 seg.2 i_step t;
                          ind_val := hits U val (segment_indices i_step seg);
                          at_pc := Exited |}) plan).
  { rewrite Hws. apply list_eq. intros t.
    rewrite list_lookup_fmap, !list_lookup_imap.
    destruct (plan !! t) as [seg|] eqn:Hseg; [|reflexivity].
    cbn [fmap option_fmap option_map]. f_equal.
    apply scalar_worker_finishes, Hseg. }
  assert (Hex : all_exited s).
  { intros t w Hw. rewrite Hfinal, list_lookup_imap in Hw.
    destruct (plan !! t); inversion Hw. reflexivity. }
  split; [exact Hex|]. split; [exact Hstop'|].
  assert (Hall : forall w, In w (workers s) -> at_pc w = Exited).
  { intros w Hw. apply list_elem_of_In, list_elem_of_lookup in Hw as [t Hw].
    eapply Hex, Hw. }
  split; [|split].
  - destruct (existsb faulted (workers s)) eqn:E; [|reflexivity].
    apply existsb_exists in E as (w & Hw & Hf).
    unfold faulted in Hf. rewrite (Hall w Hw) in Hf. discriminate.
  - apply forallb_forall. intros w Hw. unfold exited. rewrite (Hall w Hw).
    reflexivity.
  - unfold all_indices. rewrite Hfinal.
    destruct inputs_fit as (Hr & Hst & Hmax & Hprod).
    rewrite <- (segments_cover NB_THREADS i_start i_end i_step)
      by (unfold NB_THREADS; lia || assumption).
    rewrite hits_concat. f_equal.
Qed.

End FirstSearch.

(** ** What the threads store *)

Section Buffers.

Variables (vect : bool) (U : list Z) (val : Z).

Lemma load_lanes_eq n : forall i lanes,
  load_lanes n U i = Some lanes ->
  map (fun u => cmp_eq_os (Int.bits u) (Int.bits val)) lanes =
  map (lane_eq U val) (stepped_from n i 1).
Proof.
  induction n as [|n IH]; intros i lanes H; simpl in H.
  - inversion H. reflexivity.
  - destruct (load U i) as [u|] eqn:Eu; simpl in H; [|discriminate].
    destruct (load_lanes n U (i + 1)) as [us|] eqn:E; simpl in H; [|discriminate].
    inversion H; subst lanes. cbn [map stepped_from].
    rewrite (IH _ _ E). f_equal. unfold lane_eq. rewrite Eu. reflexivity.
Qed.

Lemma block_mask_lanes i mask :
  block_mask U i val = Some mask ->
  mask = movemask_ps (map (lane_eq U val) (stepped_from 8 i 1)).
Proof.
  unfold block_mask, loadu_ps.
  destruct (load_lanes 8 U i) as [lanes|] eqn:E; simpl; [|discriminate].
  intros H. inversion H. rewrite (load_lanes_eq _ _ _ E). reflexivity.
Qed.

Lemma found_in_bounds x : found vect U val x -> 0 <= x < Z.of_nat (length U).
Proof.
  intros [H|[_ H]].
  - eapply load_Some, H.
  - unfold lane_eq in H. destruct (load U x) as [u|] eqn:E; [|discriminate].
    eapply load_Some, E.
Qed.

Lemma buffer_snoc lo buf r r' x :
  StronglySorted Z.lt buf ->
  Forall (fun y => lo <= y < r /\ found vect U val y) buf ->
  r <= x < r' -> lo <= x ->
  found vect U val x ->
  StronglySorted Z.lt (buf ++ [x]) /\
  Forall (fun y => lo <= y < r' /\ found vect U val y) (buf ++ [x]).
Proof.
  intros Hs Hf Hx Hlo Hfound. rewrite Forall_forall in Hf. split.
  - apply StronglySorted_app. split; [|split].
    + intros a b Ha Hb. apply list_elem_of_singleton in Hb. subst b.
      destruct (Hf a Ha) as [Ha' _]. lia.
    + assumption.
    + repeat constructor.
  - apply Forall_app. split.
    + apply Forall_forall. intros a Ha. destruct (Hf a Ha) as [Ha' Hfa].
      split; [lia|assumption].
    + apply Forall_cons. split; [|apply Forall_nil; exact I].
      split; [lia|assumption].
Qed.

Lemma buffer_keep lo buf r r' :
  Forall (fun y => lo <= y < r /\ found vect U val y) buf ->
  r <= r' ->
  Forall (fun y => lo <= y < r' /\ found vect U val y) buf.
Proof.
  intros Hf Hle. eapply Forall_impl; [exact Hf|].
  intros y [Hy Hfy]. split; [lia|assumption].
Qed.

(** A step keeps what the thread has stored in order. *)
Lemma thread_step_buffer g w g' w' n :
  segment_ok (data w) -> worker_ok w n -> buffer_ok vect U val w ->
  U_threads g = U -> val_threads g = val ->
  thread_step g w = (g', w') -> buffer_ok vect U val w'.
Proof.
  intros Hseg (Hn & Hle & Hreach & Hpc) (Hsorted & Hall & Hmask & Hvect) HU Hv Hstep.
  pose proof Hseg as (Hlo & Hst & (m & Hm & Hlen) & Hmax).
  destruct w as [d buf p]. cbn [data ind_val at_pc] in *.
  unfold thread_step, scalar_thread_function, vect_thread_function,
    record_hit, goto in Hstep. cbn [data ind_val at_pc] in Hstep.
  rewrite HU, Hv in Hstep. clear HU Hv. unfold buffer_ok.
  destruct p as [i|i|i|i|i j mask|i| |]; cbn [reach pc_ok mask_ok vector_pc] in *.
  - (* ScalarTest *)
    destruct (Z.leb_spec i (thread_data.i_end d));
      [destruct (stop_threads g)|]; injection Hstep as <- <-;
      cbn [data ind_val at_pc mask_ok vector_pc reach];
      (split; [assumption|]); (split; [|auto]);
      (eapply buffer_keep; [exact Hall|lia]).
  - (* ScalarBody *)
    destruct Hpc as [Hal Hi].
    destruct (aligned_next d i Hseg Hal Hi) as [Hal' Hi'].
    pose proof (aligned_ge d i Hseg Hal) as Hge.
    assert (Hx : Int.add i (thread_data.i_step d) = i + thread_data.i_step d)
      by (apply IntFacts.add_small; int_lia).
    rewrite Hx in Hstep.
    destruct (load U i) as [u|] eqn:Hu;
      [destruct (Z.eqb_spec u val) as [->|Hne]|]; injection Hstep as <- <-;
      cbn [data ind_val at_pc mask_ok vector_pc reach].
    + destruct (buffer_snoc (thread_data.i_start d) buf i
                  (i + thread_data.i_step d) i Hsorted Hall)
        as [Hs' Hf']; try lia; [left; exact Hu|auto].
    + split; [assumption|]. split; [|auto].
      eapply buffer_keep; [exact Hall|lia].
    + split; [assumption|]. split; [|auto].
      eapply buffer_keep; [exact Hall|lia].
  - (* VectTest *)
    destruct Hpc as (Hst8 & Hal & Hi).
    assert (vect = true) by (destruct vect; [reflexivity|specialize (Hvect eq_refl); discriminate]).
    destruct (Int.add i 8 <? thread_data.i_end d);
      [destruct (stop_threads g)|]; injection Hstep as <- <-;
      cbn [data ind_val at_pc mask_ok vector_pc reach];
      (split; [assumption|]); (split; [|split; [exact I|congruence]]);
      (eapply buffer_keep; [exact Hall|lia]).
  - (* VectBlock *)
    destruct Hpc as (Hst8 & Hal & Hi).
    assert (vect = true) by (destruct vect; [reflexivity|specialize (Hvect eq_refl); discriminate]).
    destruct (block_mask U i val) as [mask|] eqn:E; injection Hstep as <- <-;
      cbn [data ind_val at_pc mask_ok vector_pc reach];
      (split; [assumption|]).
    + split; [eapply buffer_keep; [exact Hall|lia]|].
      split; [|congruence].
      replace (Z.to_nat (i + 8 - i)) with 8%nat by lia.
      apply block_mask_lanes, E.
    + split; [eapply buffer_keep; [exact Hall|lia]|].
      split; [exact I|congruence].
  - (* VectLane *)
    destruct Hpc as (Hst8 & Hal & Hi & Hj & Hbound).
    assert (Hv1 : vect = true) by (destruct vect; [reflexivity|specialize (Hvect eq_refl); discriminate]).
    destruct (aligned_next d i Hseg Hal ltac:(lia)) as [Hal' Hi'].
    pose proof (aligned_ge d i Hseg Hal) as Hge.
    destruct (Z.eqb_spec mask 0) as [Hz|Hnz].
    { injection Hstep as <- <-;
        cbn [data ind_val at_pc mask_ok vector_pc reach].
      split; [assumption|]. split; [|split; [exact I|congruence]].
      assert (Hx : Int.add i (thread_data.i_step d) = i + thread_data.i_step d)
        by (apply IntFacts.add_small; int_lia).
      rewrite Hx. eapply buffer_keep; [exact Hall|lia]. }
    assert (Hlt : j < i + 8).
    { destruct (Z_lt_ge_dec j (i + 8)); [assumption|].
      replace (i + 8 - j) with 0 in Hbound by lia. simpl in Hbound. lia. }
    assert (Hx : Int.add j 1 = j + 1) by (apply IntFacts.add_small; int_lia).
    rewrite Hx in Hstep.
    replace (Z.to_nat (i + 8 - j)) with (S (Z.to_nat (i + 8 - (j + 1)))) in Hmask
      by lia.
    cbn [stepped_from map] in Hmask.
    assert (Hbit : Z.land mask 1 = Z.b2z (lane_eq U val j))
      by (rewrite Hmask; apply movemask_bit).
    assert (Hshift : Z.shiftr mask 1 =
              movemask_ps (map (lane_eq U val)
                (stepped_from (Z.to_nat (i + 8 - (j + 1))) (j + 1) 1)))
      by (rewrite Hmask; apply movemask_shift).
    rewrite Hbit in Hstep.
    destruct (lane_eq U val j) eqn:Hlane; cbn [Z.b2z Z.eqb] in Hstep;
      injection Hstep as <- <-; cbn [data ind_val at_pc mask_ok vector_pc reach].
    + destruct (buffer_snoc (thread_data.i_start d) buf j (j + 1) j Hsorted Hall)
        as [Hs' Hf']; try lia; [right; auto|].
      split; [assumption|]. split; [assumption|]. split; [assumption|congruence].
    + split; [assumption|].
      split; [eapply buffer_keep; [exact Hall|lia]|].
      split; [assumption|congruence].
  - (* VectTail *)
    assert (Hv1 : vect = true) by (destruct vect; [reflexivity|specialize (Hvect eq_refl); discriminate]).
    assert (Hx : Int.add i 1 = i + 1) by (apply IntFacts.add_small; int_lia).
    rewrite Hx in Hstep.
    destruct (Z.leb_spec i (thread_data.i_end d)).
    + destruct (load U i) as [u|] eqn:Hu;
        [destruct (Z.eqb_spec u val) as [->|Hne]|]; injection Hstep as <- <-;
        cbn [data ind_val at_pc mask_ok vector_pc reach].
      * destruct (buffer_snoc (thread_data.i_start d) buf i (i + 1) i Hsorted Hall)
          as [Hs' Hf']; try lia; [left; exact Hu|].
        split; [assumption|]. split; [assumption|]. split; [exact I|congruence].
      * split; [assumption|].
        split; [eapply buffer_keep; [exact Hall|lia]|].
        split; [exact I|congruence].
      * split; [assumption|].
        split; [eapply buffer_keep; [exact Hall|lia]|].
        split; [exact I|congruence].
    + injection Hstep as <- <-; cbn [data ind_val at_pc mask_ok vector_pc reach].
      split; [assumption|].
      split; [eapply buffer_keep; [exact Hall|lia]|].
      split; [exact I|congruence].
  - injection Hstep as <- <-; cbn [data ind_val at_pc mask_ok vector_pc reach]. auto.
  - injection Hstep as <- <-; cbn [data ind_val at_pc mask_ok vector_pc reach]. auto.
Qed.

End Buffers.

(** ** What the threads have stored, at any point of a call *)

Section Stored.

Variables stale vect : bool.
Variables (U : list Z) (val k i_step : Z) (entry : Z -> pc).
Variable segs : list (Z * Z).
Hypothesis segs_ok : forall t seg,
  segs !! t = Some seg -> segment_ok (thread_data.make seg.1 seg.2 i_step t).
Hypothesis segs_count : length segs = Z.to_nat NB_THREADS.
Hypothesis room_fits : room segs <= INT_MAX.

Local Abbreviation Inv := (invariant stale U val k i_step entry segs).
Local Abbreviation Buf := (buffers_ok vect U val).

Lemma step_buffers s who : Inv s -> Buf s -> Buf (step k s who).
Proof.
  intros Hinv Hbuf. destruct who as [t|]; unfold step.
  - destruct (workers s !! t) as [w|] eqn:Hw; [|exact Hbuf].
    destruct (thread_step (shared s) w) as [g' w'] eqn:Hstep.
    destruct (inv_each _ _ _ _ _ _ _ _ Hinv t w Hw)
      as (seg & n & Hseg & Hn & Hdata & Hok).
    destruct (inv_array _ _ _ _ _ _ _ _ Hinv) as [HU Hval].
    intros t' x Hx. cbn [workers] in Hx.
    destruct (decide (t = t')) as [<-|Hne].
    + rewrite list_lookup_insert_eq in Hx by (eapply lookup_lt_Some, Hw).
      inversion Hx; subst x.
      eapply (thread_step_buffer vect U val (shared s) w g' w' n);
        try eassumption.
      * rewrite Hdata. apply segs_ok, Hseg.
      * apply Hbuf with t, Hw.
    + rewrite list_lookup_insert_ne in Hx by assumption.
      apply Hbuf with t', Hx.
  - destruct (watch s) as [p|]; [|exact Hbuf].
    destruct (watch_nb_find k (shared s) p) as [g' p'].
    intros t' x Hx. apply Hbuf with t', Hx.
Qed.

Lemma run_buffers sched : forall s, Inv s -> Buf s -> Buf (run k sched s).
Proof.
  unfold run. induction sched as [|who sched IH]; intros s Hinv Hbuf.
  - exact Hbuf.
  - cbn [fold_left]. apply IH.
    + apply step_invariant; assumption.
    + apply step_buffers; assumption.
Qed.

Lemma launch_buffers g :
  entry = ScalarTest \/ (entry = VectTest /\ vect = true) ->
  Buf (launch g U val k entry i_step segs).
Proof.
  intros Hentry t w Hw. cbn [launch workers] in Hw.
  rewrite list_lookup_imap in Hw.
  destruct (segs !! t) as [seg|]; [|discriminate].
  inversion Hw; subst w. unfold buffer_ok, spawn. cbn [ind_val at_pc data].
  split; [constructor|]. split; [constructor|].
  destruct Hentry as [->|[-> ->]]; cbn [mask_ok vector_pc];
    split; [exact I|reflexivity|exact I|discriminate].
Qed.

End Stored.

(** *** The threads' indices, put end to end *)

Lemma boundaries_mono (b : nat -> Z) :
  (forall t, b t <= b (S t)) -> forall t t', (t <= t')%nat -> b t <= b t'.
Proof.
  intros Hb t t' Hle. induction Hle as [|t' _ IH]; [lia|].
  specialize (Hb t'). lia.
Qed.

Lemma elem_of_concat (x : Z) (ls : list (list Z)) :
  x ∈ concat ls -> exists t l, ls !! t = Some l /\ x ∈ l.
Proof.
  induction ls as [|l ls IH]; cbn [concat]; intros H.
  - apply elem_of_nil in H as [].
  - apply elem_of_app in H as [H|H].
    + exists 0%nat, l. split; [reflexivity|assumption].
    + destruct (IH H) as (t & l' & Ht & Hx). exists (S t), l'. split; assumption.
Qed.

Lemma sorted_concat (ls : list (list Z)) : forall b : nat -> Z,
  (forall t, b t <= b (S t)) ->
  (forall t l, ls !! t = Some l ->
     StronglySorted Z.lt l /\ Forall (fun x => b t <= x < b (S t)) l) ->
  StronglySorted Z.lt (concat ls).
Proof.
  induction ls as [|l ls IH]; intros b Hb Hls; [constructor|].
  cbn [concat]. apply StronglySorted_app_2.
  - intros x1 x2 H1 H2.
    apply elem_of_concat in H2 as (t & l' & Ht & Hx2).
    destruct (Hls 0%nat l eq_refl) as [_ Hl].
    destruct (Hls (S t) l' Ht) as [_ Hl2].
    rewrite Forall_forall in Hl, Hl2.
    specialize (Hl x1 H1). specialize (Hl2 x2 Hx2).
    pose proof (boundaries_mono b Hb 1 (S t) ltac:(lia)). lia.
  - apply (Hls 0%nat l eq_refl).
  - apply (IH (fun t => b (S t))).
    + intros t. apply Hb.
    + intros t l' Ht. apply (Hls (S t) l' Ht).
Qed.

Lemma sorted_take (l : list Z) n :
  StronglySorted Z.lt l -> StronglySorted Z.lt (take n l).
Proof.
  intros H. rewrite <- (take_drop n l) in H.
  eapply StronglySorted_app_1_l, H.
Qed.

(** *** The indices a call hands back *)

Section StoredCall.

Variables (i_start i_end i_step : Z).
Hypothesis inputs_fit : fits i_start i_end i_step.

Local Abbreviation cut_at := (cut NB_THREADS i_start i_end i_step).
Local Abbreviation plan :=
  (exact_segment NB_THREADS i_start i_end i_step <$> seqZ 0 NB_THREADS).
Local Abbreviation boundary := (fun t : nat => i_start + cut_at (Z.of_nat t) * i_step).

Lemma boundary_mono t : boundary t <= boundary (S t).
Proof.
  destruct inputs_fit as (Hr & Hst & Hmax & Hprod).
  pose proof (cut_mono NB_THREADS i_start i_end i_step ltac:(unfold NB_THREADS; lia)
                Hr Hst (Z.of_nat t) (Z.of_nat (S t)) ltac:(lia)).
  cbv beta. nia.
Qed.

Lemma call_buffers sched g U val k ver entry :
  thread_function ver i_step = Some entry ->
  buffers_ok (ver =? 1) U val (run k sched (launch g U val k entry i_step plan)).
Proof.
  intros Hentry.
  eapply (run_buffers (stop_threads g));
    [apply plan_ok, inputs_fit|apply length_plan|apply room_plan, inputs_fit| |].
  - eapply thread_find_invariant with (sched := []); eassumption.
  - apply launch_buffers.
    destruct (thread_function_cases _ _ _ Hentry) as [[_ ->]|(-> & _ & ->)];
      [left|right; split]; reflexivity.
Qed.

Lemma stored_in_segment stale U val k entry vect s t w x :
  invariant stale U val k i_step entry plan s ->
  buffers_ok vect U val s ->
  workers s !! t = Some w -> x ∈ ind_val w ->
  (t < Z.to_nat NB_THREADS)%nat /\
  boundary t <= x < boundary (S t) /\ found vect U val x.
Proof.
  intros Hinv Hbuf Hw Hx.
  destruct (inv_each _ _ _ _ _ _ _ _ Hinv t w Hw)
    as (seg & n & Hseg & _ & Hdata & _ & _ & Hreach & _).
  destruct (Hbuf t w Hw) as (_ & Hall & _).
  rewrite Forall_forall in Hall. destruct (Hall x Hx) as [Hrange Hfound].
  apply plan_lookup in Hseg as [-> Ht]. rewrite Hdata in Hrange, Hreach.
  cbn [thread_data.i_start thread_data.i_end exact_segment fst snd] in *.
  split; [lia|]. split; [|assumption].
  replace (Z.of_nat (S t)) with (Z.of_nat t + 1) by lia. lia.
Qed.

Lemma all_indices_sorted stale U val k entry vect s :
  invariant stale U val k i_step entry plan s ->
  buffers_ok vect U val s ->
  StronglySorted Z.lt (all_indices s) /\
  forall x, x ∈ all_indices s ->
    i_start <= x < i_start + strides i_start i_end i_step * i_step /\
    found vect U val x.
Proof.
  intros Hinv Hbuf. unfold all_indices. split.
  - apply (sorted_concat _ boundary boundary_mono).
    intros t l Hl. rewrite list_lookup_fmap in Hl.
    destruct (workers s !! t) as [w|] eqn:Hw; [|discriminate].
    inversion Hl; subst l. split; [apply (Hbuf t w Hw)|].
    apply Forall_forall. intros x Hx.
    eapply stored_in_segment; eassumption.
  - intros x Hx. apply elem_of_concat in Hx as (t & l & Hl & Hx).
    rewrite list_lookup_fmap in Hl.
    destruct (workers s !! t) as [w|] eqn:Hw; [|discriminate].
    inversion Hl; subst l.
    destruct (stored_in_segment _ _ _ _ _ _ _ _ _ _ Hinv Hbuf Hw Hx)
      as (Ht & Hrange & Hfound).
    split; [|assumption].
    destruct inputs_fit as (Hr & Hst & Hmax & Hprod).
    assert (Hnb : 0 < NB_THREADS) by (unfold NB_THREADS; lia).
    pose proof (boundaries_mono boundary boundary_mono 0 t ltac:(lia)) as H0.
    pose proof (boundaries_mono boundary boundary_mono (S t)
                  (Z.to_nat NB_THREADS) ltac:(lia)) as H8.
    cbv beta in H0, H8. rewrite Z2Nat.id in H8 by lia.
    change (Z.of_nat 0) with 0 in H0.
    rewrite (cut_0 NB_THREADS i_start i_end i_step Hnb) in H0.
    rewrite (cut_nb NB_THREADS i_start i_end i_step Hnb) in H8.
    cbv beta in Hrange. lia.
Qed.

End StoredCall.

(** * generate_U *)

Lemma wrap_cases z :
  - 2 ^ 32 <= z < 2 ^ 32 ->
  (INT_MIN <= z <= INT_MAX /\ Int.wrap z = z) \/
  (INT_MAX < z /\ Int.wrap z = z - 2 ^ 32) \/
  (z < INT_MIN /\ Int.wrap z = z + 2 ^ 32).
Proof.
  intros Hz. unfold Int.wrap, Int.min_signed, Int.max_signed.
  change (2 ^ 31) with 2147483648 in *. change (2 ^ 32) with 4294967296 in *.
  destruct (Z_lt_ge_dec z (-2147483648)) as [Hlo|Hlo].
  - right. right. split; [lia|].
    replace (z + 2147483648) with (z + 4294967296 + 2147483648 + (-1) * 4294967296) by lia.
    rewrite Z_mod_plus_full, Z.mod_small by lia. lia.
  - destruct (Z_le_gt_dec z 2147483647) as [Hhi|Hhi].
    + left. split; [lia|]. rewrite Z.mod_small by lia. lia.
    + right. left. split; [lia|].
      replace (z + 2147483648) with (z - 4294967296 + 2147483648 + 1 * 4294967296) by lia.
      rewrite Z_mod_plus_full, Z.mod_small by lia. lia.
Qed.

Section Generate.

Variable rand : nat -> Z.
Hypothesis rand_range : forall c, 0 <= rand c <= INT_MAX.
Variables (nb_items min_val max_val : Z).

(** The divisor of [rand() % (max_val - min_val + 1)]. *)
Local Abbreviation span := (Int.add (Int.sub max_val min_val) 1).

Lemma modulo_rand c d :
  d <> 0 -> Int.modulo (rand c) d = Some (Z.rem (rand c) d).
Proof.
  intros Hd. unfold Int.modulo. pose proof (rand_range c) as Hr.
  destruct (Z.eqb_spec d 0); [contradiction|].
  destruct (Z.eqb_spec (rand c) Int.min_signed) as [E|_]; [|reflexivity].
  rewrite E in Hr. unfold Int.min_signed in Hr. lia.
Qed.

(** The loop with [m] cells to go, for a range that fits in [int]. *)
Lemma generate_U_loop_run m : forall fuel calls i U,
  Int.in_range min_val -> Int.in_range max_val ->
  min_val <= max_val -> max_val - min_val < INT_MAX ->
  Z.of_nat m = Z.max 0 (nb_items - i) -> 0 <= i -> nb_items <= INT_MAX ->
  (m < fuel)%nat ->
  generate_U_loop fuel rand calls nb_items min_val max_val i U =
  Returned (U ++ map (fun c => rand c mod (max_val - min_val + 1) + min_val)
                     (seq calls m),
            (calls + m)%nat).
Proof.
  induction m as [|m IH]; intros fuel calls i U Hmin Hmax Hle Hspan Hm Hi Hnb Hfuel;
    (destruct fuel as [|fuel]; [lia|]); cbn [generate_U_loop].
  - destruct (Z.ltb_spec i nb_items); [lia|].
    cbn [seq map]. rewrite app_nil_r, Nat.add_0_r. reflexivity.
  - destruct (Z.ltb_spec i nb_items); [|lia].
    assert (Hd : span = max_val - min_val + 1).
    { unfold Int.in_range in *. rewrite IntFacts.sub_small by int_lia.
      apply IntFacts.add_small. int_lia. }
    rewrite Hd, modulo_rand by lia.
    pose proof (rand_range calls) as Hr.
    rewrite Z.rem_mod_nonneg by lia.
    pose proof (Z.mod_pos_bound (rand calls) (max_val - min_val + 1) ltac:(lia)).
    rewrite (IntFacts.add_small i 1) by int_lia.
    rewrite (IntFacts.add_small _ min_val) by (unfold Int.in_range in *; int_lia).
    rewrite IH by (assumption || lia).
    cbn [seq map]. rewrite <- app_assoc. cbn [app].
    f_equal. f_equal. lia.
Qed.

(** With a divisor other than 0 no round traps. *)
Lemma generate_U_loop_no_trap fuel : forall calls i U,
  span <> 0 ->
  generate_U_loop fuel rand calls nb_items min_val max_val i U <> Crash.
Proof.
  induction fuel as [|fuel IH]; intros calls i U Hd; cbn [generate_U_loop].
  - discriminate.
  - destruct (i <? nb_items); [|discriminate].
    rewrite modulo_rand by assumption. apply IH, Hd.
Qed.

Lemma span_zero :
  Int.in_range min_val -> Int.in_range max_val ->
  span = 0 <->
  max_val = min_val - 1 \/ (min_val = INT_MIN /\ max_val = INT_MAX).
Proof.
  unfold Int.in_range, Int.add, Int.sub. intros Hmin Hmax.
  destruct (wrap_cases (max_val - min_val) ltac:(int_lia))
    as [[H1 ->]|[[H1 ->]|[H1 ->]]].
  - destruct (wrap_cases (max_val - min_val + 1) ltac:(int_lia))
      as [[H2 ->]|[[H2 ->]|[H2 ->]]]; int_lia.
  - destruct (wrap_cases (max_val - min_val - 2 ^ 32 + 1) ltac:(int_lia))
      as [[H2 ->]|[[H2 ->]|[H2 ->]]]; int_lia.
  - destruct (wrap_cases (max_val - min_val + 2 ^ 32 + 1) ltac:(int_lia))
      as [[H2 ->]|[[H2 ->]|[H2 ->]]]; int_lia.
Qed.

(** The array of a range that fits in [int]. *)
Lemma generate_U_run fuel calls :
  Int.in_range min_val -> Int.in_range max_val ->
  min_val <= max_val -> max_val - min_val < INT_MAX ->
  nb_items <= INT_MAX -> (Z.to_nat nb_items < fuel)%nat ->
  exists U,
    generate_U fuel rand calls nb_items min_val max_val =
      Returned (U, (calls + Z.to_nat nb_items)%nat) /\
    length U = Z.to_nat nb_items /\
    (forall i, (i < Z.to_nat nb_items)%nat ->
       U !! i = Some (rand (calls + i)%nat mod (max_val - min_val + 1) + min_val)) /\
    Forall (fun u => min_val <= u <= max_val) U.
Proof.
  intros Hmin Hmax Hle Hspan Hnb Hfuel.
  eexists. split.
  { unfold generate_U.
    rewrite (generate_U_loop_run (Z.to_nat nb_items)) by (assumption || lia).
    cbn [app]. reflexivity. }
  split; [rewrite length_map, length_seq; reflexivity|].
  split.
  - intros i Hi. rewrite list_lookup_fmap, lookup_seq_lt by assumption.
    reflexivity.
  - apply Forall_forall. intros u Hu.
    apply list_elem_of_fmap in Hu as (c & -> & _).
    pose proof (Z.mod_pos_bound (rand c) (max_val - min_val + 1) ltac:(lia)).
    lia.
Qed.

Lemma generate_U_loop_more_fuel k : forall fuel calls i U r,
  generate_U_loop fuel rand calls nb_items min_val max_val i U = r ->
  r <> OutOfFuel ->
  generate_U_loop (fuel + k) rand calls nb_items min_val max_val i U = r.
Proof.
  induction fuel as [|fuel IH]; intros calls i U r Hr Hne; simpl in *.
  - congruence.
  - destruct (i <? nb_items); [|assumption].
    destruct (Int.modulo (rand calls) span); [|assumption].
    apply IH; assumption.
Qed.

(** Whatever the fuel, an array that is handed back is that array. *)
Lemma generate_U_returned fuel calls U calls' :
  Int.in_range min_val -> Int.in_range max_val ->
  min_val <= max_val -> max_val - min_val < INT_MAX ->
  nb_items <= INT_MAX ->
  generate_U fuel rand calls nb_items min_val max_val = Returned (U, calls') ->
  length U = Z.to_nat nb_items /\
  Forall (fun u => min_val <= u <= max_val) U.
Proof.
  intros Hmin Hmax Hle Hspan Hnb Hr. unfold generate_U in Hr.
  apply (generate_U_loop_more_fuel (S (Z.to_nat nb_items))) in Hr; [|discriminate].
  destruct (generate_U_run (fuel + S (Z.to_nat nb_items)) calls)
    as (U' & Hr' & Hlen & _ & Hall); try assumption; try lia.
  unfold generate_U in Hr'. rewrite Hr in Hr'. inversion Hr'; subst U'.
  split; assumption.
Qed.

End Generate.

(** * What find and vect_find hand back, whatever the inputs *)

Lemma wrap_wrap_add a b : Int.wrap (Int.wrap a + b) = Int.wrap (a + b).
Proof.
  unfold Int.wrap.
  replace ((a + 2 ^ 31) mod 2 ^ 32 - 2 ^ 31 + b + 2 ^ 31)
    with ((a + 2 ^ 31) mod 2 ^ 32 + b) by lia.
  rewrite Zplus_mod_idemp_l. do 2 f_equal. lia.
Qed.

Lemma counted_nil : counted 0 [].
Proof. reflexivity. Qed.

Lemma counted_snoc nb buf x :
  counted nb buf -> counted (Int.add nb 1) (buf ++ [x]).
Proof.
  unfold counted, Int.add. intros ->.
  rewrite wrap_wrap_add, length_app. cbn [length]. f_equal. lia.
Qed.

Lemma counted_small nb buf :
  counted nb buf -> Z.of_nat (length buf) <= INT_MAX ->
  nb = Z.of_nat (length buf).
Proof. unfold counted. intros -> H. apply IntFacts.wrap_small. int_lia. Qed.

Section Sound.

Variables (U : list Z) (val : Z).
Variable Q : Z -> Prop.

(** The loop of [find] stores an index only after it has read [val] there. *)
Lemma find_loop_sound i_end i_step fuel : forall i nb buf n l,
  (forall x, load U x = Some val -> Q x) ->
  find_loop fuel U i_end i_step val i nb buf = Returned (n, l) ->
  counted nb buf -> Forall Q buf ->
  counted n l /\ Forall Q l.
Proof.
  intros i nb buf n l HQ. revert i nb buf.
  induction fuel as [|fuel IH]; intros i nb buf Hr Hc Hf; cbn [find_loop] in Hr.
  - discriminate.
  - destruct (i <=? i_end).
    + destruct (load U i) as [u|] eqn:Hu; [|discriminate].
      destruct (Z.eqb_spec u val) as [->|Hne].
      * eapply IH; [exact Hr|apply counted_snoc, Hc|].
        apply Forall_app. split; [assumption|].
        apply Forall_cons. split; [apply HQ, Hu|apply Forall_nil; exact I].
      * eapply IH; eassumption.
    + inversion Hr; subst. split; assumption.
Qed.

(** The inner loop stores the lanes that are set. *)
Lemma lanes_loop_sound lanes : forall n room j nb buf nb' buf',
  Int.in_range j -> j + Z.of_nat (length lanes) <= INT_MAX ->
  lanes_loop n room j (movemask_ps lanes) nb buf = Some (nb', buf') ->
  counted nb buf -> Forall Q buf ->
  Forall Q (lane_indices j lanes) ->
  counted nb' buf' /\ Forall Q buf'.
Proof.
  induction lanes as [|b lanes IH];
    intros n room j nb buf nb' buf' Hj Hmax Hr Hc Hf Hl.
  - destruct n; unfold lanes_loop in Hr; cbn in Hr; inversion Hr; subst;
      split; assumption.
  - destruct n as [|n];
      [unfold lanes_loop in Hr; inversion Hr; subst; split; assumption|].
    cbn [length] in Hmax. unfold lanes_loop in Hr; fold lanes_loop in Hr.
    destruct (Z.eqb_spec (movemask_ps (b :: lanes)) 0) as [E|E];
      [inversion Hr; subst; split; assumption|].
    rewrite movemask_shift, movemask_bit in Hr.
    rewrite (IntFacts.add_small j 1) in Hr by int_lia.
    cbn [lane_indices] in Hl. apply Forall_app in Hl as [Hb Hl].
    destruct b; simpl Z.b2z in Hr; simpl Z.eqb in Hr.
    + destruct (in_room room nb); [|discriminate].
      eapply IH; [| |exact Hr|apply counted_snoc, Hc| |assumption]; try int_lia.
      apply Forall_app. split; assumption.
    + eapply IH; [| |exact Hr| | |]; try int_lia; assumption.
Qed.

Lemma load_lanes_bounds n : forall i lanes,
  load_lanes n U i = Some lanes -> (0 < n)%nat ->
  0 <= i /\ i + Z.of_nat n <= Z.of_nat (length U).
Proof.
  induction n as [|n IH]; intros i lanes H Hn; [lia|]. simpl in H.
  destruct (load U i) as [u|] eqn:Eu; simpl in H; [|discriminate].
  destruct (load_lanes n U (i + 1)) as [us|] eqn:E; simpl in H; [|discriminate].
  apply load_Some in Eu. destruct n as [|n]; [lia|].
  destruct (IH _ _ E ltac:(lia)). lia.
Qed.

(** The first loop of [vect_find] stores the cells whose lane compared
    equal, whatever the table. *)
Lemma vect_loop_sound table i_end i_step fuel : forall i nb buf i' n l,
  (forall x, lane_eq U val x = true -> Q x) ->
  Z.of_nat (length U) <= INT_MAX ->
  vect_loop fuel table U i_end i_step val i nb buf = Returned (i', n, l) ->
  counted nb buf -> Forall Q buf ->
  counted n l /\ Forall Q l.
Proof.
  intros i nb buf i' n l HQ Hlen. revert i nb buf.
  induction fuel as [|fuel IH]; intros i nb buf Hr Hc Hf; cbn [vect_loop] in Hr.
  - discriminate.
  - destruct (Int.add i 8 <? i_end).
    + destruct (block_mask U i val) as [mask|] eqn:Hmask; [|discriminate].
      destruct (mask =? 0); [eapply IH; eassumption|].
      destruct (block_room table nb mask) as [room|]; [|discriminate].
      unfold block_mask, loadu_ps in Hmask.
      destruct (load_lanes 8 U i) as [lanes|] eqn:E; simpl in Hmask; [|discriminate].
      injection Hmask as Hm. subst mask.
      destruct (load_lanes_bounds _ _ _ E ltac:(lia)) as [Hi Hi8].
      pose proof (load_lanes_length _ _ _ _ E) as Hl8.
      set (bs := map (fun u => cmp_eq_os (Int.bits u) (Int.bits val)) lanes) in *.
      assert (Hbs : length bs = 8%nat) by (subst bs; rewrite length_map; exact Hl8).
      destruct (lanes_loop 8 room i (movemask_ps bs) nb buf) as [[nb' buf']|] eqn:El;
        [|discriminate].
      destruct (lanes_loop_sound bs 8 room i nb buf nb' buf') as [Hc' Hf'];
        try assumption; rewrite ?Hbs; try int_lia.
      { subst bs. rewrite (load_lanes_hits U val 8 i lanes E).
        apply Forall_forall. intros x Hx.
        apply list_elem_of_filter in Hx as [Hx _]. apply HQ, Hx. }
      eapply IH; eassumption.
    + inversion Hr; subst. split; assumption.
Qed.

End Sound.

(** * A thread does on its segment what the sequential function does *)

Section Simulation.

Variables (U : list Z) (val : Z).

Lemma arrives_refl n w : arrives U val n w w.
Proof. exists 0%nat. split; [lia|reflexivity]. Qed.

Lemma arrives_step n w w' :
  arrives U val n (idle_step U val w) w' -> arrives U val (S n) w w'.
Proof.
  intros (steps & Hle & Heq). exists (S steps). split; [lia|].
  rewrite Nat.iter_succ_r. exact Heq.
Qed.

Lemma arrives_trans n m w w' w'' :
  arrives U val n w w' -> arrives U val m w' w'' ->
  arrives U val (n + m) w w''.
Proof.
  intros (s1 & H1 & E1) (s2 & H2 & E2). exists (s2 + s1)%nat.
  split; [lia|]. rewrite iter_add, E1. exact E2.
Qed.

Lemma arrives_le n m w w' :
  arrives U val n w w' -> (n <= m)%nat -> arrives U val m w w'.
Proof. intros (s & H & E) Hle. exists s. split; [lia|exact E]. Qed.

(** Once it has exited a thread stays where it is. *)
Lemma arrives_exited n w w' N :
  arrives U val n w w' -> at_pc w' = Exited -> (n <= N)%nat ->
  Nat.iter N (idle_step U val) w = w'.
Proof.
  intros (s & Hs & E) Hex HN.
  replace N with ((N - s) + s)%nat by lia.
  rewrite iter_add, E. apply iter_exited, Hex.
Qed.

(** *** The scalar thread and [find] *)

Lemma scalar_thread_simulates d fuel : forall i nb buf n l,
  find_loop fuel U (thread_data.i_end d) (thread_data.i_step d) val i nb buf =
    Returned (n, l) ->
  arrives U val (2 * fuel)
    {| data := d; ind_val := buf; at_pc := ScalarTest i |}
    {| data := d; ind_val := l; at_pc := Exited |}.
Proof.
  induction fuel as [|fuel IH]; intros i nb buf n l Hr; cbn [find_loop] in Hr.
  - discriminate.
  - replace (2 * S fuel)%nat with (S (S (2 * fuel))) by lia.
    apply arrives_step. rewrite idle_step_scalar_test.
    destruct (i <=? thread_data.i_end d).
    + destruct (load U i) as [u|] eqn:Hu; [|discriminate].
      apply arrives_step. rewrite (idle_step_scalar_body U val d buf i u Hu).
      destruct (u =? val); eapply IH, Hr.
    + inversion Hr; subst. apply arrives_refl.
Qed.

(** *** The vectorised thread and [vect_find] *)

Lemma idle_step_vect_test d buf i :
  idle_step U val {| data := d; ind_val := buf; at_pc := VectTest i |} =
  {| data := d; ind_val := buf;
     at_pc := if Int.add i 8 <? thread_data.i_end d
              then VectBlock i else VectTail i |}.
Proof.
  unfold idle_step, thread_step, vect_thread_function, goto, idle_globals.
  cbn [at_pc data ind_val stop_threads].
  destruct (Int.add i 8 <? thread_data.i_end d); reflexivity.
Qed.

Lemma idle_step_vect_block d buf i mask :
  block_mask U i val = Some mask ->
  idle_step U val {| data := d; ind_val := buf; at_pc := VectBlock i |} =
  {| data := d; ind_val := buf; at_pc := VectLane i i mask |}.
Proof.
  intros Hm.
  unfold idle_step, thread_step, vect_thread_function, goto, idle_globals.
  cbn [at_pc data ind_val stop_threads U_threads val_threads]. rewrite Hm.
  reflexivity.
Qed.

Lemma idle_step_vect_lane d buf i j mask :
  idle_step U val {| data := d; ind_val := buf; at_pc := VectLane i j mask |} =
  if mask =? 0 then
    {| data := d; ind_val := buf;
       at_pc := VectTest (Int.add i (thread_data.i_step d)) |}
  else
    {| data := d;
       ind_val := if Z.land mask 1 =? 0 then buf else buf ++ [j];
       at_pc := VectLane i (Int.add j 1) (Z.shiftr mask 1) |}.
Proof.
  unfold idle_step, thread_step, vect_thread_function, record_hit, goto,
    idle_globals.
  cbn [at_pc data ind_val stop_threads U_threads val_threads].
  destruct (mask =? 0); [reflexivity|].
  destruct (Z.land mask 1 =? 0); reflexivity.
Qed.

Lemma idle_step_vect_tail d buf i :
  idle_step U val {| data := d; ind_val := buf; at_pc := VectTail i |} =
  if i <=? thread_data.i_end d then
    match load U i with
    | None => {| data := d; ind_val := buf; at_pc := Faulted |}
    | Some u =>
        {| data := d;
           ind_val := if u =? val then buf ++ [i] else buf;
           at_pc := VectTail (Int.add i 1) |}
    end
  else {| data := d; ind_val := buf; at_pc := Exited |}.
Proof.
  unfold idle_step, thread_step, vect_thread_function, record_hit, goto,
    idle_globals.
  cbn [at_pc data ind_val stop_threads U_threads val_threads].
  destruct (i <=? thread_data.i_end d); [|reflexivity].
  destruct (load U i) as [u|]; [|reflexivity].
  destruct (u =? val); reflexivity.
Qed.

(** The inner loop: a mask of [n] bits is decoded in [n + 1] steps. *)
Lemma lane_thread_simulates d i n : forall room j mask nb buf nb' buf',
  0 <= mask < 2 ^ Z.of_nat n ->
  lanes_loop n room j mask nb buf = Some (nb', buf') ->
  arrives U val (S n)
    {| data := d; ind_val := buf; at_pc := VectLane i j mask |}
    {| data := d; ind_val := buf';
       at_pc := VectTest (Int.add i (thread_data.i_step d)) |}.
Proof.
  induction n as [|n IH]; intros room j mask nb buf nb' buf' Hmask Hr;
    apply arrives_step; rewrite idle_step_vect_lane.
  - assert (mask = 0) by (change (2 ^ Z.of_nat 0) with 1 in Hmask; lia).
    subst mask. unfold lanes_loop in Hr. inversion Hr; subst. apply arrives_refl.
  - unfold lanes_loop in Hr; fold lanes_loop in Hr.
    destruct (Z.eqb_spec mask 0) as [->|Hne].
    + inversion Hr; subst. apply arrives_refl.
    + assert (Hhalf : 0 <= Z.shiftr mask 1 < 2 ^ Z.of_nat n).
      { rewrite Z.shiftr_div_pow2 by lia. change (2 ^ 1) with 2.
        rewrite Nat2Z.inj_succ, Z.pow_succ_r in Hmask by lia.
        split; [apply Z.div_pos; lia|apply Z.div_lt_upper_bound; lia]. }
      destruct (Z.land mask 1 =? 0); [eapply IH; eassumption|].
      destruct (in_room room nb); [|discriminate].
      eapply IH; eassumption.
Qed.

Lemma vect_thread_simulates table d fuel : forall i nb buf i' n l,
  vect_loop fuel table U (thread_data.i_end d) (thread_data.i_step d) val
    i nb buf = Returned (i', n, l) ->
  arrives U val (11 * fuel)
    {| data := d; ind_val := buf; at_pc := VectTest i |}
    {| data := d; ind_val := l; at_pc := VectTail i' |}.
Proof.
  induction fuel as [|fuel IH]; intros i nb buf i' n l Hr; cbn [vect_loop] in Hr.
  - discriminate.
  - replace (11 * S fuel)%nat with (S (S (9 + 11 * fuel))) by lia.
    apply arrives_step. rewrite idle_step_vect_test.
    destruct (Int.add i 8 <? thread_data.i_end d).
    + destruct (block_mask U i val) as [mask|] eqn:Hm; [|discriminate].
      apply arrives_step. rewrite (idle_step_vect_block d buf i mask Hm).
      pose proof (block_mask_bound _ _ _ _ Hm) as Hb.
      destruct (Z.eqb_spec mask 0) as [->|Hne].
      * eapply arrives_trans; [|eapply IH, Hr].
        apply (lane_thread_simulates d i 8 0 i 0 nb buf nb buf Hb).
        reflexivity.
      * destruct (block_room table nb mask) as [room|]; [|discriminate].
        destruct (lanes_loop 8 room i mask nb buf) as [[nb' buf']|] eqn:El;
          [|discriminate].
        eapply arrives_trans; [|eapply IH, Hr].
        apply (lane_thread_simulates d i 8 room i mask nb buf nb' buf' Hb El).
    + inversion Hr; subst. apply arrives_refl.
Qed.

Lemma tail_thread_simulates d fuel : forall i nb buf n l,
  find_loop fuel U (thread_data.i_end d) 1 val i nb buf = Returned (n, l) ->
  arrives U val fuel
    {| data := d; ind_val := buf; at_pc := VectTail i |}
    {| data := d; ind_val := l; at_pc := Exited |}.
Proof.
  induction fuel as [|fuel IH]; intros i nb buf n l Hr; cbn [find_loop] in Hr.
  - discriminate.
  - apply arrives_step. rewrite idle_step_vect_tail.
    destruct (i <=? thread_data.i_end d).
    + destruct (load U i) as [u|] eqn:Hu; [|discriminate].
      destruct (u =? val); eapply IH, Hr.
    + inversion Hr; subst. apply arrives_refl.
Qed.

(** A vectorised thread that is never told to stop stores what
    [vect_find] returns on its segment, whatever the table with which
    [vect_find] gets there. *)
Lemma vect_thread_is_vect_find table fuel t i_step seg n l :
  vect_find fuel table U seg.1 seg.2 i_step val = Returned (n, Some l) ->
  arrives U val (12 * fuel) (spawn VectTest i_step t seg)
    {| data := thread_data.make seg.1 seg.2 i_step t;
       ind_val := l; at_pc := Exited |}.
Proof.
  unfold vect_find. destruct (negb (Int.rem i_step 8 =? 0)); [discriminate|].
  destruct (vect_loop fuel table U seg.2 i_step val seg.1 0 [])
    as [[[i nb] buf]| | |] eqn:E1; try discriminate.
  destruct (find_loop fuel U seg.2 1 val i nb buf) as [[n' l']| | |] eqn:E2;
    try discriminate.
  intros Hr. inversion Hr; subst n' l'.
  replace (12 * fuel)%nat with (11 * fuel + fuel)%nat by lia.
  eapply arrives_trans.
  - apply (vect_thread_simulates table (thread_data.make seg.1 seg.2 i_step t)
             fuel seg.1 0 [] i nb buf E1).
  - apply (tail_thread_simulates (thread_data.make seg.1 seg.2 i_step t)
             fuel i nb buf n l E2).
Qed.

(** So does a scalar thread with [find]. *)
Lemma scalar_thread_is_find fuel t i_step seg n l :
  find fuel U seg.1 seg.2 i_step val = Returned (n, l) ->
  arrives U val (2 * fuel) (spawn ScalarTest i_step t seg)
    {| data := thread_data.make seg.1 seg.2 i_step t;
       ind_val := l; at_pc := Exited |}.
Proof.
  intros Hr.
  apply (scalar_thread_simulates (thread_data.make seg.1 seg.2 i_step t)
           fuel seg.1 0 [] n l Hr).
Qed.

End Simulation.

(** * A search entered with the flag clear, vectorised strategy *)

Section AlignedScan.

Variables (U : list Z) (val : Z).

(** [vect_find], the table filled, on a range that is a whole number of
    strides, as the segments of the planner are. *)
Lemma vect_find_run_aligned lo hi i_step fuel n :
  0 <= lo -> hi < Z.of_nat (length U) ->
  0 < i_step -> Int.rem i_step 8 = 0 ->
  0 <= n -> hi + 1 - lo = n * i_step -> hi + 9 <= INT_MAX ->
  (Z.to_nat (hi + 1 - lo) < fuel)%nat ->
  vect_find fuel (ones <$> seqZ 0 256) U lo hi i_step val =
  Returned (Z.of_nat (length (vect_scan U val i_step (lo, hi))),
            Some (vect_scan U val i_step (lo, hi))).
Proof.
  intros Hs Hlen Hst Hrem Hn Hal Hmax Hfuel.
  unfold vect_scan. cbn [fst snd].
  set (m := Z.to_nat (blocks lo hi i_step)).
  set (i := lo + Z.of_nat m * i_step).
  assert (Hst8 : 8 <= i_step).
  { unfold Int.rem in Hrem. apply Z.rem_divide in Hrem; [|lia].
    destruct Hrem as [q Hq]. lia. }
  unfold vect_find. rewrite Hrem. cbn [Z.eqb negb].
  assert (Hm : (0 < m)%nat ->
               lo + (Z.of_nat m - 1) * i_step + 8 < hi /\
               hi <= lo + Z.of_nat m * i_step + 8).
  { intros Hpos. subst m. unfold blocks in *.
    destruct (Z_le_gt_dec (lo + 9) hi) as [Hle|Hgt].
    - pose proof (strides_bounds (lo + 9) hi i_step Hst Hle).
      rewrite Z2Nat.id by lia. lia.
    - pose proof (strides_empty (lo + 9) hi i_step Hst ltac:(lia)). lia. }
  assert (Hm0 : m = 0%nat -> hi <= lo + 8).
  { intros H0. subst m. unfold blocks in *.
    destruct (Z_le_gt_dec (lo + 9) hi) as [Hle|Hgt]; [|lia].
    pose proof (strides_bounds (lo + 9) hi i_step Hst Hle). lia. }
  assert (Hhi : hi <= lo + Z.of_nat m * i_step + 8).
  { destruct m as [|m']; [specialize (Hm0 eq_refl); lia|].
    apply Hm. lia. }
  assert (Hmn : Z.of_nat m <= n).
  { destruct m as [|m']; [lia|].
    destruct (Hm ltac:(lia)) as [Hlo _]. nia. }
  assert (Hi : i <= hi + 1) by (subst i; nia).
  assert (Hmw : Z.of_nat m <= hi + 1 - lo) by nia.
  rewrite (vect_loop_run U val _ eq_refl hi i_step m); try lia; try int_nia.
  fold i. cbn [Z.add].
  pose proof (length_lane_hits U val (block_cells m lo i_step)) as Hblk.
  rewrite length_block_cells in Hblk.
  assert (Hcells : 8 * Z.of_nat m + hi - i + 1 <= hi - lo + 1) by (subst i; nia).
  destruct (Z_le_gt_dec i hi) as [Hie|Hie].
  - rewrite (find_loop_run U val hi 1 (Z.to_nat (hi - i + 1)));
      try lia; try int_nia.
    rewrite length_app, Nat2Z.inj_add. reflexivity.
  - destruct fuel as [|fuel]; [lia|].
    rewrite find_loop_done by lia.
    replace (Z.to_nat (hi - i + 1)) with 0%nat by lia.
    cbn [stepped_from]. unfold hits. rewrite filter_nil, app_nil_r.
    rewrite Z.add_0_l. reflexivity.
Qed.

End AlignedScan.

Section VectFirstSearch.

Variables (i_start i_end i_step : Z).
Hypothesis inputs_fit : fits i_start i_end i_step.
Hypothesis step_accepted : Int.rem i_step 8 = 0.
Variables (U : list Z) (val : Z).
Hypothesis segments_in_array :
  i_start + strides i_start i_end i_step * i_step <= Z.of_nat (length U).

Local Abbreviation seg_of := (exact_segment NB_THREADS i_start i_end i_step).
Local Abbreviation cut_at := (cut NB_THREADS i_start i_end i_step).
Local Abbreviation plan := (seg_of <$> seqZ 0 NB_THREADS).
Local Abbreviation patience :=
  (12 * S (Z.to_nat (strides i_start i_end i_step * i_step)))%nat.

(** Where a vectorised worker ends when it is never told to stop. *)
Lemma vect_worker_finishes t seg :
  plan !! t = Some seg ->
  Nat.iter patience (idle_step U val) (spawn VectTest i_step t seg) =
  {| data := thread_data.make seg.1 seg.2 i_step t;
     ind_val := vect_scan U val i_step seg;
     at_pc := Exited |}.
Proof.
  intros Hseg. apply plan_lookup in Hseg as [-> Ht].
  destruct inputs_fit as (Hr & Hst & Hmax & Hprod).
  assert (Hnb : 0 < NB_THREADS) by (unfold NB_THREADS; lia).
  pose proof (M_bounds i_start i_end i_step Hr Hst) as (HM & Hlo & Hhi).
  pose proof (cut_range NB_THREADS i_start i_end i_step Hnb Hr Hst
                (Z.of_nat t) ltac:(lia)) as Hc.
  pose proof (cut_range NB_THREADS i_start i_end i_step Hnb Hr Hst
                (Z.of_nat t + 1) ltac:(lia)) as Hc'.
  pose proof (cut_mono NB_THREADS i_start i_end i_step Hnb Hr Hst
                (Z.of_nat t) (Z.of_nat t + 1) ltac:(lia)) as Hcc.
  eapply arrives_exited; [|reflexivity|reflexivity].
  apply vect_thread_is_vect_find
    with (table := ones <$> seqZ 0 256)
         (n := Z.of_nat (length (vect_scan U val i_step (seg_of (Z.of_nat t))))).
  set (seg := seg_of (Z.of_nat t)).
  replace seg with (seg.1, seg.2) at 2 3 by (destruct seg; reflexivity).
  subst seg. cbn [exact_segment fst snd].
  apply (vect_find_run_aligned U val _ _ i_step _
           (cut_at (Z.of_nat t + 1) - cut_at (Z.of_nat t)));
    try assumption; try lia; try nia; try int_nia.
Qed.

(** The run in which the workers go one after the other. *)
Lemma vect_full_run g k :
  stop_threads g = false ->
  let s := run k (one_by_one patience) (launch g U val k VectTest i_step plan) in
  all_exited s /\
  stop_threads (shared s) = false /\
  existsb faulted (workers s) = false /\
  forallb exited (workers s) = true /\
  all_indices s = concat (vect_scan U val i_step <$> plan).
Proof.
  intros Hstop s.
  destruct (run_one_by_one k patience (launch g U val k VectTest i_step plan))
    as [Hws Hstop'].
  { exact Hstop. }
  { cbn [launch workers]. rewrite length_imap. apply length_plan. }
  fold s in Hws, Hstop'. cbn [launch shared U_threads val_threads workers] in Hws.
  assert (Hfinal : workers s =
    imap (fun t seg => {| data := thread_data.make seg.1 seg.2 i_step t;
                          ind_val := vect_scan U val i_step seg;
                          at_pc := Exited |}) plan).
  { rewrite Hws. apply list_eq. intros t.
    rewrite list_lookup_fmap, !list_lookup_imap.
    destruct (plan !! t) as [seg|] eqn:Hseg; [|reflexivity].
    cbn [fmap option_fmap option_map]. f_equal.
    apply vect_worker_finishes, Hseg. }
  assert (Hex : all_exited s).
  { intros t w Hw. rewrite Hfinal, list_lookup_imap in Hw.
    destruct (plan !! t); inversion Hw. reflexivity. }
  split; [exact Hex|]. split; [exact Hstop'|].
  assert (Hall : forall w, In w (workers s) -> at_pc w = Exited).
  { intros w Hw. apply list_elem_of_In, list_elem_of_lookup in Hw as [t Hw].
    eapply Hex, Hw. }
  split; [|split].
  - destruct (existsb faulted (workers s)) eqn:E; [|reflexivity].
    apply existsb_exists in E as (w & Hw & Hf).
    unfold faulted in Hf. rewrite (Hall w Hw) in Hf. discriminate.
  - apply forallb_forall. intros w Hw. unfold exited. rewrite (Hall w Hw).
    reflexivity.
  - unfold all_indices. rewrite Hfinal. f_equal.
Qed.

End VectFirstSearch.

(** *** When the lanes compare as integers do *)

Section VectBlocks.

Variables (U : list Z) (val : Z).
Hypothesis lanes_exact : lanes_agree U val.

Lemma block_cells_app a b i st :
  block_cells (a + b) i st =
  block_cells a i st ++ block_cells b (i + Z.of_nat a * st) st.
Proof.
  revert i. induction a as [|a IH]; intros i.
  - cbn [block_cells Nat.add app]. f_equal. lia.
  - cbn [block_cells Nat.add]. rewrite IH, <- app_assoc. do 3 f_equal. lia.
Qed.

(** On a segment of [n] whole strides the scan is the scan of the eight
    cells at the start of each stride. *)
Lemma vect_scan_blocks lo hi i_step n :
  0 < i_step -> Int.rem i_step 8 = 0 ->
  0 <= n -> hi + 1 - lo = n * i_step ->
  vect_scan U val i_step (lo, hi) =
  hits U val (block_cells (Z.to_nat n) lo i_step).
Proof.
  intros Hst Hrem Hn Hal. unfold vect_scan. cbn [fst snd].
  rewrite (lane_hits_agree U val _ lanes_exact), <- hits_app. f_equal.
  unfold Int.rem in Hrem. apply Z.rem_divide in Hrem; [|lia].
  destruct Hrem as [q Hq]. unfold blocks, strides.
  replace (hi - (lo + 9)) with (n * i_step - 10) by lia.
  destruct (Z.eq_dec q 1) as [->|Hq1].
  - (* the step 8: the last block is left to the second loop *)
    assert (Hs : i_step = 8) by lia. clear Hq. subst i_step.
    assert (Hdiv : (n * 8 - 10) / 8 = n - 2)
      by (symmetry; apply (Z.div_unique _ _ _ 6); lia).
    rewrite Hdiv. rewrite !block_cells_contiguous.
    replace (8 * Z.to_nat n)%nat
      with (8 * Z.to_nat (n - 2 + 1) +
            Z.to_nat (hi - (lo + Z.of_nat (Z.to_nat (n - 2 + 1)) * 8) + 1))%nat
      by lia.
    rewrite stepped_from_app. do 2 f_equal. lia.
  - (* a larger step: the blocks are all there is *)
    assert (Hs : 16 <= i_step) by lia.
    destruct (Z.eq_dec n 0) as [->|Hn0].
    + assert (Hdiv : (0 * i_step - 10) / i_step = -1)
        by (symmetry; apply (Z.div_unique _ _ _ (i_step - 10)); lia).
      rewrite Hdiv. change (Z.to_nat (-1 + 1)) with 0%nat.
      change (Z.to_nat 0) with 0%nat. change (Z.of_nat 0) with 0.
      replace (Z.to_nat (hi - (lo + 0 * i_step) + 1)) with 0%nat by lia.
      reflexivity.
    + assert (Hdiv : (n * i_step - 10) / i_step = n - 1)
        by (symmetry; apply (Z.div_unique _ _ _ (i_step - 10)); lia).
      rewrite Hdiv. replace (n - 1 + 1) with n by lia.
      replace (Z.to_nat (hi - (lo + Z.of_nat (Z.to_nat n) * i_step) + 1))
        with 0%nat by lia.
      cbn [stepped_from]. rewrite app_nil_r. reflexivity.
Qed.

End VectBlocks.

Section PlannedBlocks.

Variables (nb i_start i_end i_step : Z).
Hypothesis nb_pos : 0 < nb.
Hypothesis range_ok : 0 <= i_start <= i_end.
Hypothesis step_pos : 0 < i_step.

Local Abbreviation cut_at := (cut nb i_start i_end i_step).
Local Abbreviation seg_of := (exact_segment nb i_start i_end i_step).

(** The blocks of the first [n] segments are the blocks of the first
    [cut n] strides, in order. *)
Lemma concat_blocks (n : nat) :
  Z.of_nat n <= nb ->
  concat ((fun t => block_cells (Z.to_nat (cut_at (t + 1) - cut_at t))
                      (i_start + cut_at t * i_step) i_step)
            <$> seqZ 0 (Z.of_nat n)) =
  block_cells (Z.to_nat (cut_at (Z.of_nat n))) i_start i_step.
Proof.
  induction n as [|n IH]; intros Hn.
  - change (Z.of_nat 0) with 0. rewrite (cut_0 nb i_start i_end i_step nb_pos).
    reflexivity.
  - rewrite seqZ_S, fmap_app, concat_app, IH by lia.
    simpl. rewrite app_nil_r. rewrite Z.add_0_l.
    pose proof (cut_range nb i_start i_end i_step nb_pos range_ok step_pos
                  (Z.of_nat n) ltac:(lia)) as Hc.
    pose proof (cut_mono nb i_start i_end i_step nb_pos range_ok step_pos
                  (Z.of_nat n) (Z.of_nat n + 1) ltac:(lia)) as Hcc.
    replace (Z.of_nat (S n)) with (Z.of_nat n + 1) by lia.
    replace (Z.to_nat (cut_at (Z.of_nat n + 1)))
      with (Z.to_nat (cut_at (Z.of_nat n)) +
            Z.to_nat (cut_at (Z.of_nat n + 1) - cut_at (Z.of_nat n)))%nat by lia.
    rewrite block_cells_app. do 2 f_equal. lia.
Qed.

End PlannedBlocks.

(** * What a call returns, from one run that was never stopped *)

Section Outcome.

Variables (i_start i_end i_step : Z).
Hypothesis inputs_fit : fits i_start i_end i_step.

Local Abbreviation plan :=
  (exact_segment NB_THREADS i_start i_end i_step <$> seqZ 0 NB_THREADS).

(** A run of the call that ends with [stop_threads] clear, with the
    indices [full], decides the count of every run, and its indices when
    the threshold is not reached. *)
Lemma first_search_outcome sched0 sched g U val k ver entry full c :
  stop_threads g = false ->
  thread_function ver i_step = Some entry ->
  (let s := run k sched0 (launch g U val k entry i_step plan) in
   all_exited s /\ stop_threads (shared s) = false /\ all_indices s = full) ->
  thread_find sched g U i_start i_end i_step val k ver = Returned c ->
  let T := Z.of_nat (length full) in
  ret c = (if (0 <=? k) && (k <? T) then k else T) /\
  (k < 0 \/ T <= k -> out c = Some full) /\
  (exists l', out c = Some l' /\ Z.of_nat (length l') = ret c).
Proof.
  intros Hstop Hentry Hfull Hret T. cbv zeta in Hfull.
  destruct Hfull as (Hex1 & Hstop1 & Hidx).
  destruct (thread_find_returned _ _ _ inputs_fit _ _ _ _ _ _ _ Hret)
    as [[Hnone _]|(entry' & Hentry' & Hall & ->)]; [congruence|].
  assert (entry' = entry) by congruence. subst entry'.
  pose proof (thread_find_invariant _ _ _ inputs_fit sched0 g U val k ver entry Hentry)
    as Hinv1.
  pose proof (thread_find_invariant _ _ _ inputs_fit sched g U val k ver entry Hentry)
    as Hinv2.
  rewrite Hstop in Hinv1, Hinv2.
  pose proof (against_full_run _ _ _ _ _ _ _ (length_plan _ _ _)
                (room_plan _ _ _ inputs_fit) _ _ eq_refl Hinv1 Hinv2 Hex1 Hall Hstop1)
    as Hfull.
  cbv zeta in Hfull. rewrite Hidx in Hfull. exact Hfull.
Qed.

(** A run in which every worker has exited and none has faulted is a
    call that returns. *)
Lemma finished_run_returns sched g U val k ver entry :
  thread_function ver i_step = Some entry ->
  (let s := run k sched (launch g U val k entry i_step plan) in
   existsb faulted (workers s) = false /\ forallb exited (workers s) = true) ->
  thread_find sched g U i_start i_end i_step val k ver =
  Returned (aggregate k (run k sched (launch g U val k entry i_step plan))).
Proof.
  intros Hentry [Hnofault Hexited]. unfold thread_find.
  rewrite Hentry, (plan_exact _ _ _ inputs_fit). cbv zeta.
  rewrite Hnofault, Hexited. reflexivity.
Qed.

End Outcome.

(** * The vectorised search of a whole number of blocks *)

Lemma vect_search_exact g U i_start i_end val k :
  stop_threads g = false ->
  fits i_start i_end 8 -> (i_end + 1 - i_start) mod 8 = 0 ->
  i_end < Z.of_nat (length U) -> lanes_agree U val -> k < 0 ->
  answer (thread_find
            (one_by_one (12 * S (Z.to_nat (strides i_start i_end 8 * 8))))
            g U i_start i_end 8 val k 1) =
  Returned (Z.of_nat (length (hits U val (stepped i_start i_end 1))),
            Some (hits U val (stepped i_start i_end 1))) /\
  (forall sched c,
     thread_find sched g U i_start i_end 8 val k 1 = Returned c ->
     ret c = Z.of_nat (length (hits U val (stepped i_start i_end 1))) /\
     out c = Some (hits U val (stepped i_start i_end 1))).
Proof.
  intros Hstop Hfits Hal Hlen Hag Hk.
  pose proof Hfits as (Hrange & Hst & Hmax & Hprod).
  apply Z.mod_divide in Hal; [|lia]. destruct Hal as [n Hn].
  assert (HM : strides i_start i_end 8 = n).
  { unfold strides. replace (i_end - i_start) with (7 + (n - 1) * 8) by lia.
    rewrite Z.div_add by lia. change (7 / 8) with 0. lia. }
  assert (Hin : i_start + strides i_start i_end 8 * 8 <= Z.of_nat (length U))
    by (rewrite HM; lia).
  assert (Hone : strides i_start i_end 1 = i_end + 1 - i_start).
  { unfold strides. rewrite Z.div_1_r. lia. }
  assert (Hentry : thread_function 1 8 = Some VectTest) by reflexivity.
  destruct (vect_full_run _ _ _ Hfits eq_refl U val Hin g k Hstop)
    as (Hex1 & Hstop1 & Hnofault & Hexited & Hidx).
  assert (Hcells : concat (vect_scan U val 8 <$>
                     (exact_segment NB_THREADS i_start i_end 8 <$>
                      seqZ 0 NB_THREADS)) =
                   hits U val (stepped i_start i_end 1)).
  { assert (Hnb : 0 < NB_THREADS) by (unfold NB_THREADS; lia).
    unfold stepped. rewrite Hone.
    replace (Z.to_nat (i_end + 1 - i_start)) with (8 * Z.to_nat n)%nat by lia.
    rewrite <- block_cells_contiguous, <- HM.
    rewrite <- (cut_nb NB_THREADS i_start i_end 8 Hnb).
    pose proof (concat_blocks NB_THREADS i_start i_end 8 Hnb Hrange Hst
                  (Z.to_nat NB_THREADS) ltac:(lia)) as Hblocks.
    rewrite Z2Nat.id in Hblocks by lia. rewrite <- Hblocks.
    rewrite hits_concat, <- !list_fmap_compose. f_equal.
    apply list_fmap_ext. intros j t Ht. cbn [compose].
    apply lookup_seqZ in Ht as [-> Hj].
    unfold exact_segment.
    pose proof (cut_mono NB_THREADS i_start i_end 8 Hnb Hrange Hst
                  (0 + Z.of_nat j) (0 + Z.of_nat j + 1) ltac:(lia)) as Hcc.
    apply (vect_scan_blocks U val Hag _ _ 8
             (cut NB_THREADS i_start i_end 8 (0 + Z.of_nat j + 1) -
              cut NB_THREADS i_start i_end 8 (0 + Z.of_nat j)));
      try reflexivity; lia. }
  rewrite Hcells in Hidx.
  assert (Hall : forall sched c,
    thread_find sched g U i_start i_end 8 val k 1 = Returned c ->
    ret c = Z.of_nat (length (hits U val (stepped i_start i_end 1))) /\
    out c = Some (hits U val (stepped i_start i_end 1))).
  { intros sched c Hc.
    destruct (first_search_outcome _ _ _ Hfits _ sched g U val k 1 VectTest
                _ c Hstop Hentry (conj Hex1 (conj Hstop1 Hidx)) Hc)
      as (Hr & Ho & _).
    destruct (Z.leb_spec 0 k); [lia|]. cbn [andb] in Hr.
    split; [exact Hr|]. apply Ho. left. exact Hk. }
  split; [|exact Hall].
  - pose proof (finished_run_returns _ _ _ Hfits _ g U val k 1 VectTest Hentry
                  (conj Hnofault Hexited)) as Hrun.
    destruct (Hall _ _ Hrun) as [Hr Ho].
    rewrite Hrun. cbn [answer]. rewrite Hr, Ho. reflexivity.
Qed.

(** * main *)

Lemma land_le a b : 0 <= a -> Z.land a b <= a.
Proof.
  intros Ha.
  assert (Hsplit : a = Z.land a b + Z.land a (Z.lnot b)).
  { rewrite Z.add_nocarry_lxor, Z.lxor_lor.
    - rewrite <- Z.land_lor_distr_r, Z.lor_lnot_diag, Z.land_m1_r. reflexivity.
    - apply Z.bits_inj'. intros n Hn.
      rewrite !Z.land_spec, Z.lnot_spec, Z.bits_0 by assumption.
      destruct (Z.testbit a n), (Z.testbit b n); reflexivity.
    - apply Z.bits_inj'. intros n Hn.
      rewrite !Z.land_spec, Z.lnot_spec, Z.bits_0 by assumption.
      destruct (Z.testbit a n), (Z.testbit b n); reflexivity. }
  assert (0 <= Z.land a (Z.lnot b)) by (apply Z.land_nonneg; left; exact Ha).
  lia.
Qed.

(** Non-negative values below [0x7F800000] are zero, denormal or normal
    single-precision numbers: the AVX comparison tells them apart exactly
    as the comparison of integers does. *)
Lemma small_values_agree U val :
  Forall (fun u => 0 <= u < 2139095040) U -> 0 <= val < 2139095040 ->
  lanes_agree U val.
Proof.
  intros HU Hval.
  destruct (Z.eq_dec val 0) as [->|Hnz].
  - apply zero_agree. eapply Forall_impl; [exact HU|].
    intros u Hu. cbv beta in Hu. split; int_lia.
  - apply ordinary_agree.
    + eapply Forall_impl; [exact HU|]. intros u Hu. cbv beta in Hu. int_lia.
    + int_lia.
    + unfold special. apply orb_false_iff. split.
      * unfold is_nan, Int.bits. rewrite Z.mod_small by lia.
        pose proof (land_le val 2139095040 ltac:(lia)).
        destruct (Z.eqb_spec (Z.land val 2139095040) 2139095040); [lia|].
        reflexivity.
      * destruct (is_zero (Int.bits val)) eqn:E; [|reflexivity].
        apply is_zero_bits in E; [|int_lia].
        destruct E; [contradiction|int_lia].
Qed.

Lemma main_fits size :
  0 < size -> size mod 8 = 0 -> size + 16 <= INT_MAX -> fits 0 (size - 1) 8.
Proof.
  intros size_pos size_blocks size_fits.
  apply Z.mod_divide in size_blocks; [|lia]. destruct size_blocks as [n Hn].
  assert (HM : strides 0 (size - 1) 8 = n).
  { unfold strides. replace (size - 1 - 0) with (7 + (n - 1) * 8) by lia.
    rewrite Z.div_add by lia. change (7 / 8) with 0. lia. }
  unfold fits. rewrite HM. unfold NB_THREADS. int_lia.
Qed.

Section Searches.

Variables (U : list Z) (val size : Z).
Hypothesis size_pos : 0 < size.
Hypothesis size_blocks : size mod 8 = 0.
Hypothesis size_fits : size + 16 <= INT_MAX.
Hypothesis size_array : Z.of_nat (length U) = size.
Hypothesis lanes_exact : lanes_agree U val.

Local Abbreviation matches := (hits U val (stepped 0 (size - 1) 1)).

Lemma find_returned fuel n l :
  find fuel U 0 (size - 1) 1 val = Returned (n, l) ->
  n = Z.of_nat (length matches) /\ l = matches.
Proof.
  intros Hr. unfold find in Hr.
  apply (find_loop_more_fuel _ _ _ _ (S (Z.to_nat size))) in Hr; [|discriminate].
  fold (find (fuel + S (Z.to_nat size)) U 0 (size - 1) 1 val) in Hr.
  rewrite find_run in Hr; try lia; try int_lia.
  - inversion Hr. split; reflexivity.
  - unfold strides. rewrite Z.div_1_r. lia.
Qed.

Lemma vect_find_run_blocks fuel :
  (Z.to_nat size < fuel)%nat ->
  vect_find fuel (ones <$> seqZ 0 256) U 0 (size - 1) 8 val =
  Returned (Z.of_nat (length matches), Some matches).
Proof.
  intros Hfuel.
  pose proof size_blocks as Hdiv.
  apply Z.mod_divide in Hdiv; [|lia]. destruct Hdiv as [n Hn].
  rewrite (vect_find_run_aligned U val 0 (size - 1) 8 fuel n);
    try reflexivity; try lia; try int_lia.
  rewrite (vect_scan_blocks U val lanes_exact 0 (size - 1) 8 n)
    by (reflexivity || lia).
  rewrite block_cells_contiguous. unfold stepped, strides.
  rewrite Z.div_1_r.
  replace (Z.to_nat (size - 1 - 0 + 1)) with (8 * Z.to_nat n)%nat by lia.
  reflexivity.
Qed.

Lemma vect_find_returned fuel n o :
  vect_find fuel (ones <$> seqZ 0 256) U 0 (size - 1) 8 val = Returned (n, o) ->
  n = Z.of_nat (length matches) /\ o = Some matches.
Proof.
  intros Hr.
  apply (vect_find_more_fuel _ _ _ _ _ _ _ (S (Z.to_nat size))) in Hr;
    [|discriminate].
  rewrite vect_find_run_blocks in Hr by lia.
  inversion Hr. split; reflexivity.
Qed.

End Searches.

Section MainInputs.

Variable rand : nat -> Z.
Hypothesis rand_range : forall c, 0 <= rand c <= INT_MAX.
Variable args : list Z.
Hypothesis range_ok : 0 <= main_min args <= main_max args.
Hypothesis range_small : main_max args < 2139095040.
Hypothesis val_small : 6 <= argc args -> 0 <= argv args 5 < 2139095040.

(** The value sought is given, or drawn between [min] and [max]. *)
Lemma main_val_range :
  exists val calls,
    main_val rand args = Some (val, calls) /\ 0 <= val < 2139095040.
Proof.
  unfold main_val. destruct (Z.leb_spec 6 (argc args)) as [H6|H6].
  - eexists _, _. split; [reflexivity|]. apply val_small, H6.
  - rewrite IntFacts.sub_small by int_lia.
    rewrite IntFacts.add_small by int_lia.
    rewrite (modulo_rand rand rand_range) by lia.
    cbn [mbind option_bind].
    pose proof (rand_range 0%nat) as Hr.
    rewrite Z.rem_mod_nonneg by lia.
    pose proof (Z.mod_pos_bound (rand 0%nat)
                  (main_max args - main_min args + 1) ltac:(lia)).
    rewrite IntFacts.add_small by int_lia.
    eexists _, _. split; [reflexivity|]. lia.
Qed.

End MainInputs.

(** * The order of what is found *)

Lemma sorted_sublist (l1 l2 : list Z) :
  l1 `sublist_of` l2 -> StronglySorted Z.lt l2 -> StronglySorted Z.lt l1.
Proof.
  induction 1 as [|x l1 l2 Hsub IH|x l1 l2 Hsub IH]; intros Hs.
  - constructor.
  - apply StronglySorted_inv in Hs as [Hs Hall]. constructor; [apply IH, Hs|].
    apply Forall_forall. intros y Hy. rewrite Forall_forall in Hall.
    apply Hall. eapply elem_of_sublist; eassumption.
  - apply StronglySorted_inv in Hs as [Hs _]. apply IH, Hs.
Qed.

Lemma elem_of_block_cells m : forall i st x,
  0 <= st -> x ∈ block_cells m i st ->
  i <= x < i + (Z.of_nat m - 1) * st + 8.
Proof.
  induction m as [|m IH]; intros i st x Hst Hx; cbn [block_cells] in Hx.
  - apply elem_of_nil in Hx as [].
  - apply elem_of_app in Hx as [Hx|Hx].
    + apply elem_of_stepped_from in Hx as (j & Hj & ->). nia.
    + apply IH in Hx; [|assumption]. nia.
Qed.

Lemma block_cells_sorted m : forall i st,
  8 <= st -> StronglySorted Z.lt (block_cells m i st).
Proof.
  induction m as [|m IH]; intros i st Hst; cbn [block_cells]; [constructor|].
  apply StronglySorted_app_2.
  - intros x1 x2 H1 H2.
    apply elem_of_stepped_from in H1 as (j & Hj & ->).
    apply elem_of_block_cells in H2; lia.
  - apply stepped_from_sorted. lia.
  - apply IH, Hst.
Qed.

(** The cells a vectorised scan looks at, in the order it looks at them. *)
Lemma vect_scan_sublist U val i_step seg :
  vect_scan U val i_step seg `sublist_of`
  block_cells (Z.to_nat (blocks seg.1 seg.2 i_step)) seg.1 i_step ++
  stepped_from
    (Z.to_nat (seg.2 - (seg.1 + Z.of_nat (Z.to_nat (blocks seg.1 seg.2 i_step)) * i_step) + 1))
    (seg.1 + Z.of_nat (Z.to_nat (blocks seg.1 seg.2 i_step)) * i_step) 1.
Proof. unfold vect_scan. apply sublist_app; apply sublist_filter. Qed.

Lemma vect_scan_sorted U val i_step lo hi :
  8 <= i_step ->
  StronglySorted Z.lt (vect_scan U val i_step (lo, hi)) /\
  Forall (fun x => lo <= x <= hi) (vect_scan U val i_step (lo, hi)).
Proof.
  intros Hst.
  pose proof (vect_scan_sublist U val i_step (lo, hi)) as Hsub.
  cbn [fst snd] in Hsub.
  set (m := Z.to_nat (blocks lo hi i_step)) in *.
  assert (Hm : (0 < m)%nat -> lo + (Z.of_nat m - 1) * i_step + 8 < hi).
  { intros Hpos. subst m. unfold blocks in *.
    destruct (Z_le_gt_dec (lo + 9) hi) as [Hle|Hgt].
    - pose proof (strides_bounds (lo + 9) hi i_step ltac:(lia) Hle).
      rewrite Z2Nat.id by lia. lia.
    - pose proof (strides_empty (lo + 9) hi i_step ltac:(lia) ltac:(lia)). lia. }
  split.
  - eapply sorted_sublist; [exact Hsub|].
    apply StronglySorted_app_2.
    + intros x1 x2 H1 H2.
      apply elem_of_block_cells in H1; [|lia].
      apply elem_of_stepped_from in H2 as (j & Hj & ->). nia.
    + apply block_cells_sorted, Hst.
    + apply stepped_from_sorted. lia.
  - apply Forall_forall. intros x Hx.
    eapply elem_of_sublist in Hx; [|exact Hsub].
    apply elem_of_app in Hx as [Hx|Hx].
    + destruct m as [|m']; [apply elem_of_nil in Hx as []|].
      apply elem_of_block_cells in Hx; [|lia].
      specialize (Hm ltac:(lia)). lia.
    + apply elem_of_stepped_from in Hx as (j & Hj & ->). nia.
Qed.

(** * The watchdog on its own *)

Section WatchdogRound.

Variables (k : Z) (g : globals).
Hypothesis counters_count : length (nb_find_thread g) = Z.to_nat NB_THREADS.
Hypothesis counters_nonneg : Forall (fun n => 0 <= n) (nb_find_thread g).
Hypothesis counters_fit : total (nb_find_thread g) <= INT_MAX.

Local Abbreviation watch_step := (fun '(g, p) => watch_nb_find k g p).

(** The [for] loop of the watchdog with [m] counters to go. *)
Lemma watch_sum_run (m : nat) : forall t nb_find,
  0 <= t -> t + Z.of_nat m = NB_THREADS ->
  0 <= nb_find ->
  nb_find + total (drop (Z.to_nat t) (nb_find_thread g)) <= INT_MAX ->
  Nat.iter m watch_step (g, WatchSum t nb_find) =
  (g, WatchSum NB_THREADS
        (nb_find + total (drop (Z.to_nat t) (nb_find_thread g)))).
Proof.
  induction m as [|m IH]; intros t nb Ht Htm Hnb Hmax.
  - cbn [Nat.iter nat_rect]. replace t with NB_THREADS by lia.
    rewrite drop_ge by lia. unfold total. cbn [foldr].
    rewrite Z.add_0_r. reflexivity.
  - rewrite Nat.iter_succ_r. cbn [watch_nb_find].
    destruct (Z.ltb_spec t NB_THREADS); [|lia].
    destruct (lookup_lt_is_Some_2 (nb_find_thread g) (Z.to_nat t)) as [c Hc];
      [lia|].
    rewrite Hc. cbn [default from_option id].
    rewrite (drop_S _ _ _ Hc) in *.
    assert (Hc0 : 0 <= c).
    { rewrite Forall_forall in counters_nonneg.
      apply counters_nonneg. eapply list_elem_of_lookup_2, Hc. }
    pose proof (total_nonneg (drop (S (Z.to_nat t)) (nb_find_thread g))
                  (Forall_drop _ _ _ counters_nonneg)) as Hrest.
    change (c :: drop (S (Z.to_nat t)) (nb_find_thread g))
      with ([c] ++ drop (S (Z.to_nat t)) (nb_find_thread g)) in *.
    rewrite total_app in *.
    replace (total [c]) with c in * by (unfold total; simpl; lia).
    rewrite (IntFacts.add_small t 1) by (unfold NB_THREADS in *; int_lia).
    rewrite (IntFacts.add_small nb c) by int_lia.
    rewrite IH; try lia.
    + replace (Z.to_nat (t + 1)) with (S (Z.to_nat t)) by lia.
      do 2 f_equal. lia.
    + replace (Z.to_nat (t + 1)) with (S (Z.to_nat t)) by lia. lia.
Qed.

(** One round of the watchdog while nobody else runs. *)
Lemma watch_round :
  stop_threads g = false ->
  Nat.iter 10 watch_step (g, WatchSleep) =
  if k <? total (nb_find_thread g) then (raise_flag g, WatchExited)
  else (g, WatchSleep).
Proof.
  intros Hstop.
  change 10%nat with (1 + (8 + 1))%nat. rewrite !iter_add.
  assert (H1 : Nat.iter 1 watch_step (g, WatchSleep) = (g, WatchSum 0 0)).
  { cbn [Nat.iter nat_rect watch_nb_find]. rewrite Hstop. reflexivity. }
  rewrite H1.
  rewrite (watch_sum_run 8 0 0)
    by (reflexivity || lia ||
        (cbn [Z.to_nat drop Z.add]; exact counters_fit)).
  cbn [Nat.iter nat_rect watch_nb_find].
  change (Z.to_nat 0) with 0%nat. rewrite drop_0, Z.add_0_l.
  destruct (Z.ltb_spec NB_THREADS NB_THREADS); [lia|].
  destruct (k <? total (nb_find_thread g)); reflexivity.
Qed.

End WatchdogRound.

(** * A scalar call entered with the flag set *)

Lemma watch_nb_find_counters k g p :
  nb_find_thread (watch_nb_find k g p).1 = nb_find_thread g.
Proof.
  unfold watch_nb_find. destruct p as [|t nb|].
  - destruct (stop_threads g); reflexivity.
  - destruct (t <? NB_THREADS); [reflexivity|].
    destruct (k <? nb); reflexivity.
  - reflexivity.
Qed.

Lemma step_silenced k s who : silenced s -> silenced (step k s who).
Proof.
  intros (Hstop & Hc & Hw). destruct who as [t|]; unfold step.
  - destruct (workers s !! t) as [w|] eqn:Hwt; [|repeat split; assumption].
    assert (Hw' := Hw). rewrite Forall_forall in Hw'.
    destruct (Hw' w ltac:(eapply list_elem_of_lookup_2, Hwt)) as [Hbuf Hpc].
    assert (Hstep : thread_step (shared s) w = (shared s, goto w Exited)).
    { unfold thread_step, scalar_thread_function.
      destruct Hpc as [Hpc|Hpc]; rewrite Hpc.
      - unfold goto. rewrite <- Hpc. destruct w; reflexivity.
      - rewrite Hstop. destruct (_ <=? _); reflexivity. }
    rewrite Hstep. unfold silenced. cbn [shared workers].
    split; [exact Hstop|]. split; [exact Hc|].
    apply Forall_insert; [exact Hw|].
    cbn [goto ind_val at_pc]. split; [exact Hbuf|left; reflexivity].
  - destruct (watch s) as [p|]; [|repeat split; assumption].
    pose proof (watch_nb_find_keeps_flag k (shared s) p Hstop) as Hkeep.
    pose proof (watch_nb_find_counters k (shared s) p) as Hsame.
    destruct (watch_nb_find k (shared s) p) as [g' p']. cbn [fst] in *.
    unfold silenced. cbn [shared workers]. rewrite Hsame.
    split; [exact Hkeep|]. split; assumption.
Qed.

Lemma run_silenced k sched : forall s, silenced s -> silenced (run k sched s).
Proof.
  unfold run. induction sched as [|who sched IH]; intros s Hs; [exact Hs|].
  cbn [fold_left]. apply IH, step_silenced, Hs.
Qed.

Lemma launch_silenced g U val k i_step segs :
  stop_threads g = true ->
  silenced (launch g U val k ScalarTest i_step segs).
Proof.
  intros Hstop. unfold silenced, launch. cbn [shared workers stop_threads nb_find_thread].
  split; [exact Hstop|]. split.
  - apply Forall_replicate. reflexivity.
  - apply Forall_forall. intros w Hw.
    apply elem_of_lookup_imap in Hw as (t & seg & -> & _).
    unfold spawn. cbn [ind_val at_pc data thread_data.i_start].
    split; [reflexivity|]. right. reflexivity.
Qed.

(** What [aggregate] makes of it: no match and no index. *)
Lemma aggregate_silenced k s :
  silenced s -> ret (aggregate k s) = 0 /\ out (aggregate k s) = Some [].
Proof.
  intros (_ & Hc & Hw). unfold aggregate.
  assert (Hsum : fold_left Int.add (nb_find_thread (shared s)) 0 = 0).
  { generalize (nb_find_thread (shared s)) Hc. intros l Hl.
    induction Hl as [|n l Hn _ IH]; [reflexivity|]. subst n. exact IH. }
  assert (Hall : concat (zip_with (fun w n => take (Z.to_nat n) (ind_val w))
                           (workers s) (nb_find_thread (shared s))) = []).
  { generalize (nb_find_thread (shared s)). revert Hw.
    generalize (workers s). intros ws Hws.
    induction Hws as [|w ws [Hbuf _] _ IH]; intros cs; [reflexivity|].
    destruct cs as [|c cs]; [reflexivity|].
    cbn [zip_with concat]. rewrite Hbuf, take_nil, IH. reflexivity. }
  rewrite Hsum, Hall.
  destruct (watch s) as [p|]; [destruct (join_watchdog _ _ p)|];
    (destruct (Z.leb_spec 0 k); destruct (Z.ltb_spec k 0); cbn [andb ret out];
     try lia; split; reflexivity).
Qed.

(** * What a stopped call has stored *)

Lemma sublist_concat (ls2 ls1 : list (list Z)) :
  Forall2 sublist ls2 ls1 -> concat ls2 `sublist_of` concat ls1.
Proof.
  induction 1 as [|l2 l1 ls2 ls1 H _ IH]; [constructor|].
  cbn [concat]. apply sublist_app; assumption.
Qed.

Section Subsequence.

Variable stale : bool.
Variables (U : list Z) (val k i_step : Z) (entry : Z -> pc).
Variable segs : list (Z * Z).

Local Abbreviation Inv := (invariant stale U val k i_step entry segs).

(** The indices of any finished run are among those of a run that was
    never stopped, in the same order. *)
Lemma stored_is_sublist s1 s2 :
  Inv s1 -> Inv s2 -> all_exited s1 -> all_exited s2 ->
  stop_threads (shared s1) = false ->
  all_indices s2 `sublist_of` all_indices s1.
Proof.
  intros Hinv1 Hinv2 Hex1 Hex2 Hstop1.
  unfold all_indices. apply sublist_concat, Forall2_fmap.
  apply Forall2_same_length_lookup_2.
  { rewrite (inv_workers _ _ _ _ _ _ _ _ Hinv1), (inv_workers _ _ _ _ _ _ _ _ Hinv2).
    reflexivity. }
  intros t w2 w1 Hw2 Hw1.
  destruct (inv_each _ _ _ _ _ _ _ _ Hinv1 t w1 Hw1) as (seg & _ & Hseg & _).
  destruct (inv_track _ _ _ _ _ _ _ _ Hinv1 t w1 seg Hw1 Hseg) as [_ Hon1].
  destruct (inv_track _ _ _ _ _ _ _ _ Hinv2 t w2 seg Hw2 Hseg) as [Htr2 _].
  specialize (Hon1 Hstop1).
  assert (Hpre : ind_val w2 `prefix_of` ind_val w1)
    by (eapply tracked_exited; eauto).
  destruct Hpre as [rest ->]. apply sublist_inserts_r. reflexivity.
Qed.

End Subsequence.

(** * The claims *)

(** C4, as the code has it.  On a range [0 <= i_start <= i_end < length]
    with a positive step whose last increment [i_end + i_step] still fits in
    an [int], [find] returns (enough fuel given), its indices are ascending,
    they are exactly the indices [i_start + j * i_step <= i_end] at which
    the array holds [val], and the returned count is their number. *)
Theorem find_correct U i_start i_end i_step val :
  0 <= i_start <= i_end -> i_end < Z.of_nat (length U) ->
  0 < i_step -> i_end + i_step <= INT_MAX ->
  exists ind_val,
    (forall fuel, (Z.to_nat (strides i_start i_end i_step) < fuel)%nat ->
       find fuel U i_start i_end i_step val =
       Returned (Z.of_nat (length ind_val), ind_val)) /\
    StronglySorted Z.lt ind_val /\
    (forall i, i ∈ ind_val <->
       (exists j, 0 <= j /\ i = i_start + j * i_step /\ i <= i_end) /\
       load U i = Some val).
Proof.
  intros Hse Hlen Hst Hmax.
  exists (hits U val (stepped i_start i_end i_step)). split; [|split].
  - intros fuel Hfuel. apply find_run; assumption.
  - apply hits_sorted, stepped_from_sorted, Hst.
  - intros i. unfold hits. rewrite list_elem_of_filter.
    rewrite elem_of_stepped by assumption. tauto.
Qed.

Lemma find_correct_witness :
  exists ind_val,
    (forall fuel, (Z.to_nat (strides 0 5 1) < fuel)%nat ->
       find fuel [5; 2; 5; 5; 1; 5] 0 5 1 5 =
       Returned (Z.of_nat (length ind_val), ind_val)) /\
    StronglySorted Z.lt ind_val /\
    (forall i, i ∈ ind_val <->
       (exists j, 0 <= j /\ i = 0 + j * 1 /\ i <= 5) /\
       load [5; 2; 5; 5; 1; 5] i = Some 5).
Proof.
  apply (find_correct [5; 2; 5; 5; 1; 5] 0 5 1 5);
    [lia | simpl; lia | lia | unfold INT_MAX; lia].
Defined.

(** The claim C4 without the bound on [i_end + i_step]: [i] wraps around to
    [INT_MIN] after the first round and the next read is outside the array,
    so that [find] never returns. *)
Lemma find_step_overflow :
  0 <= 1 <= 1 /\ 1 < Z.of_nat (length [5; 5]) /\ 0 < INT_MAX /\
  (forall fuel r, find fuel [5; 5] 1 1 INT_MAX 5 <> Returned r) /\
  (forall fuel, (1 < fuel)%nat -> find fuel [5; 5] 1 1 INT_MAX 5 = Crash).
Proof.
  repeat split; try (simpl; lia).
  - intros fuel r. destruct fuel as [|[|fuel]]; discriminate.
  - intros fuel Hfuel. destruct fuel as [|[|fuel]]; try lia. reflexivity.
Qed.

(** C5, as the code has it.  The step of [vect_find] is the distance between
    blocks of eight consecutive cells, all of which are compared: with the
    step 8 it scans every cell of the range, as [find] does with the step 1.
    Once [initialize_count_ones_table] has run, and when the AVX comparison
    agrees with the comparison of integers on the array, both return the
    same count and the same indices in the same order. *)
Theorem vect_find_8_is_find_1 U i_start i_end val fuel fuel0 table :
  initialize_count_ones_table fuel0 = Returned table ->
  0 <= i_start <= i_end -> i_end < Z.of_nat (length U) ->
  i_end + 8 <= INT_MAX ->
  lanes_agree U val ->
  (Z.to_nat (i_end - i_start + 1) < fuel)%nat ->
  exists ind_val,
    find fuel U i_start i_end 1 val =
      Returned (Z.of_nat (length ind_val), ind_val) /\
    vect_find fuel table U i_start i_end 8 val =
      Returned (Z.of_nat (length ind_val), Some ind_val).
Proof.
  intros Htable Hse Hlen Hmax Hag Hfuel.
  apply initialize_returned in Htable.
  assert (Hstr : strides i_start i_end 1 = i_end - i_start + 1).
  { unfold strides. rewrite Z.div_1_r. reflexivity. }
  exists (hits U val (stepped i_start i_end 1)). split.
  - apply find_run; int_lia.
  - set (m := Z.to_nat (blocks i_start i_end 8)).
    assert (Hm : 8 * Z.of_nat m <= i_end - i_start).
    { subst m. unfold blocks.
      destruct (Z_le_gt_dec (i_start + 9) i_end) as [Hle|Hgt].
      - pose proof (strides_bounds (i_start + 9) i_end 8 ltac:(lia) Hle). lia.
      - pose proof (strides_empty (i_start + 9) i_end 8 ltac:(lia) ltac:(lia)). lia. }
    pose proof (vect_find_run U val table Htable i_start i_end 8 fuel) as Hv.
    cbv zeta in Hv. fold m in Hv.
    rewrite Hv; try lia; try int_lia; try reflexivity.
    rewrite lane_hits_agree by assumption.
    rewrite block_cells_contiguous, <- hits_app.
    replace (i_start + Z.of_nat m * 8) with (i_start + Z.of_nat (8 * m) * 1) by lia.
    rewrite <- stepped_from_app.
    unfold stepped. rewrite Hstr.
    replace (8 * m + Z.to_nat (i_end - (i_start + Z.of_nat (8 * m) * 1) + 1))%nat
      with (Z.to_nat (i_end - i_start + 1)) by lia.
    reflexivity.
Qed.

Lemma vect_find_8_is_find_1_witness :
  exists ind_val,
    find 20 [5; 2; 5; 5; 1; 5; 0; 7; 5; 9; 5; 5] 0 11 1 5 =
      Returned (Z.of_nat (length ind_val), ind_val) /\
    vect_find 20 (ones <$> seqZ 0 256) [5; 2; 5; 5; 1; 5; 0; 7; 5; 9; 5; 5]
      0 11 8 5 =
      Returned (Z.of_nat (length ind_val), Some ind_val).
Proof.
  apply (vect_find_8_is_find_1 [5; 2; 5; 5; 1; 5; 0; 7; 5; 9; 5; 5] 0 11 5 20
           300 (ones <$> seqZ 0 256)).
  - vm_compute. reflexivity.
  - lia.
  - simpl. lia.
  - unfold INT_MAX. lia.
  - apply ordinary_agree.
    + repeat constructor; unfold INT_MIN, INT_MAX; lia.
    + split; unfold INT_MIN, INT_MAX; lia.
    + reflexivity.
  - simpl. lia.
Defined.

(** The claim C5 with one step for both, the table filled: [find] with the
    step 8 looks at the cells 0 and 8 only, [vect_find] with the step 8 at
    all of them. *)
Lemma vect_find_step_is_block_distance :
  0 <= 0 <= 9 /\ 9 < Z.of_nat (length [1; 5; 1; 1; 1; 1; 1; 1; 1; 1]) /\
  0 < 8 /\ Int.rem 8 8 = 0 /\
  lanes_agree [1; 5; 1; 1; 1; 1; 1; 1; 1; 1] 5 /\
  exists table,
    initialize_count_ones_table 300 = Returned table /\
    forall fuel, (2 < fuel)%nat ->
      find fuel [1; 5; 1; 1; 1; 1; 1; 1; 1; 1] 0 9 8 5 = Returned (0, []) /\
      vect_find fuel table [1; 5; 1; 1; 1; 1; 1; 1; 1; 1] 0 9 8 5 =
        Returned (1, Some [1]).
Proof.
  split; [lia|]. split; [simpl; lia|]. split; [lia|]. split; [reflexivity|].
  split; [repeat constructor|].
  exists (ones <$> seqZ 0 256). split; [apply initialize_run; lia|].
  intros fuel Hfuel. destruct fuel as [|[|[|fuel]]]; try lia.
  split; reflexivity.
Qed.

(** C10, as the code has it.  With [0 <= i_start], [i_end < length], a
    positive step whose last increment [i_end + i_step] fits in an [int],
    and a first block test [i_start + 8] that fits too (it does on a
    non-empty range), neither [find] nor [vect_find] ever reads outside of
    the array, whatever the fuel and whatever the 256 cells of
    [count_ones_table] hold.  Once [initialize_count_ones_table] has run,
    [vect_find] never writes outside of its buffer either, and both
    functions return once the fuel exceeds the length of the range. *)
Theorem reads_in_bounds U i_start i_end i_step val :
  0 <= i_start -> i_end < Z.of_nat (length U) ->
  0 < i_step -> i_end + i_step <= INT_MAX ->
  i_start <= i_end \/ i_start + 8 <= INT_MAX ->
  (forall fuel table, length table = 256%nat ->
     find fuel U i_start i_end i_step val <> Crash /\
     vect_find fuel table U i_start i_end i_step val <> Crash) /\
  (forall fuel0 table fuel,
     initialize_count_ones_table fuel0 = Returned table ->
     vect_find fuel table U i_start i_end i_step val <> Overrun /\
     ((Z.to_nat (i_end - i_start + 1) < fuel)%nat ->
      (exists r, find fuel U i_start i_end i_step val = Returned r) /\
      (exists r, vect_find fuel table U i_start i_end i_step val = Returned r))).
Proof.
  intros Hs He Hst Hmax Hor. split.
  - intros fuel table Htable. split.
    + apply find_no_fault; assumption.
    + apply vect_find_no_read_fault; assumption.
  - intros fuel0 table fuel Htable. apply initialize_returned in Htable. split.
    + apply vect_find_no_fault; assumption.
    + intros Hfuel. split.
      * apply find_returns; assumption.
      * apply vect_find_returns; assumption.
Qed.

Lemma reads_in_bounds_witness :
  (forall fuel table, length table = 256%nat ->
     find fuel [5; 2; 5; 5; 1; 5; 0; 7; 5; 9; 5; 5] 0 11 8 5 <> Crash /\
     vect_find fuel table [5; 2; 5; 5; 1; 5; 0; 7; 5; 9; 5; 5] 0 11 8 5 <> Crash) /\
  (forall fuel0 table fuel,
     initialize_count_ones_table fuel0 = Returned table ->
     vect_find fuel table [5; 2; 5; 5; 1; 5; 0; 7; 5; 9; 5; 5] 0 11 8 5 <> Overrun /\
     ((Z.to_nat (11 - 0 + 1) < fuel)%nat ->
      (exists r, find fuel [5; 2; 5; 5; 1; 5; 0; 7; 5; 9; 5; 5] 0 11 8 5 =
                 Returned r) /\
      (exists r, vect_find fuel table [5; 2; 5; 5; 1; 5; 0; 7; 5; 9; 5; 5] 0 11 8 5 =
                 Returned r))).
Proof.
  apply (reads_in_bounds [5; 2; 5; 5; 1; 5; 0; 7; 5; 9; 5; 5] 0 11 8 5).
  - lia.
  - simpl. lia.
  - lia.
  - unfold INT_MAX. lia.
  - left. lia.
Defined.

(** The claim C10 with its two bounds alone.  A step that overflows, a
    negative step, and a start within eight of [INT_MAX] each make one of the
    two functions read outside of the array. *)
Lemma reads_out_of_bounds :
  (0 <= 1 /\ 1 < Z.of_nat (length [5; 5]) /\
   forall fuel, (1 < fuel)%nat -> find fuel [5; 5] 1 1 INT_MAX 5 = Crash) /\
  (0 <= 1 /\ 2 < Z.of_nat (length [5; 5; 5]) /\
   forall fuel, (2 < fuel)%nat -> find fuel [5; 5; 5] 1 2 (-1) 5 = Crash) /\
  (0 <= INT_MAX /\ 5 < Z.of_nat (length [5; 5; 5; 5; 5; 5]) /\
   forall fuel table, (0 < fuel)%nat ->
     vect_find fuel table [5; 5; 5; 5; 5; 5] INT_MAX 5 8 5 = Crash).
Proof.
  split; [|split]; (split; [unfold INT_MAX; lia|]); (split; [simpl; lia|]).
  - intros fuel Hfuel. destruct fuel as [|[|fuel]]; try lia. reflexivity.
  - intros fuel Hfuel. destruct fuel as [|[|[|fuel]]]; try lia. reflexivity.
  - intros fuel table Hfuel. destruct fuel as [|fuel]; [lia|].
    unfold vect_find. change (negb (Int.rem 8 8 =? 0)) with false.
    cbn [vect_loop].
    change (Int.add INT_MAX 8 <? 5) with true. cbv iota.
    rewrite block_mask_fault; [reflexivity|].
    apply load_out_of_bounds. simpl length. unfold INT_MAX. lia.
Qed.

(** C9.  [thread_find] returns [-1] at once, with the globals untouched, no
    thread created and [*ind_val] not assigned, exactly when [ver] is 1 with
    a step that is not a multiple of 8 or [ver] is neither 0 nor 1; whatever
    the fuel, [vect_find] returns [-1] with [*ind_val] not assigned, exactly
    when the step is not a multiple of 8; and a call of [thread_find] that is
    not refused, on inputs that fit in [int], never returns a negative
    count. *)
Theorem invalid_argument_exactly :
  (forall sched g U i_start i_end i_step val k ver,
     (ver = 1 /\ Int.rem i_step 8 <> 0 \/ ver <> 0 /\ ver <> 1) <->
     thread_find sched g U i_start i_end i_step val k ver =
     Returned {| ret := -1; out := None;
                 final := {| shared := g; workers := []; watch := None |} |}) /\
  (forall fuel table U i_start i_end i_step val,
     Int.rem i_step 8 <> 0 <->
     vect_find fuel table U i_start i_end i_step val = Returned (-1, None)) /\
  (forall sched g U i_start i_end i_step val k ver c,
     fits i_start i_end i_step ->
     thread_function ver i_step <> None ->
     thread_find sched g U i_start i_end i_step val k ver = Returned c ->
     0 <= ret c).
Proof.
  split; [|split].
  - intros sched g U i_start i_end i_step val k ver. split.
    + intros H. unfold thread_find, thread_function.
      destruct H as [[-> Hrem]|[H0 H1]].
      * simpl. destruct (Z.eqb_spec (Int.rem i_step 8) 0); [contradiction|].
        reflexivity.
      * destruct (Z.eqb_spec ver 0); [contradiction|].
        destruct (Z.eqb_spec ver 1); [contradiction|]. reflexivity.
    + unfold thread_find.
      destruct (thread_function ver i_step) as [entry|] eqn:E.
      * destruct (segments NB_THREADS i_start i_end i_step); [|discriminate].
        cbv zeta. destruct (existsb faulted _); [discriminate|].
        destruct (forallb exited _); [|discriminate].
        intros H. exfalso. inversion H as [Hc].
        eapply aggregate_assigns. rewrite Hc. reflexivity.
      * intros _. unfold thread_function in E.
        destruct (Z.eqb_spec ver 0); [discriminate|].
        destruct (Z.eqb_spec ver 1) as [H1|H1]; [|right; split; assumption].
        left. split; [assumption|].
        destruct (Z.eqb_spec (Int.rem i_step 8) 0); [discriminate|assumption].
  - intros fuel table U i_start i_end i_step val. unfold vect_find. split.
    + intros H. destruct (Z.eqb_spec (Int.rem i_step 8) 0); [contradiction|].
      reflexivity.
    + destruct (Z.eqb_spec (Int.rem i_step 8) 0) as [E|E]; [|auto].
      cbn [negb].
      destruct (vect_loop _ _ _ _ _ _ _ _ _) as [[[i nb] iv]| | |];
        try discriminate.
      destruct (find_loop _ _ _ _ _ _ _ _) as [[nb' iv']| | |]; discriminate.
  - intros sched g U i_start i_end i_step val k ver c Hfits Hver Hret.
    destruct (thread_find_returned _ _ _ Hfits _ _ _ _ _ _ _ Hret)
      as [[Hnone _]|(entry & Hentry & Hall & ->)]; [contradiction|].
    destruct (call_aggregate _ _ _ Hfits sched g U val k ver entry Hentry)
      as (_ & Hr & _).
    rewrite Hr.
    destruct (Z.leb_spec 0 k); destruct (Z.ltb_spec k (Z.of_nat (length
      (all_indices (run k sched (launch g U val k entry i_step
         (exact_segment NB_THREADS i_start i_end i_step <$> seqZ 0 NB_THREADS)))))));
      simpl; lia.
Qed.

Lemma invalid_argument_exactly_witness :
  thread_find (round_robin 4) initial_globals U6 0 5 3 5 (-1) 1 =
  Returned {| ret := -1; out := None;
              final := {| shared := initial_globals; workers := [];
                          watch := None |} |} /\
  vect_find 0 count_ones_table U6 0 5 3 5 = Returned (-1, None) /\
  0 <= 4.
Proof.
  destruct invalid_argument_exactly as (Hthread & Hvect & Hcount).
  split; [|split].
  - apply Hthread. left. split; [reflexivity|]. vm_compute. discriminate.
  - apply Hvect. vm_compute. discriminate.
  - apply (Hcount (round_robin 4) initial_globals U6 0 5 1 5 (-1) 0
             (aggregate (-1) (run (-1) (round_robin 4)
                (launch initial_globals U6 5 (-1) ScalarTest 1
                   [(0, -1); (0, 0); (1, 1); (2, 2); (3, 2); (3, 3); (4, 4); (5, 5)])))).
    + unfold fits, NB_THREADS, INT_MAX. change (strides 0 5 1) with 6. lia.
    + discriminate.
    + reflexivity.
Defined.

(** C7, as the code has it.  Two calls with identical inputs that fit in
    [int], each started with [stop_threads] clear, return the same count
    whatever the schedules; they return the same indices when there is no
    threshold ([k < 0]) or when the count stays below it.  (When the
    threshold is reached, the indices depend on the schedule.) *)
Theorem thread_find_repeatable sched1 sched2 g1 g2 U i_start i_end i_step val k ver c1 c2 :
  stop_threads g1 = false -> stop_threads g2 = false ->
  fits i_start i_end i_step ->
  thread_find sched1 g1 U i_start i_end i_step val k ver = Returned c1 ->
  thread_find sched2 g2 U i_start i_end i_step val k ver = Returned c2 ->
  ret c1 = ret c2 /\ (k < 0 \/ ret c1 < k -> out c1 = out c2).
Proof.
  intros Hg1 Hg2 Hfits H1 H2.
  destruct (thread_find_returned _ _ _ Hfits _ _ _ _ _ _ _ H1)
    as [[Hnone1 ->]|(entry1 & Hentry1 & Hall1 & ->)];
    destruct (thread_find_returned _ _ _ Hfits _ _ _ _ _ _ _ H2)
    as [[Hnone2 ->]|(entry2 & Hentry2 & Hall2 & ->)]; try congruence.
  - split; reflexivity.
  - assert (entry2 = entry1) by congruence. subst entry2.
    eapply call_two_runs; eassumption.
Qed.

Lemma thread_find_repeatable_witness :
  exists c1 c2,
    thread_find (round_robin 4) initial_globals U6 0 5 1 5 (-1) 0 = Returned c1 /\
    thread_find late_threads initial_globals U6 0 5 1 5 (-1) 0 = Returned c2 /\
    ret c1 = ret c2 /\ (-1 < 0 \/ ret c1 < -1 -> out c1 = out c2).
Proof.
  eexists. eexists.
  split; [vm_compute; reflexivity|].
  split; [vm_compute; reflexivity|].
  eapply (thread_find_repeatable (round_robin 4) late_threads
            initial_globals initial_globals U6 0 5 1 5 (-1) 0).
  - reflexivity.
  - reflexivity.
  - unfold fits, NB_THREADS, INT_MAX. change (strides 0 5 1) with 6. lia.
  - vm_compute. reflexivity.
  - vm_compute. reflexivity.
Defined.

(** The claim C7 with the threshold 2 on the array of the boundary
    scenarios: both calls are the first of the process and have the same
    inputs; under [late_threads] the watchdog stops the thread of the cell 2
    before it has run, and the call returns the indices 0 and 3, which are
    not the first two matches. *)
Lemma schedule_changes_indices :
  stop_threads initial_globals = false /\
  answer (thread_find (round_robin 4) initial_globals U6 0 5 1 5 2 0) =
    Returned (2, Some [0; 2]) /\
  answer (thread_find late_threads initial_globals U6 0 5 1 5 2 0) =
    Returned (2, Some [0; 3]).
Proof. repeat split. Qed.

(** C6, on the code.  The threads of a call are created with the counters
    reset and with [stop_threads] as the call found it; a call that is not
    refused leaves [stop_threads] set.  So a search that follows one that
    was not refused starts with the flag set: on the array of the boundary
    scenarios the first call returns the four matches and the second, with
    the same inputs, returns none. *)
Theorem stop_threads_is_never_cleared :
  (forall g U val k entry i_step segs,
     nb_find_thread (shared (launch g U val k entry i_step segs)) =
       replicate (Z.to_nat NB_THREADS) 0 /\
     stop_threads (shared (launch g U val k entry i_step segs)) =
       stop_threads g) /\
  (forall k s, stop_threads (shared (final (aggregate k s))) = true) /\
  answer (thread_find (round_robin 4) initial_globals U6 0 5 1 5 (-1) 0) =
    Returned (4, Some [0; 2; 3; 5]) /\
  answer (thread_find (round_robin 4)
            (globals_after
               (thread_find (round_robin 4) initial_globals U6 0 5 1 5 (-1) 0)
               initial_globals)
            U6 0 5 1 5 (-1) 0) =
    Returned (0, Some []).
Proof.
  split; [|split; [|split]].
  - intros. split; reflexivity.
  - intros k s. unfold aggregate.
    destruct (watch s) as [p|].
    + pose proof (join_watchdog_keeps_flag k
        {| stop_threads := true;
           nb_find_thread := nb_find_thread (shared s);
           U_threads := U_threads (shared s);
           val_threads := val_threads (shared s) |} p eq_refl) as Hjoin.
      destruct (join_watchdog _ _ p) as [g' p']. cbn [fst] in Hjoin.
      destruct (_ && _); exact Hjoin.
    + destruct (_ && _); reflexivity.
  - reflexivity.
  - reflexivity.
Qed.

(** C2, on the code.  The array of the boundary scenarios holds four
    matches.  The first call with the threshold 2 returns two of them; the
    second call with the same inputs starts with [stop_threads] set, and
    returns the count 0, which is not [min 4 2]. *)
Theorem stale_flag_breaks_threshold :
  length (hits U6 5 (stepped 0 5 1)) = 4%nat /\
  answer (thread_find (round_robin 4) initial_globals U6 0 5 1 5 2 0) =
    Returned (2, Some [0; 2]) /\
  answer (thread_find (round_robin 4)
            (globals_after
               (thread_find (round_robin 4) initial_globals U6 0 5 1 5 2 0)
               initial_globals)
            U6 0 5 1 5 2 0) =
    Returned (0, Some []).
Proof. repeat split. Qed.

(** C1, on the code.  Sixteen cells hold 5 and the range is [[0, 9]] with
    the step 8 and no threshold.  With the table filled, [vect_find]
    returns the ten indices of the range; the last thread of [thread_find]
    is given the segment [[8, 15]], whose end lies past [i_end], and the
    call returns sixteen indices.  On an array of ten cells the same call
    reads past the end of the array. *)
Theorem vectorised_threads_overshoot :
  initialize_count_ones_table 300 = Returned (ones <$> seqZ 0 256) /\
  vect_find 40 (ones <$> seqZ 0 256) (replicate 16 5) 0 9 8 5 =
    Returned (10, Some [0; 1; 2; 3; 4; 5; 6; 7; 8; 9]) /\
  segments NB_THREADS 0 9 8 =
    Some [(0, -1); (0, -1); (0, -1); (0, 7); (8, 7); (8, 7); (8, 7); (8, 15)] /\
  answer (thread_find (round_robin 40) initial_globals (replicate 16 5) 0 9 8 5 (-1) 1) =
    Returned (16, Some [0; 1; 2; 3; 4; 5; 6; 7; 8; 9; 10; 11; 12; 13; 14; 15]) /\
  answer (thread_find (round_robin 40) initial_globals (replicate 10 5) 0 9 8 5 (-1) 1) =
    Crash.
Proof. split; [apply initialize_run; lia|]. repeat split. Qed.

(** C3, on the code.  The first cell holds [INT_MIN], whose bit pattern is
    the single-precision [-0.0], and the target is 0: the AVX comparison of
    the block finds them equal, and [thread_find] returns the index 0 of a
    cell that does not hold the target.  [find] returns nothing there. *)
Theorem negative_zero_matches_zero :
  load (INT_MIN :: replicate 15 1) 0 = Some INT_MIN /\
  INT_MIN <> 0 /\
  answer (thread_find (round_robin 40) initial_globals
            (INT_MIN :: replicate 15 1) 0 15 16 0 (-1) 1) =
    Returned (1, Some [0]) /\
  find 40 (INT_MIN :: replicate 15 1) 0 15 1 0 = Returned (0, []).
Proof. repeat split. discriminate. Qed.

(** A thread on an empty segment exits without reading the array, without
    touching its counter and with no index, whatever [stop_threads]. *)
Lemma idle_on_empty_segment g i_step t seg :
  empty_segment seg ->
  thread_step g (spawn ScalarTest i_step t seg) =
    (g, goto (spawn ScalarTest i_step t seg) Exited) /\
  (seg.1 + 8 <= INT_MAX -> 0 <= seg.1 ->
   thread_step g (spawn VectTest i_step t seg) =
     (g, goto (spawn VectTest i_step t seg) (VectTail seg.1)) /\
   thread_step g (goto (spawn VectTest i_step t seg) (VectTail seg.1)) =
     (g, goto (spawn VectTest i_step t seg) Exited)).
Proof.
  unfold empty_segment. intros Hempty. split; [|intros Hmax Hlo; split].
  - unfold thread_step, scalar_thread_function, spawn, goto.
    cbn [at_pc data ind_val thread_data.i_end].
    destruct (Z.leb_spec seg.1 seg.2); [lia|reflexivity].
  - unfold thread_step, vect_thread_function, spawn, goto.
    cbn [at_pc data ind_val thread_data.i_end].
    rewrite IntFacts.add_small by int_lia.
    destruct (Z.ltb_spec (seg.1 + 8) seg.2); [lia|reflexivity].
  - unfold thread_step, vect_thread_function, spawn, goto.
    cbn [at_pc data ind_val thread_data.i_end].
    destruct (Z.leb_spec seg.1 seg.2); [lia|reflexivity].
Qed.

(** C8, as the code has it.  For [nb] threads, a range
    [0 <= i_start <= i_end], a positive step, and as long as
    [nb * M] and [i_end + i_step] fit in an [int] ([M] is the number of
    strides): the planner yields [nb] segments; their stepped index sets,
    taken in order, make up the stepped index set of the range; two
    different segments share no index; with fewer strides than threads
    exactly [nb - M] segments are empty ([i_start > i_end]); and the thread
    of an empty segment exits at once, having read nothing, counted nothing
    and stored nothing. *)
Theorem planner_partition nb i_start i_end i_step :
  0 < nb -> 0 <= i_start <= i_end -> 0 < i_step ->
  i_end + i_step <= INT_MAX ->
  nb * strides i_start i_end i_step <= INT_MAX ->
  exists segs,
    segments nb i_start i_end i_step = Some segs /\
    length segs = Z.to_nat nb /\
    concat (segment_indices i_step <$> segs) = stepped i_start i_end i_step /\
    (forall t t' seg seg' i,
       segs !! t = Some seg -> segs !! t' = Some seg' -> t <> t' ->
       i ∈ segment_indices i_step seg -> i ∉ segment_indices i_step seg') /\
    (strides i_start i_end i_step < nb ->
     Z.of_nat (length (filter empty_segment segs)) =
     nb - strides i_start i_end i_step) /\
    (forall t seg g,
       segs !! t = Some seg -> empty_segment seg ->
       thread_step g (spawn ScalarTest i_step t seg) =
         (g, goto (spawn ScalarTest i_step t seg) Exited) /\
       (8 <= i_step ->
        thread_step g (spawn VectTest i_step t seg) =
          (g, goto (spawn VectTest i_step t seg) (VectTail seg.1)) /\
        thread_step g (goto (spawn VectTest i_step t seg) (VectTail seg.1)) =
          (g, goto (spawn VectTest i_step t seg) Exited))).
Proof.
  intros Hnb Hr Hst Hmax Hprod.
  exists (exact_segment nb i_start i_end i_step <$> seqZ 0 nb).
  assert (Hlookup : forall t seg,
    (exact_segment nb i_start i_end i_step <$> seqZ 0 nb) !! t = Some seg ->
    seg = exact_segment nb i_start i_end i_step (Z.of_nat t) /\
    0 <= Z.of_nat t < nb).
  { intros t seg. rewrite list_lookup_fmap. intros H.
    destruct (seqZ 0 nb !! t) as [x|] eqn:E; [|discriminate].
    apply lookup_seqZ in E as [-> Hlt]. inversion H. split; [f_equal; lia|lia]. }
  split; [apply segments_exact; assumption|].
  split; [rewrite length_fmap, length_seqZ; reflexivity|].
  split; [apply segments_cover; assumption|].
  split; [|split].
  - intros t t' seg seg' i Hseg Hseg' Hne.
    apply Hlookup in Hseg as [-> Ht]. apply Hlookup in Hseg' as [-> Ht'].
    apply segments_disjoint; try assumption. lia.
  - intros HM. apply surplus_segments_empty; try assumption. lia.
  - intros t seg g Hseg Hempty.
    apply Hlookup in Hseg as [-> Ht].
    destruct (idle_on_empty_segment g i_step t _ Hempty) as [Hscalar Hvect].
    split; [exact Hscalar|]. intros H8. apply Hvect.
    + pose proof (M_bounds i_start i_end i_step Hr Hst) as (HM & Hlo & Hhi).
      pose proof (cut_range nb i_start i_end i_step Hnb Hr Hst
                    (Z.of_nat t) ltac:(lia)) as Hc.
      assert (cut nb i_start i_end i_step (Z.of_nat t) <
              strides i_start i_end i_step).
      { unfold cut. apply Z.div_lt_upper_bound; nia. }
      unfold exact_segment. cbn [fst]. int_nia.
    + pose proof (cut_range nb i_start i_end i_step Hnb Hr Hst
                    (Z.of_nat t) ltac:(lia)) as Hc.
      unfold exact_segment. cbn [fst]. nia.
Qed.

Lemma planner_partition_witness :
  exists segs,
    segments NB_THREADS 0 5 1 = Some segs /\
    length segs = Z.to_nat NB_THREADS /\
    concat (segment_indices 1 <$> segs) = stepped 0 5 1 /\
    (forall t t' seg seg' i,
       segs !! t = Some seg -> segs !! t' = Some seg' -> t <> t' ->
       i ∈ segment_indices 1 seg -> i ∉ segment_indices 1 seg') /\
    (strides 0 5 1 < NB_THREADS ->
     Z.of_nat (length (filter empty_segment segs)) =
     NB_THREADS - strides 0 5 1) /\
    (forall t seg g,
       segs !! t = Some seg -> empty_segment seg ->
       thread_step g (spawn ScalarTest 1 t seg) =
         (g, goto (spawn ScalarTest 1 t seg) Exited) /\
       (8 <= 1 ->
        thread_step g (spawn VectTest 1 t seg) =
          (g, goto (spawn VectTest 1 t seg) (VectTail seg.1)) /\
        thread_step g (goto (spawn VectTest 1 t seg) (VectTail seg.1)) =
          (g, goto (spawn VectTest 1 t seg) Exited))).
Proof.
  apply (planner_partition NB_THREADS 0 5 1).
  - unfold NB_THREADS. lia.
  - lia.
  - lia.
  - unfold INT_MAX. lia.
  - unfold NB_THREADS, INT_MAX. change (strides 0 5 1) with 6. lia.
Defined.

(** The claim C8 on an array of [10^9] cells scanned with the step 1: the
    product [3 * M] does not fit in an [int], the fourth segment starts at
    a negative index, and its stepped index set is not within that of the
    range. *)
Lemma planner_overflow :
  0 <= 0 <= 999999999 /\ 0 < 1 /\ 999999999 + 1 <= INT_MAX /\
  segments NB_THREADS 0 999999999 1 =
    Some [(0, 124999999); (125000000, 249999999); (250000000, -161870913);
          (-161870912, -36870913); (-36870912, 88129087);
          (88129088, 213129087); (213129088, -198741825);
          (-198741824, -73741825)] /\
  -161870912 ∈ segment_indices 1 (-161870912, -36870913) /\
  -161870912 ∉ stepped 0 999999999 1.
Proof.
  split; [lia|]. split; [lia|]. split; [unfold INT_MAX; lia|].
  split; [reflexivity|]. split.
  - unfold segment_indices. apply elem_of_stepped; [lia|].
    exists 0. cbn [fst snd]. lia.
  - intros H. apply elem_of_stepped in H as (j & Hj & Heq & _); lia.
Qed.

(** * What holds of a search entered with the flag clear *)

(** X24.  The scalar strategy, [stop_threads] clear on entry, inputs that fit in
    [int] and a range inside the array.  Whatever the schedule, a call that
    returns gives the count [min T k] ([T] when [k < 0]), where [T] is the
    number of stepped indices of the range that hold [val]; it gives exactly
    these indices, in ascending order, when there is no threshold or when
    [T <= k]; and its list has as many indices as the count says. *)
Theorem scalar_first_search sched g U i_start i_end i_step val k c :
  stop_threads g = false ->
  fits i_start i_end i_step -> i_end < Z.of_nat (length U) ->
  thread_find sched g U i_start i_end i_step val k 0 = Returned c ->
  let l := hits U val (stepped i_start i_end i_step) in
  let T := Z.of_nat (length l) in
  ret c = (if (0 <=? k) && (k <? T) then k else T) /\
  (k < 0 \/ T <= k -> out c = Some l) /\
  (exists l', out c = Some l' /\ Z.of_nat (length l') = ret c).
Proof.
  intros Hstop Hfits Hlen Hret l T.
  destruct (thread_find_returned _ _ _ Hfits _ _ _ _ _ _ _ Hret)
    as [[Hnone _]|(entry & Hentry & Hall & ->)]; [discriminate|].
  inversion Hentry; subst entry.
  destruct (scalar_full_run _ _ _ Hfits U val Hlen g k Hstop)
    as (Hex1 & Hstop1 & _ & _ & Hidx).
  pose proof (thread_find_invariant _ _ _ Hfits
                (one_by_one (2 * Z.to_nat (strides i_start i_end i_step) + 1))
                g U val k 0 ScalarTest eq_refl) as Hinv1.
  pose proof (thread_find_invariant _ _ _ Hfits sched g U val k 0 ScalarTest eq_refl)
    as Hinv2.
  rewrite Hstop in Hinv1, Hinv2.
  pose proof (against_full_run _ _ _ _ _ _ _ (length_plan _ _ _)
                (room_plan _ _ _ Hfits) _ _ eq_refl Hinv1 Hinv2 Hex1 Hall Hstop1)
    as Hfull.
  cbv zeta in Hfull. rewrite Hidx in Hfull. exact Hfull.
Qed.

Lemma scalar_first_search_witness :
  exists c,
    thread_find late_threads initial_globals U6 0 5 1 5 2 0 = Returned c /\
    ret c = 2 /\
    (exists l', out c = Some l' /\ Z.of_nat (length l') = ret c).
Proof.
  destruct (thread_find late_threads initial_globals U6 0 5 1 5 2 0)
    as [c| | |] eqn:E; [|vm_compute in E; discriminate..].
  assert (Hfits : fits 0 5 1)
    by (unfold fits, NB_THREADS, INT_MAX; change (strides 0 5 1) with 6; lia).
  destruct (scalar_first_search late_threads initial_globals U6 0 5 1 5 2 c
              eq_refl Hfits ltac:(simpl; lia) E) as (Hr & _ & Hl).
  exists c. split; [reflexivity|]. split; [exact Hr|exact Hl].
Defined.

(** X25.  Such a call does return: under the schedule that runs the workers one
    after the other, and then with the result of [find]. *)
Theorem scalar_first_search_returns g U i_start i_end i_step val k :
  stop_threads g = false ->
  fits i_start i_end i_step -> i_end < Z.of_nat (length U) ->
  k < 0 ->
  exists ind_val,
    (forall fuel, (Z.to_nat (strides i_start i_end i_step) < fuel)%nat ->
       find fuel U i_start i_end i_step val =
       Returned (Z.of_nat (length ind_val), ind_val)) /\
    answer (thread_find
              (one_by_one (2 * Z.to_nat (strides i_start i_end i_step) + 1))
              g U i_start i_end i_step val k 0) =
    Returned (Z.of_nat (length ind_val), Some ind_val) /\
    (forall sched c,
       thread_find sched g U i_start i_end i_step val k 0 = Returned c ->
       ret c = Z.of_nat (length ind_val) /\ out c = Some ind_val).
Proof.
  intros Hstop Hfits Hlen Hk.
  exists (hits U val (stepped i_start i_end i_step)).
  assert (Hall : forall sched c,
    thread_find sched g U i_start i_end i_step val k 0 = Returned c ->
    ret c = Z.of_nat (length (hits U val (stepped i_start i_end i_step))) /\
    out c = Some (hits U val (stepped i_start i_end i_step))).
  { intros sched c Hc.
    destruct (scalar_full_run _ _ _ Hfits U val Hlen g k Hstop)
      as (Hex1 & Hstop1 & _ & _ & Hidx).
    destruct (first_search_outcome _ _ _ Hfits _ sched g U val k 0 ScalarTest
                _ c Hstop eq_refl (conj Hex1 (conj Hstop1 Hidx)) Hc)
      as (Hr & Ho & _).
    destruct (Z.leb_spec 0 k); [lia|]. cbn [andb] in Hr.
    split; [exact Hr|]. apply Ho. left. exact Hk. }
  split; [|split; [|exact Hall]].
  - intros fuel Hfuel. destruct Hfits as (Hr & Hst & Hmax & _).
    apply find_run; try assumption. int_lia.
  - destruct (scalar_full_run _ _ _ Hfits U val Hlen g k Hstop)
      as (_ & _ & Hnofault & Hexited & _).
    assert (Hrun : thread_find
              (one_by_one (2 * Z.to_nat (strides i_start i_end i_step) + 1))
              g U i_start i_end i_step val k 0 =
            Returned (aggregate k (run k
              (one_by_one (2 * Z.to_nat (strides i_start i_end i_step) + 1))
              (launch g U val k ScalarTest i_step
                 (exact_segment NB_THREADS i_start i_end i_step <$>
                  seqZ 0 NB_THREADS))))).
    { unfold thread_find. cbn [thread_function Z.eqb].
      rewrite (plan_exact _ _ _ Hfits). cbv zeta.
      rewrite Hnofault, Hexited. reflexivity. }
    destruct (Hall _ _ Hrun) as [Hr Ho].
    rewrite Hrun. cbn [answer]. rewrite Hr, Ho. reflexivity.
Qed.

Lemma scalar_first_search_returns_witness :
  exists ind_val,
    (forall fuel, (Z.to_nat (strides 0 5 1) < fuel)%nat ->
       find fuel U6 0 5 1 5 = Returned (Z.of_nat (length ind_val), ind_val)) /\
    answer (thread_find (one_by_one (2 * Z.to_nat (strides 0 5 1) + 1))
              initial_globals U6 0 5 1 5 (-1) 0) =
    Returned (Z.of_nat (length ind_val), Some ind_val) /\
    (forall sched c,
       thread_find sched initial_globals U6 0 5 1 5 (-1) 0 = Returned c ->
       ret c = Z.of_nat (length ind_val) /\ out c = Some ind_val).
Proof.
  apply (scalar_first_search_returns initial_globals U6 0 5 1 5 (-1)).
  - reflexivity.
  - unfold fits, NB_THREADS, INT_MAX. change (strides 0 5 1) with 6. lia.
  - simpl. lia.
  - lia.
Defined.

(** * What holds of every search *)

(** X26.  Inputs that fit in [int]; any strategy, any threshold, any schedule, and
    [stop_threads] set or clear on entry.  A call that is not refused and
    returns hands back as many indices as its count says, in strictly
    ascending order; each of them lies in the array, between [i_start] and
    the end of the last segment, and was found to match by the thread that
    stored it: the cell holds [val], or, in a vectorised thread, its lane
    compared equal to [val] as a single-precision number.  With the scalar
    strategy, or on an array whose lanes compare as integers do, every
    index returned holds [val]. *)
Theorem stored_indices sched g U i_start i_end i_step val k ver c :
  fits i_start i_end i_step ->
  thread_function ver i_step <> None ->
  thread_find sched g U i_start i_end i_step val k ver = Returned c ->
  exists l,
    out c = Some l /\
    Z.of_nat (length l) = ret c /\
    StronglySorted Z.lt l /\
    forall x, x ∈ l ->
      i_start <= x < i_start + strides i_start i_end i_step * i_step /\
      0 <= x < Z.of_nat (length U) /\
      found (ver =? 1) U val x /\
      (ver = 0 \/ lanes_agree U val -> load U x = Some val).
Proof.
  intros Hfits Hver Hret.
  destruct (thread_find_returned _ _ _ Hfits _ _ _ _ _ _ _ Hret)
    as [[Hnone _]|(entry & Hentry & Hall & ->)]; [contradiction|].
  pose proof (thread_find_invariant _ _ _ Hfits sched g U val k ver entry Hentry)
    as Hinv.
  pose proof (call_buffers _ _ _ Hfits sched g U val k ver entry Hentry) as Hbuf.
  destruct (call_aggregate _ _ _ Hfits sched g U val k ver entry Hentry)
    as (_ & Hr & Ho).
  destruct (all_indices_sorted _ _ _ Hfits _ _ _ _ _ _ _ Hinv Hbuf)
    as [Hsorted Hin].
  set (s := run k sched _) in *.
  assert (Hx : forall x, x ∈ all_indices s ->
    i_start <= x < i_start + strides i_start i_end i_step * i_step /\
    0 <= x < Z.of_nat (length U) /\
    found (ver =? 1) U val x /\
    (ver = 0 \/ lanes_agree U val -> load U x = Some val)).
  { intros x Hx. destruct (Hin x Hx) as [Hrange Hfound].
    split; [assumption|]. split; [eapply found_in_bounds, Hfound|].
    split; [assumption|].
    intros Hint. destruct Hfound as [Hload|[Hv Hlane]]; [assumption|].
    destruct Hint as [->|Hag]; [discriminate|].
    apply lane_eq_agree; assumption. }
  destruct ((0 <=? k) && (k <? Z.of_nat (length (all_indices s)))) eqn:Hk.
  - apply andb_true_iff in Hk as [Hk0 HkT].
    apply Z.leb_le in Hk0. apply Z.ltb_lt in HkT.
    exists (take (Z.to_nat k) (all_indices s)).
    split; [assumption|]. split; [rewrite length_take, Hr; lia|].
    split; [apply sorted_take, Hsorted|].
    intros x Hxt. apply elem_of_take in Hxt as (i & Hi & _).
    eapply Hx, list_elem_of_lookup_2, Hi.
  - exists (all_indices s). split; [assumption|]. split; [congruence|].
    split; assumption.
Qed.

Lemma stored_indices_witness :
  exists c l,
    thread_find (round_robin 40) initial_globals
      (INT_MIN :: replicate 15 1) 0 15 16 0 (-1) 1 = Returned c /\
    out c = Some l /\
    Z.of_nat (length l) = ret c /\
    StronglySorted Z.lt l /\
    forall x, x ∈ l ->
      0 <= x < 16 /\ found true (INT_MIN :: replicate 15 1) 0 x.
Proof.
  destruct (thread_find (round_robin 40) initial_globals
              (INT_MIN :: replicate 15 1) 0 15 16 0 (-1) 1)
    as [c| | |] eqn:E; [|vm_compute in E; discriminate..].
  assert (Hfits : fits 0 15 16)
    by (unfold fits, NB_THREADS, INT_MAX; change (strides 0 15 16) with 1; lia).
  destruct (stored_indices (round_robin 40) initial_globals
              (INT_MIN :: replicate 15 1) 0 15 16 0 (-1) 1 c
              Hfits ltac:(discriminate) E) as (l & Ho & Hl & Hs & Hx).
  exists c, l. split; [reflexivity|]. split; [exact Ho|].
  split; [exact Hl|]. split; [exact Hs|].
  intros x Hin. destruct (Hx x Hin) as (_ & Hb & Hf & _).
  split; [exact Hb|exact Hf].
Defined.

(** * Further properties of the program *)

(** ** count_ones and count_ones_table *)

(** X1.  On a non-negative [int], [count_ones] returns the number of bits
    of [n] that are set, a number between 0 and 31; thirty-two rounds of
    the loop are enough. *)
Theorem count_ones_counts_bits fuel n :
  0 <= n <= INT_MAX -> (31 < fuel)%nat ->
  count_ones fuel n = Returned (ones n) /\ 0 <= ones n <= 31.
Proof.
  intros Hn Hfuel. split.
  - unfold count_ones, ones.
    rewrite (count_ones_loop_run 31)
      by (int_lia || (change (2 ^ Z.of_nat 31) with 2147483648; int_lia)).
    reflexivity.
  - unfold ones. pose proof (set_bits_le 31 n). lia.
Qed.

Lemma count_ones_counts_bits_witness :
  count_ones 32 6 = Returned (ones 6) /\ 0 <= ones 6 <= 31.
Proof.
  apply (count_ones_counts_bits 32 6); [unfold INT_MAX, Int.max_signed; lia|lia].
Defined.

(** X2.  On a negative [int] the loop of [count_ones] does not end: the
    arithmetic shift keeps the sign bit, so [n] never becomes 0. *)
Theorem count_ones_negative_never_returns fuel n :
  n < 0 -> count_ones fuel n = OutOfFuel.
Proof. intros Hn. apply count_ones_loop_negative, Hn. Qed.

Lemma count_ones_negative_never_returns_witness :
  count_ones 1000 (-1) = OutOfFuel.
Proof. apply (count_ones_negative_never_returns 1000 (-1)). lia. Defined.

(** X3.  [initialize_count_ones_table] returns; afterwards the table has
    256 cells and cell [i] holds the number of ones of [i], which is at
    most 8. *)
Theorem count_ones_table_initialised fuel i :
  (265 < fuel)%nat -> 0 <= i < 256 ->
  exists table,
    initialize_count_ones_table fuel = Returned table /\
    length table = 256%nat /\
    load table i = Some (ones i) /\
    0 <= ones i <= 8.
Proof.
  intros Hfuel Hi. exists (ones <$> seqZ 0 256).
  split; [apply initialize_run, Hfuel|].
  split; [rewrite length_fmap, length_seqZ; reflexivity|].
  split; [apply lookup_ones_table, Hi|].
  unfold ones.
  rewrite (set_bits_small 8 31)
    by (lia || (change (2 ^ Z.of_nat 8) with 256; lia)).
  pose proof (set_bits_le 8 i). lia.
Qed.

Lemma count_ones_table_initialised_witness :
  exists table,
    initialize_count_ones_table 300 = Returned table /\
    length table = 256%nat /\
    load table 255 = Some (ones 255) /\
    0 <= ones 255 <= 8.
Proof. apply (count_ones_table_initialised 300 255); lia. Defined.

(** X4.  With the table initialised, the room that the vectorised loop
    asks of [realloc] for a block, [nb_find + count_ones_table[mask]], is
    exactly the value of [nb_find] when the inner loop is over: every
    index of the block is written inside the room, and no cell of it is
    left over (in a room one cell shorter the loop would write outside). *)
Theorem block_room_is_exact fuel table U i val mask nb_find ind_val :
  initialize_count_ones_table fuel = Returned table ->
  block_mask U i val = Some mask ->
  0 <= i -> i + 8 <= INT_MAX -> 0 <= nb_find -> nb_find + 8 <= INT_MAX ->
  exists l,
    block_room table nb_find mask = Some (nb_find + Z.of_nat (length l)) /\
    lanes_loop 8 (nb_find + Z.of_nat (length l)) i mask nb_find ind_val =
      Some (nb_find + Z.of_nat (length l), ind_val ++ l) /\
    (l <> [] ->
     lanes_loop 8 (nb_find + Z.of_nat (length l) - 1) i mask nb_find ind_val =
       None).
Proof.
  intros Htable Hmask Hi Himax Hnb Hnbmax.
  apply initialize_returned in Htable. subst table.
  unfold block_mask, loadu_ps in Hmask.
  destruct (load_lanes 8 U i) as [lanes|] eqn:E; simpl in Hmask; [|discriminate].
  injection Hmask as Hm. subst mask.
  pose proof (load_lanes_length _ _ _ _ E) as Hlen.
  set (bs := map (fun u => cmp_eq_os (Int.bits u) (Int.bits val)) lanes) in *.
  assert (Hbs : length bs = 8%nat) by (subst bs; rewrite length_map; exact Hlen).
  exists (lane_indices i bs). split; [|split].
  - apply block_room_ones; rewrite ?Hbs; lia.
  - apply lanes_loop_run; rewrite ?Hbs; int_lia.
  - intros Hne. apply lanes_loop_overrun; rewrite ?Hbs; try int_lia.
    destruct (lane_indices i bs); [contradiction|]. cbn [length]. lia.
Qed.

Lemma block_room_is_exact_witness :
  exists l,
    block_room (ones <$> seqZ 0 256) 0 5 = Some (0 + Z.of_nat (length l)) /\
    lanes_loop 8 (0 + Z.of_nat (length l)) 0 5 0 [] =
      Some (0 + Z.of_nat (length l), [] ++ l) /\
    (l <> [] -> lanes_loop 8 (0 + Z.of_nat (length l) - 1) 0 5 0 [] = None).
Proof.
  apply (block_room_is_exact 300 (ones <$> seqZ 0 256)
           [7; 1; 7; 1; 1; 1; 1; 1] 0 7 5 0 []);
    try reflexivity; unfold INT_MAX, Int.max_signed; lia.
Defined.

(** ** generate_U *)

(** X5.  For a range [min_val <= max_val] whose width fits in [int],
    [generate_U] returns an array of [nb_items] cells (none when
    [nb_items <= 0]) after [nb_items] calls of [rand]; cell [i] holds
    [r mod (max_val - min_val + 1) + min_val] for the [i]-th value [r]
    drawn, so every cell lies between [min_val] and [max_val]. *)
Theorem generate_U_in_range fuel rand calls nb_items min_val max_val :
  (forall c, 0 <= rand c <= INT_MAX) ->
  Int.in_range min_val -> Int.in_range max_val ->
  min_val <= max_val -> max_val - min_val < INT_MAX ->
  nb_items <= INT_MAX -> (Z.to_nat nb_items < fuel)%nat ->
  exists U,
    generate_U fuel rand calls nb_items min_val max_val =
      Returned (U, (calls + Z.to_nat nb_items)%nat) /\
    length U = Z.to_nat nb_items /\
    (forall i, (i < Z.to_nat nb_items)%nat ->
       U !! i = Some (rand (calls + i)%nat mod (max_val - min_val + 1) + min_val)) /\
    Forall (fun u => min_val <= u <= max_val) U.
Proof.
  intros Hrand. apply generate_U_run, Hrand.
Qed.

Lemma generate_U_in_range_witness :
  exists U,
    generate_U 10 (fun c => Z.of_nat c * 37 mod 1000) 0 4 0 100 =
      Returned (U, (0 + Z.to_nat 4)%nat) /\
    length U = Z.to_nat 4 /\
    (forall i, (i < Z.to_nat 4)%nat ->
       U !! i = Some ((fun c => Z.of_nat c * 37 mod 1000) (0 + i)%nat
                      mod (100 - 0 + 1) + 0)) /\
    Forall (fun u => 0 <= u <= 100) U.
Proof.
  apply (generate_U_in_range 10 (fun c => Z.of_nat c * 37 mod 1000) 0 4 0 100);
    try (unfold Int.in_range, Int.min_signed, Int.max_signed; simpl; lia).
  intros c. pose proof (Z.mod_pos_bound (Z.of_nat c * 37) 1000 ltac:(lia)).
  unfold Int.max_signed. lia.
Defined.

(** X6.  A call that has cells to fill traps, on the division of
    [rand() % (max_val - min_val + 1)], exactly when the divisor is 0 in
    [int]: when [max_val = min_val - 1], and when the range is the whole
    of [int], whose width wraps around to 0. *)
Theorem generate_U_traps_on_zero_width fuel rand calls nb_items min_val max_val :
  (forall c, 0 <= rand c <= INT_MAX) ->
  Int.in_range min_val -> Int.in_range max_val ->
  0 < nb_items -> (0 < fuel)%nat ->
  generate_U fuel rand calls nb_items min_val max_val = Crash <->
  max_val = min_val - 1 \/ (min_val = INT_MIN /\ max_val = INT_MAX).
Proof.
  intros Hrand Hmin Hmax Hnb Hfuel.
  rewrite <- (span_zero min_val max_val Hmin Hmax). split.
  - intros Hcrash.
    destruct (Z.eq_dec (Int.add (Int.sub max_val min_val) 1) 0) as [|Hne];
      [assumption|].
    exfalso. revert Hcrash.
    apply (generate_U_loop_no_trap rand Hrand), Hne.
  - intros Hzero. destruct fuel as [|fuel]; [lia|].
    unfold generate_U. cbn [generate_U_loop].
    destruct (Z.ltb_spec 0 nb_items); [|lia].
    rewrite Hzero. reflexivity.
Qed.

Lemma generate_U_traps_on_zero_width_witness :
  generate_U 10 (fun _ => 7) 0 4 INT_MIN INT_MAX = Crash <->
  INT_MAX = INT_MIN - 1 \/ (INT_MIN = INT_MIN /\ INT_MAX = INT_MAX).
Proof.
  apply (generate_U_traps_on_zero_width 10 (fun _ => 7) 0 4 INT_MIN INT_MAX);
    unfold Int.in_range, Int.min_signed, Int.max_signed; simpl; lia.
Defined.

(** ** find and vect_find *)

(** X7.  Whatever the bounds and the step, wrapped around or not: when
    [find] returns, every index it has stored is a cell of the array that
    holds [val], and the count returned is the number of indices stored
    (as an [int]; the number itself when it fits). *)
Theorem find_stores_only_matches fuel U i_start i_end i_step val n l :
  find fuel U i_start i_end i_step val = Returned (n, l) ->
  Forall (fun i => load U i = Some val) l /\
  n = Int.wrap (Z.of_nat (length l)) /\
  (Z.of_nat (length l) <= INT_MAX -> n = Z.of_nat (length l)).
Proof.
  intros Hr. unfold find in Hr.
  destruct (find_loop_sound U val (fun i => load U i = Some val)
              i_end i_step fuel i_start 0 [] n l) as [Hc Hf];
    [auto|exact Hr|apply counted_nil|apply Forall_nil; exact I|].
  split; [exact Hf|]. split; [exact Hc|].
  apply counted_small, Hc.
Qed.

Lemma find_stores_only_matches_witness :
  Forall (fun i => load U6 i = Some 5) [0; 2; 3; 5] /\
  4 = Int.wrap (Z.of_nat (length [0; 2; 3; 5])) /\
  (Z.of_nat (length [0; 2; 3; 5]) <= INT_MAX -> 4 = Z.of_nat (length [0; 2; 3; 5])).
Proof.
  apply (find_stores_only_matches 10 U6 0 5 1 5 4 [0; 2; 3; 5]). reflexivity.
Defined.

(** X8.  On an array that an [int] can index, and whatever
    [count_ones_table] holds, when [vect_find] returns a list, every index
    in it is a cell of the array that holds [val] or whose lane compared
    equal to [val] as a single-precision number, and the count returned is
    the number of indices stored. *)
Theorem vect_find_stores_only_matches fuel table U i_start i_end i_step val n l :
  Z.of_nat (length U) <= INT_MAX ->
  vect_find fuel table U i_start i_end i_step val = Returned (n, Some l) ->
  Forall (fun i => 0 <= i < Z.of_nat (length U) /\ found true U val i) l /\
  n = Int.wrap (Z.of_nat (length l)) /\
  (Z.of_nat (length l) <= INT_MAX -> n = Z.of_nat (length l)).
Proof.
  intros Hlen Hr. unfold vect_find in Hr.
  destruct (negb (Int.rem i_step 8 =? 0)); [discriminate|].
  destruct (vect_loop fuel table U i_end i_step val i_start 0 [])
    as [[[i nb] buf]| | |] eqn:E1; try discriminate.
  destruct (find_loop fuel U i_end 1 val i nb buf) as [[n' l']| | |] eqn:E2;
    try discriminate.
  inversion Hr; subst n' l'.
  set (Q := fun i => 0 <= i < Z.of_nat (length U) /\ found true U val i).
  assert (HQ1 : forall x, lane_eq U val x = true -> Q x).
  { intros x Hx. assert (Hf : found true U val x) by (right; auto).
    split; [eapply found_in_bounds, Hf|exact Hf]. }
  assert (HQ2 : forall x, load U x = Some val -> Q x).
  { intros x Hx. split; [eapply load_Some, Hx|left; exact Hx]. }
  destruct (vect_loop_sound U val Q table i_end i_step fuel i_start 0 [] i nb buf
              HQ1 Hlen E1 counted_nil ltac:(apply Forall_nil; exact I))
    as [Hc1 Hf1].
  destruct (find_loop_sound U val Q i_end 1 fuel i nb buf n l HQ2 E2 Hc1 Hf1)
    as [Hc Hf].
  split; [exact Hf|]. split; [exact Hc|]. apply counted_small, Hc.
Qed.

Lemma vect_find_stores_only_matches_witness :
  Forall (fun i => 0 <= i < Z.of_nat (length (INT_MIN :: replicate 15 1)) /\
                   found true (INT_MIN :: replicate 15 1) 0 i) [0] /\
  1 = Int.wrap (Z.of_nat (length [0])) /\
  (Z.of_nat (length [0]) <= INT_MAX -> 1 = Z.of_nat (length [0])).
Proof.
  apply (vect_find_stores_only_matches 40 (ones <$> seqZ 0 256)
           (INT_MIN :: replicate 15 1) 0 15 8 0 1 [0]).
  - unfold INT_MAX, Int.max_signed. simpl. lia.
  - reflexivity.
Defined.

(** X9.  [find] with the step 0 on a range that is not empty never
    returns: it faults at once when [U[i_start]] cannot be read, and
    otherwise tests the same cell again and again ([realloc] being taken
    to succeed). *)
Theorem find_step_zero_never_returns fuel U i_start i_end val :
  Int.in_range i_start -> i_start <= i_end ->
  find fuel U i_start i_end 0 val =
  match load U i_start, fuel with
  | None, S _ => Crash
  | _, _ => OutOfFuel
  end.
Proof.
  intros Hi Hle. unfold find.
  assert (Hloop : forall fuel nb buf,
    find_loop fuel U i_end 0 val i_start nb buf =
    match load U i_start, fuel with
    | None, S _ => Crash
    | _, _ => OutOfFuel
    end).
  { clear fuel. induction fuel as [|fuel IH]; intros nb buf; cbn [find_loop].
    - destruct (load U i_start); reflexivity.
    - destruct (Z.leb_spec i_start i_end); [|lia].
      destruct (load U i_start) as [u|] eqn:Hu; [|reflexivity].
      rewrite IntFacts.add_small by (rewrite Z.add_0_r; exact Hi).
      rewrite Z.add_0_r.
      destruct (u =? val); apply IH. }
  apply Hloop.
Qed.

Lemma find_step_zero_never_returns_witness :
  find 100 U6 0 5 0 5 =
  match load U6 0, 100%nat with
  | None, S _ => Crash
  | _, _ => OutOfFuel
  end.
Proof.
  apply (find_step_zero_never_returns 100 U6 0 5 5);
    unfold Int.in_range, Int.min_signed, Int.max_signed; lia.
Defined.

(** X10.  The step 0 passes the guard of [vect_find] ([0 % 8 == 0]).  On
    a range of more than nine cells the call then never returns, whatever
    [count_ones_table] holds: it faults at once when the first block
    cannot be read, and otherwise compares the same block again and again
    ([realloc] being taken to succeed), for ever when no lane of the block
    matches, and, with the table initialised, for as long as [nb_find]
    stays eight below [INT_MAX]. *)
Theorem vect_find_step_zero_never_returns fuel table U i_start i_end val :
  Int.in_range i_start -> i_start + 8 < i_end -> i_start + 8 <= INT_MAX ->
  (forall r, vect_find fuel table U i_start i_end 0 val <> Returned r) /\
  (block_mask U i_start val = None -> (0 < fuel)%nat ->
   vect_find fuel table U i_start i_end 0 val = Crash) /\
  (block_mask U i_start val = Some 0 ->
   vect_find fuel table U i_start i_end 0 val = OutOfFuel) /\
  (forall fuel0, initialize_count_ones_table fuel0 = Returned table ->
   block_mask U i_start val <> None -> 8 * Z.of_nat fuel <= INT_MAX ->
   vect_find fuel table U i_start i_end 0 val = OutOfFuel).
Proof.
  intros Hi Hlt Hmax. unfold vect_find.
  change (negb (Int.rem 0 8 =? 0)) with false. cbv iota.
  assert (Hstay : Int.add i_start 0 = i_start)
    by (rewrite IntFacts.add_small by (rewrite Z.add_0_r; exact Hi); lia).
  assert (Htest : (Int.add i_start 8 <? i_end) = true).
  { rewrite IntFacts.add_small by int_lia. apply Z.ltb_lt. exact Hlt. }
  assert (Hnever : forall fuel nb buf r,
    vect_loop fuel table U i_end 0 val i_start nb buf <> Returned r).
  { clear fuel. induction fuel as [|fuel IH]; intros nb buf r;
      cbn [vect_loop]; [discriminate|].
    rewrite Htest, Hstay.
    destruct (block_mask U i_start val) as [mask|]; [|discriminate].
    destruct (mask =? 0); [apply IH|].
    destruct (block_room table nb mask) as [room|]; [|discriminate].
    destruct (lanes_loop 8 room i_start mask nb buf) as [[nb' buf']|];
      [apply IH|discriminate]. }
  split; [|split; [|split]].
  - intros r.
    pose proof (Hnever fuel 0 [] ) as Hn.
    destruct (vect_loop fuel table U i_end 0 val i_start 0 [])
      as [[[i nb] buf]| | |]; try discriminate.
    exfalso. eapply Hn. reflexivity.
  - intros Hnone Hfuel. destruct fuel as [|fuel]; [lia|].
    cbn [vect_loop]. rewrite Htest, Hnone. reflexivity.
  - intros Hzero.
    assert (Hloop : forall fuel nb buf,
      vect_loop fuel table U i_end 0 val i_start nb buf = OutOfFuel).
    { clear fuel. induction fuel as [|fuel IH]; intros nb buf;
        cbn [vect_loop]; [reflexivity|].
      rewrite Htest, Hzero, Hstay. cbn [Z.eqb]. apply IH. }
    rewrite Hloop. reflexivity.
  - intros fuel0 Htable Hsome Hsmall.
    apply initialize_returned in Htable.
    destruct (block_mask U i_start val) as [mask|] eqn:Hm; [|contradiction].
    assert (Hin : 0 <= i_start /\ i_start + 8 <= Z.of_nat (length U)).
    { unfold block_mask, loadu_ps in Hm.
      destruct (load_lanes 8 U i_start) as [lanes|] eqn:E; [|discriminate].
      apply (load_lanes_bounds U 8 i_start lanes E). lia. }
    assert (Hloop : forall fuel nb buf,
      0 <= nb -> nb + 8 * Z.of_nat fuel <= INT_MAX ->
      vect_loop fuel table U i_end 0 val i_start nb buf = OutOfFuel).
    { clear fuel Hsmall. induction fuel as [|fuel IH]; intros nb buf Hnb Hroom;
        [reflexivity|].
      rewrite (vect_loop_block U val table Htable) by lia.
      rewrite Hstay.
      pose proof (length_lane_hits U val (stepped_from 8 i_start 1)) as Hle.
      rewrite length_stepped_from in Hle.
      apply IH; lia. }
    rewrite Hloop by lia. reflexivity.
Qed.

Lemma vect_find_step_zero_never_returns_witness :
  (forall r, vect_find 100 (ones <$> seqZ 0 256) (replicate 16 5) 0 15 0 5 <>
             Returned r) /\
  (block_mask (replicate 16 5) 0 5 = None -> (0 < 100)%nat ->
   vect_find 100 (ones <$> seqZ 0 256) (replicate 16 5) 0 15 0 5 = Crash) /\
  (block_mask (replicate 16 5) 0 5 = Some 0 ->
   vect_find 100 (ones <$> seqZ 0 256) (replicate 16 5) 0 15 0 5 = OutOfFuel) /\
  (forall fuel0,
   initialize_count_ones_table fuel0 = Returned (ones <$> seqZ 0 256) ->
   block_mask (replicate 16 5) 0 5 <> None -> 8 * Z.of_nat 100 <= INT_MAX ->
   vect_find 100 (ones <$> seqZ 0 256) (replicate 16 5) 0 15 0 5 = OutOfFuel).
Proof.
  apply (vect_find_step_zero_never_returns 100 (ones <$> seqZ 0 256)
           (replicate 16 5) 0 15 5);
    unfold Int.in_range, Int.min_signed, Int.max_signed; lia.
Defined.

(** X20.  [vect_find] with any step that is a positive multiple of 8, on
    bounds inside the array with [i_end + i_step] and [i_start + 8] within
    [int], once [initialize_count_ones_table] has run.  The call returns;
    it has compared, as single-precision lanes,
    the eight cells of each block that starts at [i_start + q * i_step]
    with [i + 8 < i_end], and then, as integers, every cell from the first
    [i] that fails the test up to [i_end].  The indices come in strictly
    ascending order, lie between [i_start] and [i_end], and the count is
    their number. *)
Theorem vect_find_contract fuel fuel0 table U i_start i_end i_step val :
  initialize_count_ones_table fuel0 = Returned table ->
  0 <= i_start -> i_end < Z.of_nat (length U) ->
  0 < i_step -> Int.rem i_step 8 = 0 ->
  i_end + i_step <= INT_MAX -> i_start + 8 <= INT_MAX ->
  (Z.to_nat (i_end - i_start + 1) < fuel)%nat ->
  let l := vect_scan U val i_step (i_start, i_end) in
  vect_find fuel table U i_start i_end i_step val =
    Returned (Z.of_nat (length l), Some l) /\
  StronglySorted Z.lt l /\
  Forall (fun x => i_start <= x <= i_end /\ found true U val x) l.
Proof.
  intros Htable Hs Hlen Hst Hrem Hmax Hs8 Hfuel l.
  apply initialize_returned in Htable.
  assert (Hst8 : 8 <= i_step).
  { unfold Int.rem in Hrem. apply Z.rem_divide in Hrem; [|lia].
    destruct Hrem as [q Hq]. lia. }
  destruct (vect_scan_sorted U val i_step i_start i_end Hst8) as [Hsorted Hin].
  split; [|split; [exact Hsorted|]].
  - subst l. unfold vect_scan. cbn [fst snd].
    set (m := Z.to_nat (blocks i_start i_end i_step)).
    assert (Hm : (m <= Z.to_nat (i_end - i_start + 1))%nat).
    { subst m. unfold blocks.
      destruct (Z_le_gt_dec (i_start + 9) i_end) as [Hle|Hgt].
      - pose proof (strides_bounds (i_start + 9) i_end i_step Hst Hle). nia.
      - pose proof (strides_empty (i_start + 9) i_end i_step Hst ltac:(lia)). lia. }
    apply (vect_find_run U val table Htable i_start i_end i_step fuel);
      try assumption.
    + fold m. lia.
    + fold m. nia.
  - subst l. rewrite Forall_forall in Hin. apply Forall_forall. intros x Hx.
    split; [apply Hin, Hx|].
    unfold vect_scan in Hx. apply elem_of_app in Hx as [Hx|Hx].
    + apply list_elem_of_filter in Hx as [Hx _]. right. split; [reflexivity|exact Hx].
    + apply list_elem_of_filter in Hx as [Hx _]. left. exact Hx.
Qed.

Lemma vect_find_contract_witness :
  let l := vect_scan (replicate 40 5) 5 16 (0, 39) in
  vect_find 100 (ones <$> seqZ 0 256) (replicate 40 5) 0 39 16 5 =
    Returned (Z.of_nat (length l), Some l) /\
  StronglySorted Z.lt l /\
  Forall (fun x => 0 <= x <= 39 /\ found true (replicate 40 5) 5 x) l.
Proof.
  apply (vect_find_contract 100 300 (ones <$> seqZ 0 256) (replicate 40 5)
           0 39 16 5);
    try reflexivity; try (unfold INT_MAX, Int.max_signed; simpl; lia).
Defined.

(** X27.  [vect_find] relies on [initialize_count_ones_table].  Called with
    the table as the program starts, all zero, with a step it accepts and
    a first block inside the array of which a lane compares equal, it
    asks [realloc] for no cell and writes outside of its buffer in the
    first round of its loop. *)
Theorem vect_find_needs_the_table fuel U i_start i_end i_step val mask :
  Int.rem i_step 8 = 0 ->
  Int.in_range i_start -> i_start + 8 < i_end -> i_start + 8 <= INT_MAX ->
  block_mask U i_start val = Some mask -> mask <> 0 ->
  block_room count_ones_table 0 mask = Some 0 /\
  vect_find (S fuel) count_ones_table U i_start i_end i_step val = Overrun.
Proof.
  intros Hrem Hi Hlt Hmax Hmask Hne.
  pose proof (block_mask_bound _ _ _ _ Hmask) as Hb. change (2 ^ 8) with 256 in Hb.
  assert (Hroom : block_room count_ones_table 0 mask = Some 0).
  { unfold block_room, load, count_ones_table.
    destruct (Z.ltb_spec mask 0); [lia|].
    rewrite lookup_replicate_2 by lia. reflexivity. }
  split; [exact Hroom|].
  unfold vect_find. rewrite Hrem. cbn [Z.eqb negb vect_loop].
  rewrite IntFacts.add_small by int_lia.
  destruct (Z.ltb_spec (i_start + 8) i_end); [|lia].
  rewrite Hmask. destruct (Z.eqb_spec mask 0); [contradiction|].
  rewrite Hroom.
  unfold block_mask, loadu_ps in Hmask.
  destruct (load_lanes 8 U i_start) as [lanes|] eqn:E; simpl in Hmask;
    [|discriminate].
  injection Hmask as Hm. subst mask.
  pose proof (load_lanes_length _ _ _ _ E) as Hlen.
  set (bs := map (fun u => cmp_eq_os (Int.bits u) (Int.bits val)) lanes) in *.
  assert (Hbs : length bs = 8%nat) by (subst bs; rewrite length_map; exact Hlen).
  rewrite (lanes_loop_overrun bs); rewrite ?Hbs; try int_lia; [reflexivity|].
  destruct (lane_indices i_start bs) eqn:El; [|cbn [length]; lia].
  exfalso. apply Hne. eapply movemask_no_lane, El.
Qed.

Lemma vect_find_needs_the_table_witness :
  block_room count_ones_table 0 2 = Some 0 /\
  vect_find 3 count_ones_table [1; 5; 1; 1; 1; 1; 1; 1; 1; 1] 0 9 8 5 = Overrun.
Proof.
  apply (vect_find_needs_the_table 2 [1; 5; 1; 1; 1; 1; 1; 1; 1; 1] 0 9 8 5 2);
    try reflexivity; try discriminate;
    unfold Int.in_range, Int.min_signed, Int.max_signed; lia.
Defined.

(** ** The worker threads *)

(** X11.  A scalar worker stepping alone while [stop_threads] is clear
    does on its segment what [find] does there, wrap-around included: if
    [find] returns the indices [l] on the bounds and the step of the
    segment, the worker exits within [2 * fuel] steps with [l] stored. *)
Theorem scalar_worker_is_find k fuel s t i_step seg n l N :
  find fuel (U_threads (shared s)) seg.1 seg.2 i_step (val_threads (shared s)) =
    Returned (n, l) ->
  workers s !! t = Some (spawn ScalarTest i_step t seg) ->
  stop_threads (shared s) = false ->
  (2 * fuel <= N)%nat ->
  workers (run k (replicate N (Worker t)) s) !! t =
  Some {| data := thread_data.make seg.1 seg.2 i_step t;
          ind_val := l; at_pc := Exited |}.
Proof.
  intros Hfind Hw Hstop HN.
  destruct (run_worker_alone k t N s _ Hw Hstop) as (Hws & _).
  rewrite Hws, list_lookup_insert_eq by (eapply lookup_lt_Some, Hw).
  f_equal. eapply arrives_exited; [|reflexivity|exact HN].
  eapply scalar_thread_is_find, Hfind.
Qed.

Lemma scalar_worker_is_find_witness :
  workers (run (-1) (replicate 20 (Worker 0))
             (launch initial_globals U6 5 (-1) ScalarTest 1 [(0, 5)])) !! 0%nat =
  Some {| data := thread_data.make 0 5 1 0;
          ind_val := [0; 2; 3; 5]; at_pc := Exited |}.
Proof.
  apply (scalar_worker_is_find (-1) 10
           (launch initial_globals U6 5 (-1) ScalarTest 1 [(0, 5)])
           0 1 (0, 5) 4 [0; 2; 3; 5] 20).
  - reflexivity.
  - reflexivity.
  - reflexivity.
  - lia.
Defined.

(** X12.  A vectorised worker stepping alone while [stop_threads] is
    clear does on its segment what [vect_find] does there: if [vect_find]
    returns the indices [l] on the bounds and the step of the segment,
    with [count_ones_table] as it then is, the worker exits within
    [12 * fuel] steps with [l] stored. *)
Theorem vect_worker_is_vect_find k fuel table s t i_step seg n l N :
  vect_find fuel table (U_threads (shared s)) seg.1 seg.2 i_step
    (val_threads (shared s)) = Returned (n, Some l) ->
  workers s !! t = Some (spawn VectTest i_step t seg) ->
  stop_threads (shared s) = false ->
  (12 * fuel <= N)%nat ->
  workers (run k (replicate N (Worker t)) s) !! t =
  Some {| data := thread_data.make seg.1 seg.2 i_step t;
          ind_val := l; at_pc := Exited |}.
Proof.
  intros Hfind Hw Hstop HN.
  destruct (run_worker_alone k t N s _ Hw Hstop) as (Hws & _).
  rewrite Hws, list_lookup_insert_eq by (eapply lookup_lt_Some, Hw).
  f_equal. eapply arrives_exited; [|reflexivity|exact HN].
  eapply vect_thread_is_vect_find, Hfind.
Qed.

Lemma vect_worker_is_vect_find_witness :
  workers (run (-1) (replicate 240 (Worker 0))
             (launch initial_globals (replicate 16 5) 5 (-1) VectTest 8 [(0, 15)]))
    !! 0%nat =
  Some {| data := thread_data.make 0 15 8 0;
          ind_val := [0; 1; 2; 3; 4; 5; 6; 7; 8; 9; 10; 11; 12; 13; 14; 15];
          at_pc := Exited |}.
Proof.
  apply (vect_worker_is_vect_find (-1) 20 (ones <$> seqZ 0 256)
           (launch initial_globals (replicate 16 5) 5 (-1) VectTest 8 [(0, 15)])
           0 8 (0, 15) 16 [0; 1; 2; 3; 4; 5; 6; 7; 8; 9; 10; 11; 12; 13; 14; 15] 240).
  - reflexivity.
  - reflexivity.
  - reflexivity.
  - lia.
Defined.

(** ** thread_find, vectorised strategy *)

(** X13.  The vectorised strategy, [stop_threads] clear on entry, inputs
    that fit in [int], a step that is a multiple of 8 and an array that
    holds every whole stride of the range.  Each thread scans its segment
    as [vect_find] would: the eight cells of each block as lanes, then the
    cells left over one by one.  Whatever the schedule, a call that
    returns gives the count [min T k] ([T] when [k < 0]) for the number
    [T] of indices all segments hold, these very indices when there is no
    threshold or [T <= k], and as many indices as the count says.  When
    the lanes compare as integers do, the indices are those of the cells
    of the eight-cell blocks at every stride that hold [val]. *)
Theorem vect_first_search sched g U i_start i_end i_step val k c :
  stop_threads g = false ->
  fits i_start i_end i_step -> Int.rem i_step 8 = 0 ->
  i_start + strides i_start i_end i_step * i_step <= Z.of_nat (length U) ->
  thread_find sched g U i_start i_end i_step val k 1 = Returned c ->
  let l := concat (vect_scan U val i_step <$>
                   (exact_segment NB_THREADS i_start i_end i_step <$>
                    seqZ 0 NB_THREADS)) in
  let T := Z.of_nat (length l) in
  ret c = (if (0 <=? k) && (k <? T) then k else T) /\
  (k < 0 \/ T <= k -> out c = Some l) /\
  (exists l', out c = Some l' /\ Z.of_nat (length l') = ret c) /\
  (lanes_agree U val ->
   l = hits U val
         (block_cells (Z.to_nat (strides i_start i_end i_step)) i_start i_step)).
Proof.
  intros Hstop Hfits Hrem Hlen Hret l T.
  assert (Hentry : thread_function 1 i_step = Some VectTest).
  { unfold thread_function. cbn [Z.eqb]. rewrite Hrem. reflexivity. }
  destruct (vect_full_run _ _ _ Hfits Hrem U val Hlen g k Hstop)
    as (Hex1 & Hstop1 & _ & _ & Hidx).
  destruct (first_search_outcome _ _ _ Hfits _ sched g U val k 1 VectTest
              _ c Hstop Hentry (conj Hex1 (conj Hstop1 Hidx)) Hret)
    as (Hr & Ho & Hl).
  split; [exact Hr|]. split; [exact Ho|]. split; [exact Hl|].
  intros Hag. subst l.
  destruct Hfits as (Hrange & Hst & Hmax & Hprod).
  assert (Hnb : 0 < NB_THREADS) by (unfold NB_THREADS; lia).
  rewrite <- (cut_nb NB_THREADS i_start i_end i_step Hnb).
  pose proof (concat_blocks NB_THREADS i_start i_end i_step Hnb Hrange Hst
                (Z.to_nat NB_THREADS) ltac:(lia)) as Hblocks.
  rewrite Z2Nat.id in Hblocks by lia. rewrite <- Hblocks.
  rewrite hits_concat, <- !list_fmap_compose. f_equal.
  apply list_fmap_ext. intros j t Ht. cbn [compose].
  apply lookup_seqZ in Ht as [-> Hj].
  unfold exact_segment.
  pose proof (cut_mono NB_THREADS i_start i_end i_step Hnb Hrange Hst
                (0 + Z.of_nat j) (0 + Z.of_nat j + 1) ltac:(lia)) as Hcc.
  apply (vect_scan_blocks U val Hag _ _ i_step
           (cut NB_THREADS i_start i_end i_step (0 + Z.of_nat j + 1) -
            cut NB_THREADS i_start i_end i_step (0 + Z.of_nat j)));
    try assumption; lia.
Qed.

Lemma vect_first_search_witness :
  exists c,
    thread_find (round_robin 40) initial_globals (replicate 16 5) 0 15 8 5 (-1) 1 =
      Returned c /\
    ret c = 16 /\
    (exists l', out c = Some l' /\ Z.of_nat (length l') = ret c).
Proof.
  destruct (thread_find (round_robin 40) initial_globals (replicate 16 5) 0 15 8 5 (-1) 1)
    as [c| | |] eqn:E; [|vm_compute in E; discriminate..].
  assert (Hfits : fits 0 15 8)
    by (unfold fits, NB_THREADS, INT_MAX; change (strides 0 15 8) with 2; lia).
  destruct (vect_first_search (round_robin 40) initial_globals (replicate 16 5)
              0 15 8 5 (-1) c eq_refl Hfits eq_refl
              ltac:(change (strides 0 15 8) with 2; simpl; lia) E)
    as (Hr & _ & Hl & _).
  exists c. split; [reflexivity|]. split; [exact Hr|exact Hl].
Defined.

(** X14.  The call of [main]: the vectorised strategy with the step 8 and
    no threshold, on a range that is a whole number of blocks of eight
    cells inside the array, [stop_threads] clear on entry, inputs that fit
    in [int] and lanes that compare as integers do.  Whatever the
    schedule, a call that returns gives the count and the indices, in the
    same order, that [find] gives with the step 1 on the same range. *)
Theorem vect_search_is_find g U i_start i_end val k :
  stop_threads g = false ->
  fits i_start i_end 8 -> (i_end + 1 - i_start) mod 8 = 0 ->
  i_end < Z.of_nat (length U) -> lanes_agree U val -> k < 0 ->
  exists ind_val,
    (forall fuel, (Z.to_nat (i_end + 1 - i_start) < fuel)%nat ->
       find fuel U i_start i_end 1 val =
       Returned (Z.of_nat (length ind_val), ind_val)) /\
    (forall sched c,
       thread_find sched g U i_start i_end 8 val k 1 = Returned c ->
       ret c = Z.of_nat (length ind_val) /\ out c = Some ind_val).
Proof.
  intros Hstop Hfits Hal Hlen Hag Hk.
  exists (hits U val (stepped i_start i_end 1)).
  destruct (vect_search_exact g U i_start i_end val k Hstop Hfits Hal Hlen Hag Hk)
    as [_ Hall].
  split; [|assumption].
  intros fuel Hfuel. destruct Hfits as (Hrange & Hst & Hmax & Hprod).
  apply find_run; try assumption; try lia; try int_lia.
  unfold strides. rewrite Z.div_1_r. lia.
Qed.

Lemma vect_search_is_find_witness :
  exists c ind_val,
    thread_find (round_robin 40) initial_globals (replicate 16 5) 0 15 8 5 (-1) 1 =
      Returned c /\
    find 20 (replicate 16 5) 0 15 1 5 =
      Returned (Z.of_nat (length ind_val), ind_val) /\
    ret c = Z.of_nat (length ind_val) /\ out c = Some ind_val.
Proof.
  destruct (thread_find (round_robin 40) initial_globals (replicate 16 5) 0 15 8 5 (-1) 1)
    as [c| | |] eqn:E; [|vm_compute in E; discriminate..].
  destruct (vect_search_is_find initial_globals (replicate 16 5) 0 15 5 (-1))
    as (ind_val & Hfind & Hany).
  - reflexivity.
  - unfold fits, NB_THREADS, INT_MAX. change (strides 0 15 8) with 2. lia.
  - reflexivity.
  - simpl. lia.
  - unfold lanes_agree. simpl. repeat constructor.
  - lia.
  - exists c, ind_val. split; [reflexivity|].
    split; [apply Hfind; simpl; lia|]. apply (Hany (round_robin 40) c E).
Defined.

(** ** thread_find, at any point of a call *)

(** X15.  Inputs that fit in [int], any strategy that is not refused, any
    schedule, any point of the call (finished or not), [stop_threads] set
    or clear on entry.  For every worker [t] that has exited,
    [nb_find_thread[t]] is the number of indices it has stored; the sum of
    the counters fits in an [int] (so neither the sum of the watchdog nor
    the one of [thread_find] wraps around), and [U_threads] and
    [val_threads] are still the array and the target of the call. *)
Theorem counters_count_indices sched g U i_start i_end i_step val k ver entry segs :
  fits i_start i_end i_step ->
  thread_function ver i_step = Some entry ->
  segments NB_THREADS i_start i_end i_step = Some segs ->
  let s := run k sched (launch g U val k entry i_step segs) in
  (forall t w, workers s !! t = Some w -> at_pc w = Exited ->
     nb_find_thread (shared s) !! t = Some (Z.of_nat (length (ind_val w)))) /\
  0 <= total (nb_find_thread (shared s)) <= INT_MAX /\
  U_threads (shared s) = U /\ val_threads (shared s) = val.
Proof.
  intros Hfits Hentry Hsegs s.
  assert (Hplan : segs = exact_segment NB_THREADS i_start i_end i_step <$>
                         seqZ 0 NB_THREADS)
    by (rewrite (plan_exact _ _ _ Hfits) in Hsegs; congruence).
  pose proof (thread_find_invariant _ _ _ Hfits sched g U val k ver entry Hentry)
    as Hinv.
  rewrite <- Hplan in Hinv. fold s in Hinv.
  assert (Hcount : length segs = Z.to_nat NB_THREADS)
    by (rewrite Hplan; apply length_plan).
  pose proof (counters_bounded _ _ _ _ _ _ _ Hcount s Hinv) as [Hpos Hroom].
  split.
  { intros t w Hw _.
    destruct (inv_each _ _ _ _ _ _ _ _ Hinv t w Hw) as (seg & n & _ & Hn & _ & Hok).
    destruct Hok as [-> _]. exact Hn. }
  split; [|apply (inv_array _ _ _ _ _ _ _ _ Hinv)].
  pose proof (room_plan _ _ _ Hfits) as Hr. rewrite <- Hplan in Hr.
  split; [|lia]. apply total_nonneg, Hpos.
Qed.

Lemma counters_count_indices_witness :
  let s := run 2 late_threads
             (launch initial_globals U6 5 2 ScalarTest 1
                [(0, -1); (0, 0); (1, 1); (2, 2); (3, 2); (3, 3); (4, 4); (5, 5)]) in
  (forall t w, workers s !! t = Some w -> at_pc w = Exited ->
     nb_find_thread (shared s) !! t = Some (Z.of_nat (length (ind_val w)))) /\
  0 <= total (nb_find_thread (shared s)) <= INT_MAX /\
  U_threads (shared s) = U6 /\ val_threads (shared s) = 5.
Proof.
  apply (counters_count_indices late_threads initial_globals U6 0 5 1 5 2 0
           ScalarTest).
  - unfold fits, NB_THREADS, INT_MAX. change (strides 0 5 1) with 6. lia.
  - reflexivity.
  - reflexivity.
Defined.



(** X17.  The joins at the end of [thread_find] leave no thread behind:
    for inputs that fit in [int], when a call that is not refused returns,
    every worker has exited, [stop_threads] is set, and the watchdog, if
    there was one ([k >= 0]), has exited as well, within ten of its own
    steps after the flag was set. *)
Theorem no_thread_left_behind sched g U i_start i_end i_step val k ver c :
  fits i_start i_end i_step ->
  thread_function ver i_step <> None ->
  thread_find sched g U i_start i_end i_step val k ver = Returned c ->
  all_exited (final c) /\
  stop_threads (shared (final c)) = true /\
  watch (final c) = (if 0 <=? k then Some WatchExited else None).
Proof.
  intros Hfits Hver Hret.
  destruct (thread_find_returned _ _ _ Hfits _ _ _ _ _ _ _ Hret)
    as [[Hnone _]|(entry & Hentry & Hall & ->)]; [contradiction|].
  pose proof (thread_find_invariant _ _ _ Hfits sched g U val k ver entry Hentry)
    as Hinv.
  set (s := run k sched _) in *.
  pose proof (inv_watch _ _ _ _ _ _ _ _ Hinv) as Hwatch.
  unfold aggregate.
  destruct (watch s) as [p|] eqn:Hp.
  - destruct Hwatch as [Hk Hok].
    set (g1 := {| stop_threads := true;
                  nb_find_thread := nb_find_thread (shared s);
                  U_threads := U_threads (shared s);
                  val_threads := val_threads (shared s) |}).
    pose proof (join_watchdog_exits k g1 p eq_refl Hok) as Hjoin.
    pose proof (join_watchdog_keeps_flag k g1 p eq_refl) as Hkeep.
    destruct (join_watchdog k g1 p) as [g' p']. cbn [fst snd] in Hjoin, Hkeep.
    destruct (Z.leb_spec 0 k); [|lia].
    destruct (k <? _); cbn [andb final shared watch workers];
      (split; [exact Hall|]); (split; [exact Hkeep|]); rewrite Hjoin; reflexivity.
  - destruct (Z.leb_spec 0 k); [lia|].
    cbn [andb final shared watch workers stop_threads].
    split; [exact Hall|]. split; reflexivity.
Qed.

Lemma no_thread_left_behind_witness :
  exists c,
    thread_find late_threads initial_globals U6 0 5 1 5 2 0 = Returned c /\
    all_exited (final c) /\
    stop_threads (shared (final c)) = true /\
    watch (final c) = (if 0 <=? 2 then Some WatchExited else None).
Proof.
  destruct (thread_find late_threads initial_globals U6 0 5 1 5 2 0)
    as [c| | |] eqn:E; [|vm_compute in E; discriminate..].
  exists c. split; [reflexivity|].
  apply (no_thread_left_behind late_threads initial_globals U6 0 5 1 5 2 0 c).
  - unfold fits, NB_THREADS, INT_MAX. change (strides 0 5 1) with 6. lia.
  - discriminate.
  - exact E.
Defined.

(** X18.  The planner of [thread_find] divides by [i_step].  The division
    traps exactly when [i_step] is 0, or when [i_step] is -1 and
    [i_end - i_start] is [INT_MIN]; a call that is not refused is then
    killed, whatever the array, the threshold and the schedule.  The step
    0 is not refused by either strategy ([0 % 8 == 0]). *)
Theorem planner_division_traps sched g U i_start i_end i_step val k ver :
  (segments NB_THREADS i_start i_end i_step = None <->
   i_step = 0 \/ (Int.sub i_end i_start = INT_MIN /\ i_step = -1)) /\
  (thread_function ver i_step <> None ->
   segments NB_THREADS i_start i_end i_step = None ->
   thread_find sched g U i_start i_end i_step val k ver = Crash) /\
  thread_find sched g U i_start i_end 0 val k 0 = Crash /\
  thread_find sched g U i_start i_end 0 val k 1 = Crash.
Proof.
  split; [|split; [|split; reflexivity]].
  - assert (Hdiv8 : forall a, Int.div a NB_THREADS = Some (Z.quot a NB_THREADS)).
    { intros a. unfold Int.div, NB_THREADS. cbn [Z.eqb].
      rewrite andb_false_r. reflexivity. }
    assert (Hcond : Int.div (Int.sub i_end i_start) i_step = None <->
                    i_step = 0 \/ (Int.sub i_end i_start = INT_MIN /\ i_step = -1)).
    { unfold Int.div.
      destruct (Z.eqb_spec i_step 0) as [->|H0]; [cbn; tauto|].
      destruct (Z.eqb_spec (Int.sub i_end i_start) Int.min_signed) as [E|E];
        destruct (Z.eqb_spec i_step (-1)) as [E1|E1]; cbn [orb andb]; split;
        try discriminate; try tauto; intros [H|[H1 H2]]; congruence. }
    rewrite <- Hcond. unfold segments.
    destruct (Int.div (Int.sub i_end i_start) i_step) as [q|] eqn:Eq.
    + split; [|discriminate].
      rewrite (mapM_exact _
        (fun t => let M := Int.add q 1 in
                  (Int.add (Int.mul (Z.quot (Int.mul t M) NB_THREADS) i_step) i_start,
                   Int.sub (Int.add (Int.mul (Z.quot (Int.mul (Int.add t 1) M) NB_THREADS)
                                       i_step) i_start) 1))).
      * discriminate.
      * intros t _. unfold segment. rewrite Eq. cbn [mbind option_bind].
        rewrite !Hdiv8. reflexivity.
    + split; [reflexivity|]. intros _.
      unfold NB_THREADS. cbn [seqZ]. unfold segment. rewrite Eq. reflexivity.
  - intros Hver Hnone. unfold thread_find.
    destruct (thread_function ver i_step); [|contradiction].
    rewrite Hnone. reflexivity.
Qed.

(** ** The watchdog *)

(** X21.  One round of [watch_nb_find] while the counters do not move,
    [stop_threads] being clear: after its ten steps (the test of the flag,
    the eight additions and the comparison) the watchdog has set
    [stop_threads] and exited if the sum of the eight counters exceeds
    [k], and is back at its [usleep] with the globals untouched if not. *)
Theorem watchdog_round k g :
  length (nb_find_thread g) = Z.to_nat NB_THREADS ->
  Forall (fun n => 0 <= n) (nb_find_thread g) ->
  total (nb_find_thread g) <= INT_MAX ->
  stop_threads g = false ->
  Nat.iter 10 (fun '(g, p) => watch_nb_find k g p) (g, WatchSleep) =
  if k <? total (nb_find_thread g) then (raise_flag g, WatchExited)
  else (g, WatchSleep).
Proof. apply watch_round. Qed.

Lemma watchdog_round_witness :
  Nat.iter 10 (fun '(g, p) => watch_nb_find 2 g p)
    ({| stop_threads := false; nb_find_thread := [0; 1; 0; 1; 0; 0; 0; 1];
        U_threads := U6; val_threads := 5 |}, WatchSleep) =
  if 2 <? total [0; 1; 0; 1; 0; 0; 0; 1]
  then (raise_flag {| stop_threads := false;
                      nb_find_thread := [0; 1; 0; 1; 0; 0; 0; 1];
                      U_threads := U6; val_threads := 5 |}, WatchExited)
  else ({| stop_threads := false; nb_find_thread := [0; 1; 0; 1; 0; 0; 0; 1];
           U_threads := U6; val_threads := 5 |}, WatchSleep).
Proof.
  apply (watchdog_round 2
           {| stop_threads := false; nb_find_thread := [0; 1; 0; 1; 0; 0; 0; 1];
              U_threads := U6; val_threads := 5 |}).
  - reflexivity.
  - cbn [nb_find_thread]. repeat constructor; lia.
  - unfold INT_MAX, Int.max_signed. simpl. lia.
  - reflexivity.
Defined.

(** ** thread_find entered with the flag set *)

(** X22.  The scalar strategy entered with [stop_threads] set, as a
    search that was not refused leaves it: whatever the array, the range,
    the threshold and the schedule, at every point of the call the flag is
    still set, the counters are 0, and every worker is at its first test
    or has exited with no index stored, so that none gets to the read of
    the array; and a call that returns gives the count 0 and no index. *)
Theorem stale_flag_silences_scalar_search sched g U i_start i_end i_step val k :
  stop_threads g = true ->
  (forall segs, silenced (run k sched (launch g U val k ScalarTest i_step segs))) /\
  (forall c, thread_find sched g U i_start i_end i_step val k 0 = Returned c ->
     ret c = 0 /\ out c = Some []).
Proof.
  intros Hstop. split.
  - intros segs. apply run_silenced, launch_silenced, Hstop.
  - intros c Hret. unfold thread_find in Hret.
    cbn [thread_function Z.eqb] in Hret.
    destruct (segments NB_THREADS i_start i_end i_step) as [segs|]; [|discriminate].
    cbv zeta in Hret.
    destruct (existsb faulted _); [discriminate|].
    destruct (forallb exited _); [|discriminate].
    inversion Hret. apply aggregate_silenced, run_silenced, launch_silenced, Hstop.
Qed.

Lemma stale_flag_silences_scalar_search_witness :
  exists c,
    thread_find (round_robin 4) (raise_flag initial_globals) U6 0 5 1 5 (-1) 0 =
      Returned c /\
    ret c = 0 /\ out c = Some [] /\
    silenced (run (-1) (round_robin 1)
                (launch (raise_flag initial_globals) U6 5 (-1) ScalarTest 1
                   [(0, -1); (0, 0); (1, 1); (2, 2); (3, 2); (3, 3); (4, 4); (5, 5)])).
Proof.
  destruct (thread_find (round_robin 4) (raise_flag initial_globals) U6 0 5 1 5 (-1) 0)
    as [c| | |] eqn:E; [|vm_compute in E; discriminate..].
  destruct (stale_flag_silences_scalar_search (round_robin 1)
              (raise_flag initial_globals) U6 0 5 1 5 (-1) eq_refl) as [Hany _].
  destruct (stale_flag_silences_scalar_search (round_robin 4)
              (raise_flag initial_globals) U6 0 5 1 5 (-1) eq_refl) as [_ Hret].
  destruct (Hret c E) as [Hr Ho].
  exists c. split; [reflexivity|]. split; [exact Hr|]. split; [exact Ho|].
  apply Hany.
Defined.

(** ** thread_find with a threshold *)

(** X23.  [stop_threads] clear on entry, inputs that fit in [int], an
    array that holds every whole stride of the range, any strategy that is
    not refused, any threshold and any schedule.  The indices a call
    returns are a subsequence of the indices the search without threshold
    returns: each of them is a match of the full search, they come in the
    same order, and none comes twice; which of the matches they are
    depends on the schedule. *)
Theorem thresholded_indices_are_a_subsequence sched g U i_start i_end i_step val k ver c :
  stop_threads g = false ->
  fits i_start i_end i_step ->
  thread_function ver i_step <> None ->
  i_start + strides i_start i_end i_step * i_step <= Z.of_nat (length U) ->
  thread_find sched g U i_start i_end i_step val k ver = Returned c ->
  let full :=
    if ver =? 0 then hits U val (stepped i_start i_end i_step)
    else concat (vect_scan U val i_step <$>
                 (exact_segment NB_THREADS i_start i_end i_step <$>
                  seqZ 0 NB_THREADS)) in
  exists l, out c = Some l /\ l `sublist_of` full.
Proof.
  intros Hstop Hfits Hver Hlen Hret full.
  destruct (thread_find_returned _ _ _ Hfits _ _ _ _ _ _ _ Hret)
    as [[Hnone _]|(entry & Hentry & Hall & ->)]; [contradiction|].
  pose proof (thread_find_invariant _ _ _ Hfits sched g U val k ver entry Hentry)
    as Hinv2.
  destruct (call_aggregate _ _ _ Hfits sched g U val k ver entry Hentry)
    as (_ & _ & Ho).
  set (s2 := run k sched _) in *.
  assert (Hfull : exists sched0,
    let s1 := run k sched0 (launch g U val k entry i_step
                (exact_segment NB_THREADS i_start i_end i_step <$>
                 seqZ 0 NB_THREADS)) in
    all_exited s1 /\ stop_threads (shared s1) = false /\ all_indices s1 = full).
  { pose proof Hfits as (Hrange & Hst & Hmax & Hprod).
    pose proof (M_bounds i_start i_end i_step Hrange Hst) as (HM & Hlo & Hhi).
    destruct (thread_function_cases _ _ _ Hentry)
      as [[-> ->]|(-> & Hrem & ->)].
    - destruct (scalar_full_run _ _ _ Hfits U val ltac:(lia) g k Hstop)
        as (Hex1 & Hstop1 & _ & _ & Hidx).
      eexists. split; [exact Hex1|]. split; [exact Hstop1|exact Hidx].
    - destruct (vect_full_run _ _ _ Hfits Hrem U val Hlen g k Hstop)
        as (Hex1 & Hstop1 & _ & _ & Hidx).
      eexists. split; [exact Hex1|]. split; [exact Hstop1|exact Hidx]. }
  destruct Hfull as (sched0 & Hex1 & Hstop1 & Hidx).
  pose proof (thread_find_invariant _ _ _ Hfits sched0 g U val k ver entry Hentry)
    as Hinv1.
  pose proof (stored_is_sublist _ _ _ _ _ _ _ _ _ Hinv1 Hinv2 Hex1 Hall Hstop1)
    as Hsub.
  rewrite Hidx in Hsub.
  eexists. split; [exact Ho|].
  destruct (_ && _); [|exact Hsub].
  etransitivity; [apply sublist_take|exact Hsub].
Qed.

Lemma thresholded_indices_are_a_subsequence_witness :
  exists c l,
    thread_find late_threads initial_globals U6 0 5 1 5 2 0 = Returned c /\
    out c = Some l /\
    l `sublist_of` hits U6 5 (stepped 0 5 1).
Proof.
  destruct (thread_find late_threads initial_globals U6 0 5 1 5 2 0)
    as [c| | |] eqn:E; [|vm_compute in E; discriminate..].
  assert (Hfits : fits 0 5 1)
    by (unfold fits, NB_THREADS, INT_MAX; change (strides 0 5 1) with 6; lia).
  destruct (thresholded_indices_are_a_subsequence late_threads initial_globals
              U6 0 5 1 5 2 0 c eq_refl Hfits ltac:(discriminate)
              ltac:(change (strides 0 5 1) with 6; simpl; lia) E)
    as (l & Ho & Hsub).
  exists c, l. split; [reflexivity|]. split; [exact Ho|exact Hsub].
Defined.

(** ** main *)

(** X19.  A run of the program on an array of [size] cells, for a positive
    [size] that is a multiple of 8 with [size + 16 <= INT_MAX] (the
    default, [10^9], is one), values drawn between [0 <= min <= max] below
    [0x7F800000] (the default is 0 to 100), and a value sought in the same
    range when it is given.  Whenever the program reaches its end, the
    three searches have reported the same number of matches and, when the
    indices are printed, the same indices in the same order; and it does
    reach its end when the workers run one after the other. *)
Theorem main_reports_agree fuel sched rand args :
  (forall c, 0 <= rand c <= INT_MAX) ->
  0 < main_size args -> main_size args mod 8 = 0 ->
  main_size args + 16 <= INT_MAX ->
  0 <= main_min args <= main_max args -> main_max args < 2139095040 ->
  (6 <= argc args -> 0 <= argv args 5 < 2139095040) ->
  (forall lines,
     main fuel sched rand args = Returned lines ->
     exists val n l,
       Z.of_nat (length l) = n /\
       lines =
         [Creating (main_size args) (main_min args) (main_max args);
          Seeking val; Found n] ++
         print_indices (main_print_ind args) n l ++
         [Found n] ++ print_indices (main_print_ind args) n l ++
         [Found n] ++ print_indices (main_print_ind args) n l) /\
  ((265 < fuel)%nat -> (Z.to_nat (main_size args) < fuel)%nat ->
   exists lines,
     main fuel (one_by_one (12 * S (Z.to_nat (main_size args)))) rand args =
     Returned lines).
Proof.
  intros Hrand Hsize Hblocks Hfits Hrange Hmax Hval.
  destruct (main_val_range rand Hrand args Hrange Hmax Hval)
    as (val & calls & Ev & Hv).
  set (size := main_size args) in *.
  assert (Hsub : Int.sub size 1 = size - 1) by (apply IntFacts.sub_small; int_lia).
  assert (Hsearch : forall U,
    length U = Z.to_nat size ->
    Forall (fun u => main_min args <= u <= main_max args) U ->
    Z.of_nat (length U) = size /\ lanes_agree U val /\ size - 1 < Z.of_nat (length U)).
  { intros U Hlen Hall. split; [lia|]. split; [|lia].
    apply small_values_agree; [|exact Hv].
    eapply Forall_impl; [exact Hall|]. intros u Hu. cbv beta in Hu. lia. }
  pose proof (main_fits size Hsize Hblocks Hfits) as Hfit8.
  assert (Hal : (size - 1 + 1 - 0) mod 8 = 0)
    by (replace (size - 1 + 1 - 0) with size by lia; exact Hblocks).
  split.
  - intros lines Hmain. unfold main in Hmain. fold size in Hmain.
    rewrite Ev, Hsub in Hmain.
    destruct (initialize_count_ones_table fuel) as [table| | |] eqn:Etable;
      try discriminate.
    apply initialize_returned in Etable. subst table.
    destruct (generate_U fuel rand calls size (main_min args) (main_max args))
      as [[U calls']| | |] eqn:Eg; try discriminate.
    destruct (generate_U_returned rand Hrand size (main_min args) (main_max args)
                fuel calls U calls') as [Hlen Hall];
      try assumption; try int_lia.
    destruct (Hsearch U Hlen Hall) as (HU & Hag & Hin).
    destruct (find fuel U 0 (size - 1) 1 val) as [[n1 l1]| | |] eqn:Ef;
      try discriminate.
    destruct (find_returned U val size Hsize Hfits HU fuel n1 l1 Ef) as [-> ->].
    destruct (vect_find fuel _ U 0 (size - 1) 8 val) as [[n2 o2]| | |] eqn:Evf;
      try discriminate.
    destruct (vect_find_returned U val size Hsize Hblocks Hfits HU Hag fuel n2 o2 Evf)
      as [-> ->].
    destruct (thread_find sched initial_globals U 0 (size - 1) 8 val (-1) 1)
      as [c| | |] eqn:Et; try discriminate.
    destruct (vect_search_exact initial_globals U 0 (size - 1) val (-1)
                eq_refl Hfit8 Hal Hin Hag ltac:(lia)) as [_ Hany].
    destruct (Hany sched c Et) as [Hret Hout].
    rewrite Hret, Hout in Hmain. cbn [default from_option id] in Hmain.
    inversion Hmain.
    exists val, (Z.of_nat (length (hits U val (stepped 0 (size - 1) 1)))),
      (hits U val (stepped 0 (size - 1) 1)).
    split; reflexivity.
  - intros Htable Hfuel. unfold main. fold size.
    rewrite Ev, Hsub, (initialize_run fuel Htable).
    destruct (generate_U_run rand Hrand size (main_min args) (main_max args)
                fuel calls) as (U & Eg & Hlen & _ & Hall);
      try assumption; try int_lia.
    rewrite Eg.
    destruct (Hsearch U Hlen Hall) as (HU & Hag & Hin).
    assert (Hstr : strides 0 (size - 1) 1 = size)
      by (unfold strides; rewrite Z.div_1_r; lia).
    rewrite (find_run U val 0 (size - 1) 1 fuel)
      by (lia || int_lia || (rewrite Hstr; lia)).
    rewrite (vect_find_run_blocks U val size Hsize Hblocks Hfits HU Hag fuel Hfuel).
    destruct (vect_search_exact initial_globals U 0 (size - 1) val (-1)
                eq_refl Hfit8 Hal Hin Hag ltac:(lia)) as [Hrun _].
    assert (HM : strides 0 (size - 1) 8 * 8 = size).
    { apply Z.mod_divide in Hblocks; [|lia]. destruct Hblocks as [n Hn].
      unfold strides. replace (size - 1 - 0) with (7 + (n - 1) * 8) by lia.
      rewrite Z.div_add by lia. change (7 / 8) with 0. lia. }
    rewrite HM in Hrun.
    destruct (thread_find _ initial_globals U 0 (size - 1) 8 val (-1) 1)
      as [c| | |]; cbn [answer] in Hrun; try discriminate.
    eexists. reflexivity.
Qed.

Lemma main_reports_agree_witness :
  (forall lines,
     main 300 (round_robin 40) (fun c => Z.of_nat c * 37 mod 1000) [1; 16; 3; 5] =
       Returned lines ->
     exists val n l,
       Z.of_nat (length l) = n /\
       lines =
         [Creating (main_size [1; 16; 3; 5]) (main_min [1; 16; 3; 5])
            (main_max [1; 16; 3; 5]);
          Seeking val; Found n] ++
         print_indices (main_print_ind [1; 16; 3; 5]) n l ++
         [Found n] ++ print_indices (main_print_ind [1; 16; 3; 5]) n l ++
         [Found n] ++ print_indices (main_print_ind [1; 16; 3; 5]) n l) /\
  ((265 < 300)%nat -> (Z.to_nat (main_size [1; 16; 3; 5]%Z) < 300)%nat ->
   exists lines,
     main 300 (one_by_one (12 * S (Z.to_nat (main_size [1; 16; 3; 5]%Z))))
       (fun c => Z.of_nat c * 37 mod 1000) [1; 16; 3; 5] =
     Returned lines).
Proof.
  apply (main_reports_agree 300 (round_robin 40)
           (fun c => Z.of_nat c * 37 mod 1000) [1; 16; 3; 5]);
    try (unfold main_size, main_min, main_max, argc, argv, INT_MAX,
           Int.max_signed; simpl; lia).
  - intros c. pose proof (Z.mod_pos_bound (Z.of_nat c * 37) 1000 ltac:(lia)).
    unfold Int.max_signed. lia.
  - reflexivity.
Defined.
